(** * go-lru: the O(1) least-recently-used cache of [lru.go]

    A shallow embedding of the [Cache] of [src/lru.go]: the slot array
    [data], the recency links [next]/[last] stored in the slots as array
    indices, the key index [keys], the cursors [head] and [tail], and the
    operations [New], [promote], [Get], [Put], [Clear], [All], [Keys] and
    [Values].

    Conventions of the embedding.
    - A Go [int] index is a [nat]: the code only copies indices and
      increments [len] below [cap], never subtracts, so no value is ever
      negative; [make([]node, cap)] bounds [cap] by the largest [int], so
      [len++] does not wrap.
    - Indexing a slice outside its bounds panics in Go.  Every operation
      returns an [option]; [None] is exactly such a panic.
    - A Go [error] is [option (error E)]: [None] is [nil].
    - The eviction callback is a function on a caller-owned state [Env].
      Each invocation is also appended to the ghost trace [calls].
    - The mutex serialises the public operations; the embedding is the
      sequential behaviour of one operation at a time.
    - The key type is any [comparable] type, compared with Go's [==]:
      see [Comparable] below.  A key of interface type whose dynamic
      type cannot be compared makes the map access itself panic; the
      embedding is about the keys on which [==] is defined. *)

From stdpp Require Import gmap strings list fin_maps.

Module lru.

(** ** Errors and [errors.Join] *)

(** A Go error value is either an opaque error of the caller ([Err]) or the
    [joinError] wrapper built by [errors.Join]. *)
#[warnings="-register-all"]
Inductive error (E : Type) : Type :=
| Err (e : E)
| joinError (errs : list (error E)).
Arguments Err {E} e.
Arguments joinError {E} errs.

(** The zero value [*new(T)] of a Go type. *)
Class Zero (A : Type) : Type := zero : A.

(** ** Key equality and the built-in map *)

(** Go compares the keys of a [comparable] type with [==].  That relation
    is symmetric and transitive, but it is not the identity of values: a
    key need not equal itself (a floating-point NaN), and two values that
    differ may be equal (the zeros [+0] and [-0]).  [ident_of k] is the
    identity of [k] under [==]: two keys are equal when both have an
    identity and it is the same one; a key without identity equals no
    key, itself included. *)
Class Comparable (K : Type) : Type := ident_of : K → option positive.
#[global] Hint Mode Comparable ! : typeclass_instances.

(** [k1 == k2] *)
Definition keq {K : Type} `{Comparable K} (k1 k2 : K) : bool :=
  match ident_of k1, ident_of k2 with
  | Some a, Some b => bool_decide (a = b)
  | _, _ => false
  end.

(** A key type on which [==] is the identity of values, as it is on
    strings, integers, booleans and pointers. *)
Definition plain_keys (K : Type) `{Countable K} : Comparable K :=
  λ k, Some (encode k).

(** [map[K]int].  A lookup finds an entry by the identity of its key.  An
    entry stored under a key that equals no key is never found again and
    never deleted: [lost] counts these entries, which only [clear]
    removes. *)
Record gomap : Type := GoMap {
  found : gmap positive nat;
  lost : nat
}.

(** [make(map[K]int, n)], and what [clear(m)] leaves. *)
Definition map_empty : gomap := {| found := ∅; lost := 0 |}.

(** [len(m)] *)
Definition map_len (m : gomap) : nat := size (found m) + lost m.

Section gomap.
Context {K : Type} `{Comparable K}.

(** [i, ok := m[k]] *)
Definition map_get (k : K) (m : gomap) : option nat :=
  a ← ident_of k; found m !! a.

(** [m[k] = i] *)
Definition map_set (k : K) (i : nat) (m : gomap) : gomap :=
  match ident_of k with
  | Some a => {| found := <[a := i]> (found m); lost := lost m |}
  | None => {| found := found m; lost := S (lost m) |}
  end.

(** [delete(m, k)] *)
Definition map_delete (k : K) (m : gomap) : gomap :=
  match ident_of k with
  | Some a => {| found := delete a (found m); lost := lost m |}
  | None => m
  end.

(** No two keys at different places of [ks] are equal. *)
Fixpoint unequal (ks : list K) : bool :=
  match ks with
  | [] => true
  | k :: rest => forallb (λ k', negb (keq k k')) rest && unequal rest
  end.
End gomap.

Section errors.
Context {E : Type}.

(** [errors.Join(errs...)]: nil values are discarded; the result is nil
    when nothing is left, and a [joinError] wrapping the rest otherwise. *)
Definition Join (errs : list (option (error E))) : option (error E) :=
  match omap id errs with
  | [] => None
  | l => Some (joinError l)
  end.

(** The caller's errors found by unwrapping a value all the way down,
    left to right: what [errors.Is] / [errors.As] can see. *)
Fixpoint leaves (e : error E) : list E :=
  match e with
  | Err x => [x]
  | joinError l =>
      (fix go (l : list (error E)) : list E :=
         match l with
         | [] => []
         | e' :: l' => leaves e' ++ go l'
         end) l
  end.

Definition leaves_opt (e : option (error E)) : list E :=
  match e with
  | None => []
  | Some e' => leaves e'
  end.
End errors.

(** ** Data model *)

Section cache.
Context {K : Type} `{Comparable K} {V E Env : Type}.
Context `{Zero K} `{Zero V}.

Record node : Type := Node {
  next : nat;
  last : nat;
  key : K;
  val : V
}.

(** [evict func(K, V) error], with the caller's state made explicit. *)
Definition evict_func : Type := Env → K → V → Env * option (error E).

Record Cache : Type := MkCache {
  len : nat;
  head : nat;
  tail : nat;
  cap : nat;
  evict : option evict_func;
  data : list node;
  keys : gomap
}.

(** What lives outside the cache: the callback's own state and the
    ghost trace of the callback's invocations. *)
Record World : Type := MkWorld {
  env : Env;
  calls : list (K * V)
}.

Definition zero_node : node :=
  {| next := 0; last := 0; key := zero; val := zero |}.

Definition set_next (x : nat) (n : node) : node :=
  {| next := x; last := last n; key := key n; val := val n |}.
Definition set_last (x : nat) (n : node) : node :=
  {| next := next n; last := x; key := key n; val := val n |}.
Definition set_key (k : K) (n : node) : node :=
  {| next := next n; last := last n; key := k; val := val n |}.
Definition set_val (v : V) (n : node) : node :=
  {| next := next n; last := last n; key := key n; val := v |}.

Definition set_len (x : nat) (c : Cache) : Cache :=
  {| len := x; head := head c; tail := tail c; cap := cap c;
     evict := evict c; data := data c; keys := keys c |}.
Definition set_head (x : nat) (c : Cache) : Cache :=
  {| len := len c; head := x; tail := tail c; cap := cap c;
     evict := evict c; data := data c; keys := keys c |}.
Definition set_tail (x : nat) (c : Cache) : Cache :=
  {| len := len c; head := head c; tail := x; cap := cap c;
     evict := evict c; data := data c; keys := keys c |}.
Definition set_data (d : list node) (c : Cache) : Cache :=
  {| len := len c; head := head c; tail := tail c; cap := cap c;
     evict := evict c; data := d; keys := keys c |}.
Definition set_keys (m : gomap) (c : Cache) : Cache :=
  {| len := len c; head := head c; tail := tail c; cap := cap c;
     evict := evict c; data := data c; keys := m |}.

(** ** Checked slice accesses *)

(** [d[i] = f(d[i])]: panics when [i] is out of range. *)
Definition modify (i : nat) (f : node → node) (d : list node)
  : option (list node) :=
  n ← d !! i; Some (<[i := f n]> d).

(** [d[i] = n]: panics when [i] is out of range. *)
Definition store (i : nat) (n : node) (d : list node)
  : option (list node) :=
  if decide (i < length d) then Some (<[i := n]> d) else None.

(** [d[:n]]: panics when [n] exceeds the slice. *)
Definition slice (n : nat) (d : list node) : option (list node) :=
  if decide (n ≤ length d) then Some (take n d) else None.

(** ** Operations *)

Definition New (cap : nat) (evict : option evict_func) : Cache :=
  {| len := 0; head := 0; tail := 0; cap := cap; evict := evict;
     data := replicate cap zero_node; keys := map_empty |}.

(** [promote] moves the node at index [i] to the front of the queue.
    [ptr] is a pointer into [c.data], so its fields are read again from
    the array after each write. *)
Definition promote (i : nat) (c : Cache) : option Cache :=
  ptr ← data c !! i;
  if decide (i = head c) then Some c
  else
    c1 ← (if decide (i = tail c) then Some (set_tail (last ptr) c)
          else
            d1 ← modify (last ptr) (set_next (next ptr)) (data c);
            ptr1 ← d1 !! i;
            d2 ← modify (next ptr1) (set_last (last ptr1)) d1;
            Some (set_data d2 c));
    d3 ← modify i (set_next (head c1)) (data c1);
    d4 ← modify (head c1) (set_last i) d3;
    Some (set_head i (set_data d4 c1)).

Definition Get (k : K) (c : Cache) : option (Cache * (V * bool)) :=
  match map_get k (keys c) with
  | Some i =>
      n ← data c !! i;
      c' ← promote i c;
      Some (c', (val n, true))
  | None => Some (c, (zero, false))
  end.

(** One invocation of the callback [f] on [(k, v)]. *)
Definition call_evict (f : evict_func) (k : K) (v : V) (w : World)
  : World * option (error E) :=
  let '(s, e) := f (env w) k v in
  ({| env := s; calls := calls w ++ [(k, v)] |}, e).

(** [if c.evict != nil { err = c.evict(k, v) }], with [err] nil before. *)
Definition notify (c : Cache) (k : K) (v : V) (w : World)
  : World * option (error E) :=
  match evict c with
  | Some f => call_evict f k v w
  | None => (w, None)
  end.

Definition Put (k : K) (v : V) (c : Cache) (w : World)
  : option (Cache * World * option (error E)) :=
  if decide (cap c = 0) then Some (c, w, None)
  else
    match map_get k (keys c) with
    | Some i =>
        d ← modify i (set_val v) (data c);
        c' ← promote i (set_data d c);
        Some (c', w, None)
    | None =>
        if decide (len c < cap c) then
          d1 ← store (len c)
                 {| next := head c; last := 0; key := k; val := v |}
                 (data c);
          d2 ← modify (head c) (set_last (len c)) d1;
          Some (set_len (S (len c))
                  (set_keys (map_set k (len c) (keys c))
                     (set_head (len c) (set_data d2 c))),
                w, None)
        else
          victim ← data c !! tail c;
          let '(w', err) := notify c (key victim) (val victim) w in
          let ks := map_set k (tail c) (map_delete (key victim) (keys c)) in
          d ← modify (tail c) (λ n, set_val v (set_key k n)) (data c);
          c' ← promote (tail c) (set_keys ks (set_data d c));
          Some (c', w', err)
    end.

(** The loop of [Clear]:
    [for _, n = range active { err = errors.Join(err, c.evict(n.key, n.val)) }]. *)
Fixpoint evict_all (f : evict_func) (active : list node) (w : World)
    (err : option (error E)) : World * option (error E) :=
  match active with
  | [] => (w, err)
  | n :: rest =>
      let '(w', e) := call_evict f (key n) (val n) w in
      evict_all f rest w' (Join [err; e])
  end.

(** [if c.evict != nil { for ... }], with [err] nil before. *)
Definition notify_all (c : Cache) (active : list node) (w : World)
  : World * option (error E) :=
  match evict c with
  | Some f => evict_all f active w None
  | None => (w, None)
  end.

(** [clear(c.data[:c.len])] zeroes the active slots in place. *)
Definition Clear (c : Cache) (w : World)
  : option (Cache * World * option (error E)) :=
  active ← slice (len c) (data c);
  let '(w', err) := notify_all c active w in
  let d := replicate (len c) zero_node ++ drop (len c) (data c) in
  Some (set_len 0 (set_keys map_empty (set_data d c)), w', err).

(** The loop shared by the three iterators:
    [for _, n = range active { if !yield(...) { return } }],
    with the consumer's state [A] made explicit. *)
Fixpoint range_yield {A : Type} (yield : A → node → A * bool)
    (active : list node) (a : A) : A :=
  match active with
  | [] => a
  | n :: rest =>
      let '(a', more) := yield a n in
      if more then range_yield yield rest a' else a'
  end.

(** The iterators read the cache when they are consumed: [c] is the
    state at that time. *)
Definition All {A : Type} (c : Cache) (yield : A → K → V → A * bool)
    (a : A) : option A :=
  active ← slice (len c) (data c);
  Some (range_yield (λ a n, yield a (key n) (val n)) active a).

Definition Keys {A : Type} (c : Cache) (yield : A → K → A * bool)
    (a : A) : option A :=
  active ← slice (len c) (data c);
  Some (range_yield (λ a n, yield a (key n)) active a).

Definition Values {A : Type} (c : Cache) (yield : A → V → A * bool)
    (a : A) : option A :=
  active ← slice (len c) (data c);
  Some (range_yield (λ a n, yield a (val n)) active a).

End cache.

Arguments node K V : clear implicits.
Arguments Cache K V E Env : clear implicits.
Arguments World K V Env : clear implicits.
Arguments evict_func K V E Env : clear implicits.

(** ** Sequences of public operations *)

Section run.
Context {K : Type} `{Comparable K} {V E Env : Type}.
Context `{Zero K} `{Zero V}.

(** A public call.  The consumer of an iterator is given by the
    function that decides, from the items received so far, whether the
    loop body runs to its end ([true]) or breaks ([false]). *)
Inductive op : Type :=
| OpGet (k : K)
| OpPut (k : K) (v : V)
| OpClear
| OpAll (more : list (K * V) → bool)
| OpKeys (more : list K → bool)
| OpValues (more : list V → bool).

(** What the caller observes of a call. *)
Inductive obs : Type :=
| ObsGet (v : V) (ok : bool)
| ObsPut (err : option (error E))
| ObsClear (err : option (error E))
| ObsAll (items : list (K * V))
| ObsKeys (items : list K)
| ObsValues (items : list V).

(** A consumer that records each item and asks [more] whether to go on. *)
Definition collect {A : Type} (more : list A → bool) (acc : list A)
    (x : A) : list A * bool :=
  (acc ++ [x], more (acc ++ [x])).

Definition state : Type := Cache K V E Env * World K V Env.

Definition step (o : op) (st : state) : option (state * obs) :=
  let '(c, w) := st in
  match o with
  | OpGet k =>
      '(c', (v, ok)) ← Get k c; Some ((c', w), ObsGet v ok)
  | OpPut k v =>
      '(c', w', err) ← Put k v c w; Some ((c', w'), ObsPut err)
  | OpClear =>
      '(c', w', err) ← Clear c w; Some ((c', w'), ObsClear err)
  | OpAll more =>
      items ← All c (λ acc k v, collect more acc (k, v)) [];
      Some ((c, w), ObsAll items)
  | OpKeys more =>
      items ← Keys c (collect more) []; Some ((c, w), ObsKeys items)
  | OpValues more =>
      items ← Values c (collect more) []; Some ((c, w), ObsValues items)
  end.

Fixpoint run (ops : list op) (st : state) : option (state * list obs) :=
  match ops with
  | [] => Some (st, [])
  | o :: rest =>
      '(st1, x) ← step o st;
      '(st2, xs) ← run rest st1;
      Some (st2, x :: xs)
  end.

(** What a call reports when nothing is cached and nothing happens. *)
Definition quiet (o : op) : obs :=
  match o with
  | OpGet _ => ObsGet zero false
  | OpPut _ _ => ObsPut None
  | OpClear => ObsClear None
  | OpAll _ => ObsAll []
  | OpKeys _ => ObsKeys []
  | OpValues _ => ObsValues []
  end.

(** The states a caller can reach from a constructed cache. *)
Definition reachable (st : state) : Prop :=
  ∃ cap ev w0 ops out, run ops (New cap ev, w0) = Some (st, out).

(** Every key that [ops] passes to Put equals itself. *)
Definition puts_equal_themselves (ops : list op) : bool :=
  forallb (λ o, match o with OpPut k _ => keq k k | _ => true end) ops.
End run.

Arguments op K V : clear implicits.
Arguments obs K V E : clear implicits.
Arguments state K V E Env : clear implicits.

(** ** Concrete caches: string keys, integer values *)

#[global] Instance zero_string : Zero string := EmptyString.
#[global] Instance zero_Z : Zero Z := 0%Z.
#[global] Instance string_comparable : Comparable string := plain_keys string.

(** [float64] keys, as far as [==] tells them apart: a NaN, or a number
    given by its sign and its magnitude (the other 63 bits).  A NaN
    equals nothing; the zeros [+0] and [-0] are equal. *)
Inductive float64 : Type :=
| NaN
| Float (negative : bool) (magnitude : N).

#[global] Instance zero_float64 : Zero float64 := Float false 0.
#[global] Instance float64_comparable : Comparable float64 := λ x,
  match x with
  | NaN => None
  | Float s m => Some (encode (s && negb (m =? 0)%N, m))
  end.

(** A callback that records its invocations in its own state and never
    fails, and one that records and always fails. *)
Definition recorder : evict_func string Z string (list (string * Z)) :=
  λ s k v, (s ++ [(k, v)], None).
Definition failing : evict_func string Z string (list (string * Z)) :=
  λ s k v, (s ++ [(k, v)], Some (Err k)).

(** The same for [float64] keys. *)
Definition float_recorder
  : evict_func float64 Z string (list (float64 * Z)) :=
  λ s k v, (s ++ [(k, v)], None).

Definition no_calls {K Env : Type} (s : Env) : World K Z Env :=
  {| env := s; calls := [] |}.

(** Run [before], then [ops]; report what [ops] returned and every
    callback invocation so far. *)
Definition then_run {K : Type} `{Comparable K} `{Zero K} {Env : Type}
    (before ops : list (op K Z)) (st : state K Z string Env)
  : option (list (obs K Z string) * list (K * Z)) :=
  '(st1, _) ← run before st;
  '(st2, out) ← run ops st1;
  Some (out, calls st2.2).

(** A full cache of capacity 1 holding [a], with the recording callback. *)
Definition full_one (cb : evict_func string Z string (list (string * Z)))
  : Cache string Z string (list (string * Z)) :=
  {| len := 1; head := 0; tail := 0; cap := 1; evict := Some cb;
     data := [ {| next := 0; last := 0; key := "a"; val := 1%Z |} ];
     keys := map_set "a" 0 map_empty |}.

(** A full cache of capacity 2 holding [a] then [b], without callback. *)
Definition full_two : Cache string Z string unit :=
  {| len := 2; head := 1; tail := 0; cap := 2; evict := None;
     data := [ {| next := 0; last := 1; key := "a"; val := 1%Z |};
               {| next := 0; last := 0; key := "b"; val := 2%Z |} ];
     keys := map_set "b" 1 (map_set "a" 0 map_empty) |}.

(** The same cache with the failing callback. *)
Definition full_two_failing : Cache string Z string (list (string * Z)) :=
  {| len := 2; head := 1; tail := 0; cap := 2; evict := Some failing;
     data := [ {| next := 0; last := 1; key := "a"; val := 1%Z |};
               {| next := 0; last := 0; key := "b"; val := 2%Z |} ];
     keys := map_set "b" 1 (map_set "a" 0 map_empty) |}.

(** ** The representation invariant *)

Section invariant.
Context {K : Type} `{Comparable K} {V E Env : Type}.
Context `{Zero K} `{Zero V}.
Implicit Types (c : Cache K V E Env) (d : list (node K V)) (n : node K V).

(** Both links of a slot are indices of an array of [m] slots. *)
Definition bounded (m : nat) n : Prop := next n < m ∧ last n < m.

(** Every index stored in the cache is an index of the slot array. *)
Record links_ok c : Prop := LinksOk {
  lk_data : length (data c) = cap c;
  lk_head : 0 < cap c → head c < cap c;
  lk_tail : 0 < cap c → tail c < cap c;
  lk_links : Forall (bounded (cap c)) (data c)
}.

(** The key index and the active slots [0 .. len) describe each other:
    what a lookup can find belongs to an active slot whose key has the
    identity looked up, and an active slot whose key has an identity is
    found under it. *)
Record index_ok c : Prop := IndexOk {
  ix_len : len c ≤ cap c;
  ix_keys : ∀ a i, found (keys c) !! a = Some i →
              i < len c ∧
              ∃ k, (key <$> data c) !! i = Some k ∧ ident_of k = Some a;
  ix_slots : ∀ i k a, i < len c → (key <$> data c) !! i = Some k →
              ident_of k = Some a → found (keys c) !! a = Some i
}.

(** The index holds nothing but the active slots: every key held equals
    itself, so no entry of the index is lost and it has [len] entries. *)
Record index_tight c : Prop := IndexTight {
  it_keys : ∀ i k, i < len c → (key <$> data c) !! i = Some k →
              keq k k = true;
  it_size : size (found (keys c)) = len c;
  it_lost : lost (keys c) = 0
}.

Definition wf c : Prop := links_ok c ∧ index_ok c.

(** [c'] holds the same entries as [c] under the same index: only the
    recency links and the cursors may differ. *)
Record same_entries c c' : Prop := SameEntries {
  se_len : len c' = len c;
  se_cap : cap c' = cap c;
  se_evict : evict c' = evict c;
  se_keys : keys c' = keys c;
  se_key : key <$> data c' = key <$> data c;
  se_val : val <$> data c' = val <$> data c
}.

(** The entry held by a slot, and the entries of the active slots in
    storage order. *)
Definition entry n : K * V := (key n, val n).
Definition entries c : list (K * V) := entry <$> take (len c) (data c).

(** What the callback answers when it is called on each slot of
    [active] in turn, starting in the caller's state [s]. *)
Fixpoint replies (f : evict_func K V E Env) (active : list (node K V))
    (s : Env) : list (option (error E)) :=
  match active with
  | [] => []
  | n :: rest => (f s (key n) (val n)).2 :: replies f rest (f s (key n) (val n)).1
  end.

(** A consumer steered by [more] takes [j] items of the sequence [l]:
    it breaks at the first item where [more] says so, and takes
    everything when [more] never does.  The loop body always runs on
    the first item. *)
Definition stops {A : Type} (more : list A → bool) (l : list A) (j : nat)
  : Prop :=
  j ≤ length l ∧ (l ≠ [] → 0 < j) ∧
  (j < length l → more (take j l) = false) ∧
  ∀ i, 0 < i < j → more (take i l) = true.

(** An update of a slot that leaves its entry alone. *)
Definition link_update (f : node K V → node K V) : Prop :=
  ∀ n, key (f n) = key n ∧ val (f n) = val n.
End invariant.

(** ** The recency list, and the cache as a list of entries *)

Section recency.
Context {K : Type} `{Comparable K} {V E Env : Type}.
Context `{Zero K} `{Zero V}.
Implicit Types (c : Cache K V E Env) (w : World K V Env).

(** [order] is a chain of the links: [N] holds the [next] field and [L]
    the [last] field of every slot; the [next] of each slot of [order] is
    the slot after it, the [last] of each slot is the slot before it. *)
Fixpoint linked (N L : list nat) (order : list nat) : Prop :=
  match order with
  | [] => True
  | a :: rest =>
      match rest with
      | [] => True
      | b :: _ => N !! a = Some b ∧ L !! b = Some a
      end ∧ linked N L rest
  end.

(** [order] lists the active slots of [c] from the most to the least
    recently used: it holds each of the slots [0 .. len) once, it is a
    chain of the links, it starts at [head] and ends at [tail].  While
    the cache is empty, [tail] is 0. *)
Record recency c (order : list nat) : Prop := Recency {
  rc_perm : order ≡ₚ seq 0 (len c);
  rc_linked : linked (next <$> data c) (last <$> data c) order;
  rc_head : ∀ h, hd_error order = Some h → h = head c;
  rc_tail : default 0 (list.last order) = tail c
}.

(** *** A least-recently-used cache as a list, most recent entry first *)

(** The entry cached for [k] - the first one whose key equals [k], with
    the key and the value it holds - and the list without that entry. *)
Fixpoint extract (k : K) (l : list (K * V))
  : option ((K * V) * list (K * V)) :=
  match l with
  | [] => None
  | (k', v') :: rest =>
      if keq k' k then Some ((k', v'), rest)
      else '(e, rest') ← extract k rest; Some (e, (k', v') :: rest')
  end.

(** A hit moves the entry to the front. *)
Definition model_get (k : K) (l : list (K * V))
  : list (K * V) * (V * bool) :=
  match extract k l with
  | Some ((k', v), rest) => ((k', v) :: rest, (v, true))
  | None => (l, (zero, false))
  end.

(** A cached key gets the new value, under the key it was stored with,
    and moves to the front; a new key goes to the front, and when [m]
    entries are held already the entry at the back is dropped and shown
    to the callback. *)
Definition model_put (m : nat) (ev : option (evict_func K V E Env))
    (k : K) (v : V) (l : list (K * V)) w
  : list (K * V) * World K V Env * option (error E) :=
  if decide (m = 0) then (l, w, None)
  else
    match extract k l with
    | Some ((k', _), rest) => ((k', v) :: rest, w, None)
    | None =>
        if decide (length l < m) then ((k, v) :: l, w, None)
        else
          let '(w', err) :=
            match ev, list.last l with
            | Some f, Some (vk, vv) => call_evict f vk vv w
            | _, _ => (w, None)
            end in
          ((k, v) :: take (length l - 1) l, w', err)
    end.

(** The calls that look an entry up or store one. *)
Inductive access : Type :=
| AGet (k : K)
| APut (k : K) (v : V).

Definition op_of (a : access) : op K V :=
  match a with
  | AGet k => OpGet k
  | APut k v => OpPut k v
  end.

Definition model_step (m : nat) (ev : option (evict_func K V E Env))
    (a : access) (st : list (K * V) * World K V Env)
  : (list (K * V) * World K V Env) * obs K V E :=
  let '(l, w) := st in
  match a with
  | AGet k =>
      let '(l', (v, ok)) := model_get k l in ((l', w), ObsGet v ok)
  | APut k v =>
      let '(l', w', err) := model_put m ev k v l w in ((l', w'), ObsPut err)
  end.

Fixpoint model_run (m : nat) (ev : option (evict_func K V E Env))
    (acc : list access) (st : list (K * V) * World K V Env)
  : (list (K * V) * World K V Env) * list (obs K V E) :=
  match acc with
  | [] => (st, [])
  | a :: rest =>
      let '(st1, x) := model_step m ev a st in
      let '(st2, xs) := model_run m ev rest st1 in
      (st2, x :: xs)
  end.

(** The entries found by reading the slots of [order] one after the
    other. *)
Definition read c (order : list nat) : list (option (K * V)) :=
  (λ i, (entry <$> data c) !! i) <$> order.

(** The cache [c] holds the entries of [l], and its recency list orders
    them as [l] does. *)
Definition refines c (l : list (K * V)) : Prop :=
  wf c ∧ ∃ order, recency c order ∧ read c order = Some <$> l.
End recency.

Arguments access K V : clear implicits.

(** * The linear-scan cache

    The earlier cache of the repository (the later of its two revisions):
    three parallel arrays [keys], [vals] and [seen], a use counter
    [count] stamped into [seen] at every access, a linear search for the
    key and, on overflow, for the entry with the smallest stamp.  [count]
    and the stamps are [uint64]: [count++] wraps at [2^64].  [len] is a
    [uint64] too, incremented only while it is below [len(keys)], so it is
    a [nat] here.  Keys are compared with [==], as in [lru.go].  [make]
    and [append] panic when a slice would be longer than the largest
    [int]; running out of memory is not part of the embedding. *)

Module linear.

Definition MaxUint64 : Z := 2 ^ 64 - 1.

(** The largest [int] (of 64 bits), and so the largest length of a
    slice. *)
Definition MaxInt : Z := 2 ^ 63 - 1.

(** [uint64] arithmetic wraps. *)
Definition u64 (z : Z) : Z := z mod 2 ^ 64.

(** [l[i] = x]: panics when [i] is out of range. *)
Definition write {A : Type} (i : nat) (x : A) (l : list A)
  : option (list A) :=
  if decide (i < length l) then Some (<[i := x]> l) else None.

Section cache.
Context {K : Type} `{Comparable K} {V E Env : Type}.
Context `{Zero K} `{Zero V}.

Record Cache : Type := MkCache {
  keys : list K;
  vals : list V;
  seen : list Z;
  len : nat;
  count : Z;
  evict : option (evict_func K V E Env)
}.

Definition set_keys (x : list K) (c : Cache) : Cache :=
  {| keys := x; vals := vals c; seen := seen c; len := len c;
     count := count c; evict := evict c |}.
Definition set_vals (x : list V) (c : Cache) : Cache :=
  {| keys := keys c; vals := x; seen := seen c; len := len c;
     count := count c; evict := evict c |}.
Definition set_seen (x : list Z) (c : Cache) : Cache :=
  {| keys := keys c; vals := vals c; seen := x; len := len c;
     count := count c; evict := evict c |}.
Definition set_len (x : nat) (c : Cache) : Cache :=
  {| keys := keys c; vals := vals c; seen := seen c; len := x;
     count := count c; evict := evict c |}.

(** [c.count++] *)
Definition tick (c : Cache) : Cache :=
  {| keys := keys c; vals := vals c; seen := seen c; len := len c;
     count := u64 (count c + 1); evict := evict c |}.

Definition New (size : nat) (evict : option (evict_func K V E Env)) : Cache :=
  {| keys := replicate size zero; vals := replicate size zero;
     seen := replicate size 0%Z; len := 0; count := 0%Z; evict := evict |}.

(** The loop of [Get], at index [i] with [n] iterations to go:
    [for ; i < l; i++ { if c.keys[i] == key { ... return } }]. *)
Fixpoint get_loop (n i : nat) (key : K) (c : Cache)
  : option (Cache * (V * bool)) :=
  match n with
  | 0 => Some (c, (zero, false))
  | S n' =>
      k ← keys c !! i;
      if keq k key then
        s ← write i (count c) (seen c);
        v ← vals c !! i;
        Some (set_seen s c, (v, true))
      else get_loop n' (S i) key c
  end.

Definition Get (key : K) (c : Cache) : option (Cache * (V * bool)) :=
  let c := tick c in
  get_loop (len c) 0 key c.

(** [for ; i < l && c.keys[i] != key; i++ {}]: the index it stops at. *)
Fixpoint find_loop (n i : nat) (key : K) (ks : list K) : option nat :=
  match n with
  | 0 => Some i
  | S n' =>
      k ← ks !! i;
      if negb (keq k key) then find_loop n' (S i) key ks else Some i
  end.

(** The loop of [Put] on a full cache, at index [i] with [cnt] iterations
    to go; [n] and [min] are the index and the stamp of the oldest entry
    seen so far.  It returns the updated cache when it finds the key, and
    the index of the oldest entry when it does not. *)
Fixpoint full_loop (cnt i n : nat) (min : Z) (key : K) (val : V) (c : Cache)
  : option (Cache + nat) :=
  match cnt with
  | 0 => Some (inr n)
  | S cnt' =>
      s ← seen c !! i;
      let '(n1, min1) := if bool_decide (s < min)%Z then (i, s) else (n, min) in
      k ← keys c !! i;
      if keq key k then
        vs ← write i val (vals c);
        ss ← write i (count c) (seen c);
        Some (inl (set_seen ss (set_vals vs c)))
      else full_loop cnt' (S i) n1 min1 key val c
  end.

Definition Put (key : K) (val : V) (c : Cache) (w : World K V Env)
  : option (Cache * World K V Env * option (error E)) :=
  let c := tick c in
  if decide (length (keys c) = 0) then Some (c, w, None)
  else if decide (len c < length (keys c)) then
    i ← find_loop (len c) 0 key (keys c);
    vs ← write i val (vals c);
    ss ← write i (count c) (seen c);
    let c1 := set_seen ss (set_vals vs c) in
    if decide (i = len c) then
      ks ← write i key (keys c1);
      Some (set_len (S (len c1)) (set_keys ks c1), w, None)
    else Some (c1, w, None)
  else
    r ← full_loop (len c) 0 0 MaxUint64 key val c;
    match r with
    | inl c' => Some (c', w, None)
    | inr n =>
        '(w', err) ←
          match evict c with
          | Some f =>
              k ← keys c !! n; v ← vals c !! n; Some (call_evict f k v w)
          | None => Some (w, None)
          end;
        ks ← write n key (keys c);
        vs ← write n val (vals c);
        ss ← write n (count c) (seen c);
        Some (set_seen ss (set_vals vs (set_keys ks c)), w', err)
    end.

(** [Grow] appends [more] zero entries to each array.  [make] panics
    when [more] is beyond the largest [int], and [append] when the
    length it arrives at is. *)
Definition Grow (more : nat) (c : Cache) : option Cache :=
  if decide (Z.of_nat (length (keys c) + more) ≤ MaxInt)%Z then
    Some {| keys := keys c ++ replicate more zero;
            vals := vals c ++ replicate more zero;
            seen := seen c ++ replicate more 0%Z;
            len := len c; count := count c; evict := evict c |}
  else None.

(** The loop of [Clear]. *)
Fixpoint clear_loop (n i : nat) (f : evict_func K V E Env) (c : Cache)
    (w : World K V Env) (err : option (error E))
  : option (World K V Env * option (error E)) :=
  match n with
  | 0 => Some (w, err)
  | S n' =>
      k ← keys c !! i;
      v ← vals c !! i;
      let '(w', e) := call_evict f k v w in
      clear_loop n' (S i) f c w' (Join [err; e])
  end.

Definition Clear (c : Cache) (w : World K V Env)
  : option (Cache * World K V Env * option (error E)) :=
  '(w', err) ←
    match evict c with
    | Some f => clear_loop (len c) 0 f c w None
    | None => Some (w, None)
    end;
  Some ({| keys := replicate (length (keys c)) zero;
           vals := replicate (length (vals c)) zero;
           seen := replicate (length (seen c)) 0%Z;
           len := 0; count := 0%Z; evict := evict c |}, w', err).

(** The loops of [All] and [Keys], with the consumer's state [A]. *)
Fixpoint all_loop {A : Type} (n i : nat) (yield : A → K → V → A * bool)
    (c : Cache) (a : A) : option A :=
  match n with
  | 0 => Some a
  | S n' =>
      k ← keys c !! i;
      v ← vals c !! i;
      let '(a', more) := yield a k v in
      if more then all_loop n' (S i) yield c a' else Some a'
  end.

Definition All {A : Type} (c : Cache) (yield : A → K → V → A * bool)
    (a : A) : option A :=
  all_loop (len c) 0 yield c a.

Fixpoint keys_loop {A : Type} (n i : nat) (yield : A → K → A * bool)
    (c : Cache) (a : A) : option A :=
  match n with
  | 0 => Some a
  | S n' =>
      k ← keys c !! i;
      let '(a', more) := yield a k in
      if more then keys_loop n' (S i) yield c a' else Some a'
  end.

Definition Keys {A : Type} (c : Cache) (yield : A → K → A * bool)
    (a : A) : option A :=
  keys_loop (len c) 0 yield c a.

(** A public call, what it shows, and runs of calls. *)
Inductive op : Type :=
| OpGet (k : K)
| OpPut (k : K) (v : V)
| OpGrow (more : nat)
| OpClear
| OpAll (more : list (K * V) → bool)
| OpKeys (more : list K → bool).

Inductive obs : Type :=
| ObsGet (v : V) (ok : bool)
| ObsPut (err : option (error E))
| ObsGrow
| ObsClear (err : option (error E))
| ObsAll (items : list (K * V))
| ObsKeys (items : list K).

Definition step (o : op) (st : Cache * World K V Env)
  : option ((Cache * World K V Env) * obs) :=
  let '(c, w) := st in
  match o with
  | OpGet k => '(c', (v, ok)) ← Get k c; Some ((c', w), ObsGet v ok)
  | OpPut k v => '(c', w', err) ← Put k v c w; Some ((c', w'), ObsPut err)
  | OpGrow more => c' ← Grow more c; Some ((c', w), ObsGrow)
  | OpClear => '(c', w', err) ← Clear c w; Some ((c', w'), ObsClear err)
  | OpAll more =>
      items ← All c (λ acc k v, collect more acc (k, v)) [];
      Some ((c, w), ObsAll items)
  | OpKeys more =>
      items ← Keys c (collect more) []; Some ((c, w), ObsKeys items)
  end.

Fixpoint run (ops : list op) (st : Cache * World K V Env)
  : option ((Cache * World K V Env) * list obs) :=
  match ops with
  | [] => Some (st, [])
  | o :: rest =>
      '(st1, x) ← step o st;
      '(st2, xs) ← run rest st1;
      Some (st2, x :: xs)
  end.

Definition reachable (st : Cache * World K V Env) : Prop :=
  ∃ size ev w0 ops out, run ops (New size ev, w0) = Some (st, out).

(** On arrays of length [n], every Grow of [ops] stays within the
    largest [int]. *)
Fixpoint fits (ops : list op) (n : nat) : Prop :=
  match ops with
  | [] => True
  | OpGrow more :: rest =>
      (Z.of_nat (n + more) ≤ MaxInt)%Z ∧ fits rest (n + more)
  | _ :: rest => fits rest n
  end.

(** The arrays have one length and [len] is within it. *)
Record shape (c : Cache) : Prop := Shape {
  sh_vals : length (vals c) = length (keys c);
  sh_seen : length (seen c) = length (keys c);
  sh_len : len c ≤ length (keys c)
}.

(** The entries in storage order. *)
Definition entries (c : Cache) : list (K * V) :=
  zip (take (len c) (keys c)) (take (len c) (vals c)).

(** Slot [j] of [ks] holds a key equal to [key]. *)
Definition holds (ks : list K) (j : nat) (key : K) : Prop :=
  ∃ kj, ks !! j = Some kj ∧ keq kj key = true.

(** No two active slots hold equal keys. *)
Definition distinct (c : Cache) : Prop :=
  ∀ i j ki kj, i < len c → j < len c →
    keys c !! i = Some ki → keys c !! j = Some kj →
    keq ki kj = true → i = j.

(** The invariant of the cache: the shape of the arrays, stamps and
    counter within [uint64], and no two equal keys among the active
    entries. *)
Record inv (c : Cache) : Prop := Inv {
  inv_shape : shape c;
  inv_seen : Forall (λ s, (0 ≤ s ≤ MaxUint64)%Z) (seen c);
  inv_count : (0 ≤ count c ≤ MaxUint64)%Z;
  inv_keys : distinct c
}.
End cache.

Arguments Cache K V E Env : clear implicits.
Arguments op K V : clear implicits.
Arguments obs K V E : clear implicits.

(** ** The linear-scan cache as a list of entries *)

Section ranking.
Context {K : Type} `{Comparable K} {V E Env : Type}.
Context `{Zero K} `{Zero V}.
Implicit Types (c : Cache K V E Env).

(** The stamp of slot [j]. *)
Definition stamp c (j : nat) : Z := default 0%Z (seen c !! j).

(** Along [order] the stamps go down: every slot was used after all the
    slots behind it. *)
Fixpoint newest_first c (order : list nat) : Prop :=
  match order with
  | [] => True
  | a :: rest =>
      Forall (λ b, (stamp c b < stamp c a)%Z) rest ∧ newest_first c rest
  end.

Definition slot_entry c (j : nat) : option (K * V) :=
  k ← keys c !! j; v ← vals c !! j; Some (k, v).

(** The cache [c] holds the entries of [l], and the stamps order them as
    [l] does, the most recently used first; no stamp is ahead of the
    counter. *)
Record ranked c (l : list (K * V)) : Prop := Ranked {
  rk_inv : inv c;
  rk_order : ∃ order,
      order ≡ₚ seq 0 (len c) ∧ newest_first c order ∧
      slot_entry c <$> order = Some <$> l;
  rk_stamps : ∀ j, j < len c → (stamp c j ≤ count c)%Z
}.

(** The calls that look an entry up, store one, or add capacity. *)
Inductive access : Type :=
| AGet (k : K)
| APut (k : K) (v : V)
| AGrow (more : nat).

Definition op_of (a : access) : op K V :=
  match a with
  | AGet k => OpGet k
  | APut k v => OpPut k v
  | AGrow more => OpGrow more
  end.

(** The list model of the recency order, with a capacity [m] that [Grow]
    raises. *)
Definition model_step (ev : option (evict_func K V E Env)) (a : access)
    (st : nat * list (K * V) * World K V Env)
  : (nat * list (K * V) * World K V Env) * obs K V E :=
  let '(m, l, w) := st in
  match a with
  | AGet k =>
      let '(l', (v, ok)) := model_get k l in ((m, l', w), ObsGet v ok)
  | APut k v =>
      let '(l', w', err) := model_put m ev k v l w in
      ((m, l', w'), ObsPut err)
  | AGrow more => ((m + more, l, w), ObsGrow)
  end.

Fixpoint model_run (ev : option (evict_func K V E Env)) (acc : list access)
    (st : nat * list (K * V) * World K V Env)
  : (nat * list (K * V) * World K V Env) * list (obs K V E) :=
  match acc with
  | [] => (st, [])
  | a :: rest =>
      let '(st1, x) := model_step ev a st in
      let '(st2, xs) := model_run ev rest st1 in
      (st2, x :: xs)
  end.
End ranking.

Arguments access K V : clear implicits.

(** A full linear-scan cache of capacity 2 holding [a] then [b], with the
    recording callback. *)
Definition full_pair : Cache string Z string (list (string * Z)) :=
  {| keys := ["a"; "b"]; vals := [1%Z; 2%Z]; seen := [1%Z; 2%Z];
     len := 2; count := 2%Z; evict := Some recorder |}.

End linear.

(** * Proofs *)

(** Split a goal along its conjunctions only, leaving records whole. *)
Ltac conjs :=
  unfold wf; repeat match goal with |- _ ∧ _ => split end.

(** ** Key equality and the built-in map *)

Section comparable_facts.
Context {K : Type} `{Comparable K}.
Implicit Types (k : K) (m : gomap).

Lemma keq_true k1 k2 :
  keq k1 k2 = true ↔ ∃ a, ident_of k1 = Some a ∧ ident_of k2 = Some a.
Proof.
  unfold keq. destruct (ident_of k1) as [a|], (ident_of k2) as [b|].
  - rewrite bool_decide_eq_true. split.
    + intros ->. eauto.
    + intros (a' & ? & ?). congruence.
  - split; [done|]. by intros (a' & _ & ?).
  - split; [done|]. by intros (a' & ? & _).
  - split; [done|]. by intros (a' & ? & _).
Qed.

Lemma keq_sym k1 k2 : keq k1 k2 = keq k2 k1.
Proof.
  unfold keq. destruct (ident_of k1) as [a|], (ident_of k2) as [b|];
    try done.
  apply bool_decide_ext. naive_solver.
Qed.

Lemma keq_trans k1 k2 k3 :
  keq k1 k2 = true → keq k2 k3 = true → keq k1 k3 = true.
Proof.
  rewrite !keq_true. intros (a & ? & ?) (b & ? & ?).
  exists a. split; congruence.
Qed.

Lemma keq_refl_l k1 k2 : keq k1 k2 = true → keq k1 k1 = true.
Proof. rewrite !keq_true. intros (a & ? & ?). eauto. Qed.

Lemma keq_refl_r k1 k2 : keq k1 k2 = true → keq k2 k2 = true.
Proof. rewrite !keq_true. intros (a & ? & ?). eauto. Qed.

Lemma keq_refl_ident k : keq k k = true ↔ is_Some (ident_of k).
Proof.
  rewrite keq_true. split.
  - intros (a & ? & _). eauto.
  - intros [a ?]. eauto.
Qed.

(** Equal keys compare alike with every key. *)
Lemma keq_congr k1 k2 k3 : keq k1 k2 = true → keq k1 k3 = keq k2 k3.
Proof.
  intros H12. destruct (keq k2 k3) eqn:H23.
  - by eapply keq_trans.
  - destruct (keq k1 k3) eqn:H13; [|done].
    rewrite <- H23. symmetry. eapply keq_trans; [|exact H13].
    by rewrite keq_sym.
Qed.

Lemma keq_false_ident k1 k2 a :
  keq k1 k2 = false → ident_of k1 = Some a → ident_of k2 ≠ Some a.
Proof.
  intros Hne H1 H2. assert (keq k1 k2 = true); [|congruence].
  apply keq_true. eauto.
Qed.

Lemma map_get_empty k : map_get k map_empty = None.
Proof. unfold map_get. by destruct (ident_of k). Qed.

Lemma map_get_keq k1 k2 m : keq k1 k2 = true → map_get k1 m = map_get k2 m.
Proof.
  rewrite keq_true. intros (a & H1 & H2). unfold map_get.
  by rewrite H1, H2.
Qed.

Lemma map_get_refl k m i : map_get k m = Some i → keq k k = true.
Proof.
  unfold map_get. intros Hg. apply keq_refl_ident.
  destruct (ident_of k); [by eexists|done].
Qed.

Lemma map_get_found k m i :
  map_get k m = Some i ↔ ∃ a, ident_of k = Some a ∧ found m !! a = Some i.
Proof.
  unfold map_get. destruct (ident_of k) as [a|]; simpl.
  - split; [eauto|]. by intros (a' & [= <-] & ?).
  - split; [done|]. by intros (a' & ? & _).
Qed.

Lemma map_get_None k m :
  map_get k m = None ↔ ∀ a, ident_of k = Some a → found m !! a = None.
Proof.
  unfold map_get. destruct (ident_of k) as [a|]; simpl.
  - split; [by intros ? a' [= <-]|]. intros Hn. by apply Hn.
  - split; [done|done].
Qed.

Lemma map_get_set_eq k1 k2 i m :
  keq k1 k2 = true → map_get k2 (map_set k1 i m) = Some i.
Proof.
  rewrite keq_true. intros (a & H1 & H2). unfold map_get, map_set.
  rewrite H1, H2. simpl. apply lookup_insert_eq.
Qed.

Lemma map_get_set_ne k1 k2 i m :
  keq k1 k2 = false → map_get k2 (map_set k1 i m) = map_get k2 m.
Proof.
  intros Hne. unfold map_get, map_set.
  destruct (ident_of k1) as [a|] eqn:H1; [|done].
  destruct (ident_of k2) as [b|] eqn:H2; [|done]. simpl.
  apply lookup_insert_ne. intros ->.
  by eapply keq_false_ident.
Qed.

Lemma map_get_delete_eq k1 k2 m :
  keq k1 k2 = true → map_get k2 (map_delete k1 m) = None.
Proof.
  rewrite keq_true. intros (a & H1 & H2). unfold map_get, map_delete.
  rewrite H1, H2. simpl. apply lookup_delete_eq.
Qed.

Lemma map_get_delete_ne k1 k2 m :
  keq k1 k2 = false → map_get k2 (map_delete k1 m) = map_get k2 m.
Proof.
  intros Hne. unfold map_get, map_delete.
  destruct (ident_of k1) as [a|] eqn:H1; [|done].
  destruct (ident_of k2) as [b|] eqn:H2; [|done]. simpl.
  apply lookup_delete_ne. intros ->.
  by eapply keq_false_ident.
Qed.

Lemma map_get_delete_self k m : map_get k (map_delete k m) = None.
Proof.
  destruct (keq k k) eqn:Hk; [by apply map_get_delete_eq|].
  rewrite map_get_delete_ne by done.
  destruct (map_get k m) as [i|] eqn:Hg; [|done].
  apply map_get_refl in Hg. congruence.
Qed.
End comparable_facts.

(** On a key type with plain equality, [==] is the identity. *)
Lemma plain_keq {K : Type} `{Countable K} (k1 k2 : K) :
  keq (H := plain_keys K) k1 k2 = bool_decide (k1 = k2).
Proof.
  unfold keq, ident_of, plain_keys. apply bool_decide_ext.
  split; [apply (inj encode)|by intros ->].
Qed.

Section facts.
Context {K : Type} `{Comparable K} {V E Env : Type}.
Context `{Zero K} `{Zero V}.
Implicit Types (k : K).
Implicit Types (c : Cache K V E Env) (d : list (node K V)) (n : node K V).
Implicit Types (w : World K V Env) (cb : evict_func K V E Env).

Lemma set_next_link x : link_update (K:=K) (V:=V) (set_next x).
Proof. by intros []. Qed.

Lemma set_last_link x : link_update (K:=K) (V:=V) (set_last x).
Proof. by intros []. Qed.

Lemma set_next_bounded m x n : x < m → bounded m n → bounded m (set_next x n).
Proof. intros ? [? ?]. by split. Qed.

Lemma set_last_bounded m x n : x < m → bounded m n → bounded m (set_last x n).
Proof. intros ? [? ?]. by split. Qed.

Lemma set_val_bounded m v n : bounded m n → bounded m (set_val v n).
Proof. by intros [? ?]. Qed.

Lemma zero_node_bounded m : 0 < m → bounded m (zero_node (K:=K) (V:=V)).
Proof. intros ?. by split. Qed.

(** A write inside the array succeeds and keeps its length. *)
Lemma modify_inside i f d :
  i < length d →
  ∃ n, d !! i = Some n ∧ modify i f d = Some (<[i := f n]> d).
Proof.
  intros Hi. destruct (lookup_lt_is_Some_2 d i Hi) as [n Hn].
  exists n. split; [done|]. unfold modify. by rewrite Hn.
Qed.

Lemma fmap_insert_same {B} (g : node K V → B) i n n' d :
  d !! i = Some n → g n' = g n → g <$> <[i := n']> d = g <$> d.
Proof.
  intros Hn Hg. rewrite list_fmap_insert, Hg.
  apply list_insert_id. by rewrite list_lookup_fmap, Hn.
Qed.

(** A link update at a valid index: the entries stay, the links stay
    bounded. *)
Lemma modify_link m i f d :
  link_update f →
  (∀ n, bounded m n → bounded m (f n)) →
  i < length d →
  Forall (bounded m) d →
  ∃ d', modify i f d = Some d' ∧ length d' = length d ∧
        Forall (bounded m) d' ∧
        key <$> d' = key <$> d ∧ val <$> d' = val <$> d.
Proof.
  intros Hf Hb Hi Hd.
  destruct (modify_inside i f d Hi) as (n & Hn & ->).
  exists (<[i := f n]> d). split; [done|].
  destruct (Hf n) as [Hk Hv].
  split; [by rewrite length_insert|].
  split.
  - apply Forall_insert; [done|]. apply Hb.
    by eapply (Forall_lookup_1 _ d i).
  - split; by eapply fmap_insert_same.
Qed.

Lemma same_entries_refl c : same_entries c c.
Proof. by constructor. Qed.

Lemma same_entries_trans c1 c2 c3 :
  same_entries c1 c2 → same_entries c2 c3 → same_entries c1 c3.
Proof. intros [] []. constructor; congruence. Qed.

(** The last three statements of [promote]: link slot [i] in front of
    the current head. *)
Lemma relink_ok i c :
  links_ok c → i < cap c →
  ∃ d3 d4,
    modify i (set_next (head c)) (data c) = Some d3 ∧
    modify (head c) (set_last i) d3 = Some d4 ∧
    links_ok (set_head i (set_data d4 c)) ∧
    same_entries c (set_head i (set_data d4 c)).
Proof.
  intros [Hd Hh Ht Hl] Hi.
  assert (head c < cap c) as Hhd by (apply Hh; lia).
  destruct (modify_link (cap c) i (set_next (head c)) (data c))
    as (d3 & E3 & L3 & B3 & K3 & V3);
    [apply set_next_link | intros; by apply set_next_bounded | lia | done |].
  destruct (modify_link (cap c) (head c) (set_last i) d3)
    as (d4 & E4 & L4 & B4 & K4 & V4);
    [apply set_last_link | intros; by apply set_last_bounded | lia | done |].
  exists d3, d4. repeat split; simpl; try done; try congruence.
Qed.

(** [promote] at a valid index never panics; it moves [head] to [i] and
    touches nothing but links and cursors. *)
Lemma promote_ok i c :
  links_ok c → i < cap c →
  ∃ c', promote i c = Some c' ∧ links_ok c' ∧ same_entries c c' ∧
        head c' = i.
Proof.
  intros Hc Hi. pose proof Hc as [Hd Hh Ht Hl].
  unfold promote.
  destruct (lookup_lt_is_Some_2 (data c) i) as [ptr Hptr]; [lia|].
  rewrite Hptr; simpl.
  destruct (Forall_lookup_1 _ _ _ _ Hl Hptr) as [Hpn Hpl].
  destruct (decide (i = head c)) as [->|Hne].
  { exists c. auto using same_entries_refl. }
  destruct (decide (i = tail c)) as [Hit|Hnt]; simpl.
  - set (c1 := set_tail (last ptr) c).
    assert (links_ok c1) as Hc1 by (by constructor).
    destruct (relink_ok i c1 Hc1 Hi) as (d3 & d4 & E3 & E4 & Hok & Hse).
    subst c1. simpl in E3, E4. rewrite E3. simpl. rewrite E4. simpl.
    eexists. split; [done|].
    split; [done|]. split; [|done].
    eapply same_entries_trans; [|exact Hse]. by constructor.
  - destruct (modify_link (cap c) (last ptr) (set_next (next ptr)) (data c))
      as (d1 & -> & L1 & B1 & K1 & V1);
      [apply set_next_link | intros; by apply set_next_bounded
      | lia | done |].
    simpl.
    destruct (lookup_lt_is_Some_2 d1 i) as [ptr1 Hptr1]; [lia|].
    rewrite Hptr1; simpl.
    destruct (Forall_lookup_1 _ _ _ _ B1 Hptr1) as [Hpn1 Hpl1].
    destruct (modify_link (cap c) (next ptr1) (set_last (last ptr1)) d1)
      as (d2 & -> & L2 & B2 & K2 & V2);
      [apply set_last_link | intros; by apply set_last_bounded
      | lia | done |].
    simpl. set (c1 := set_data d2 c).
    assert (links_ok c1) as Hc1 by (constructor; simpl; auto; congruence).
    destruct (relink_ok i c1 Hc1 Hi) as (d3 & d4 & E3 & E4 & Hok & Hse).
    subst c1. simpl in E3, E4. rewrite E3. simpl. rewrite E4. simpl.
    eexists. split; [done|].
    split; [done|]. split; [|done].
    eapply same_entries_trans; [|exact Hse].
    constructor; simpl; congruence.
Qed.

(** The index invariant only looks at the entries. *)
Lemma index_ok_same c c' : same_entries c c' → index_ok c → index_ok c'.
Proof.
  intros [Hl Hc He Hk Hkey Hval] [? ? ?].
  constructor; rewrite ?Hl, ?Hc, ?Hk, ?Hkey; auto.
Qed.

Lemma index_tight_same c c' :
  same_entries c c' → index_tight c → index_tight c'.
Proof.
  intros [Hl Hc He Hk Hkey Hval] [? ? ?].
  constructor; rewrite ?Hl, ?Hc, ?Hk, ?Hkey; auto.
Qed.

(** What the index holds after [m[k] = i] and after [delete(m, k)]. *)
Lemma found_set (k : K) i (m : gomap) a :
  found (map_set k i m) !! a =
  if decide (ident_of k = Some a) then Some i else found m !! a.
Proof.
  unfold map_set. destruct (ident_of k) as [b|]; simpl.
  - rewrite lookup_insert. repeat case_decide; congruence.
  - done.
Qed.

Lemma found_delete (k : K) (m : gomap) a :
  found (map_delete k m) !! a =
  if decide (ident_of k = Some a) then None else found m !! a.
Proof.
  unfold map_delete. destruct (ident_of k) as [b|]; simpl.
  - rewrite lookup_delete. repeat case_decide; congruence.
  - done.
Qed.

Lemma wf_keys_lt c k i : wf c → map_get k (keys c) = Some i → i < cap c.
Proof.
  intros [_ Hix] Hk. apply map_get_found in Hk as (a & Ha & Hf).
  destruct (ix_keys c Hix a i Hf). pose proof (ix_len c Hix). lia.
Qed.

(** The slot a lookup of [k] finds holds a key equal to [k]. *)
Lemma wf_slot c k i :
  wf c → map_get k (keys c) = Some i →
  ∃ n, i < len c ∧ data c !! i = Some n ∧ keq (key n) k = true.
Proof.
  intros [_ Hix] Hk. apply map_get_found in Hk as (a & Ha & Hf).
  destruct (ix_keys c Hix a i Hf) as [Hi (k' & Hs & Hk')].
  rewrite list_lookup_fmap in Hs.
  destruct (data c !! i) as [n|]; [|done]. exists n.
  split; [done|]. split; [done|].
  injection Hs as ->. apply keq_true. eauto.
Qed.

(** An active slot whose key equals [k] is the slot a lookup of [k]
    finds. *)
Lemma wf_found c k i n :
  wf c → i < len c → data c !! i = Some n → keq (key n) k = true →
  map_get k (keys c) = Some i.
Proof.
  intros [_ Hix] Hi Hn Hk. apply keq_true in Hk as (a & Ha & Hka).
  apply map_get_found. exists a. split; [done|].
  apply (ix_slots c Hix i (key n)); try done.
  by rewrite list_lookup_fmap, Hn.
Qed.

(** ** [Get] *)

Lemma Get_miss k c :
  map_get k (keys c) = None → Get k c = Some (c, (zero, false)).
Proof. intros Hk. unfold Get. by rewrite Hk. Qed.

Lemma Get_hit k i c :
  wf c → map_get k (keys c) = Some i →
  ∃ n c', data c !! i = Some n ∧ keq (key n) k = true ∧
          Get k c = Some (c', (val n, true)) ∧
          wf c' ∧ same_entries c c' ∧ head c' = i.
Proof.
  intros Hwf Hk. pose proof Hwf as [Hlk Hix].
  destruct (wf_slot c k i Hwf Hk) as (n & _ & Hn & Hkn).
  destruct (promote_ok i c Hlk (wf_keys_lt c k i Hwf Hk))
    as (c' & Hp & Hlk' & Hse & Hh).
  exists n, c'. unfold Get. rewrite Hk, Hn; simpl. rewrite Hp; simpl.
  conjs; try done. by eapply index_ok_same.
Qed.

(** ** [Put] *)

Lemma Put_zero k v c w : cap c = 0 → Put k v c w = Some (c, w, None).
Proof. intros Hc. unfold Put. by rewrite decide_True. Qed.

(** The key is cached: the value is overwritten and the slot promoted. *)
Lemma Put_update k v i c w :
  wf c → map_get k (keys c) = Some i →
  ∃ c', Put k v c w = Some (c', w, None) ∧ wf c' ∧
        len c' = len c ∧ cap c' = cap c ∧ evict c' = evict c ∧
        keys c' = keys c ∧ head c' = i ∧
        key <$> data c' = key <$> data c ∧
        val <$> data c' = <[i := v]> (val <$> data c).
Proof.
  intros Hwf Hk. pose proof Hwf as [Hlk Hix].
  pose proof (wf_keys_lt c k i Hwf Hk) as Hi.
  destruct (wf_slot c k i Hwf Hk) as (n & _ & Hn & Hkn).
  unfold Put. rewrite decide_False by lia. rewrite Hk.
  unfold modify at 1. rewrite Hn; simpl.
  set (c0 := set_data (<[i := set_val v n]> (data c)) c).
  assert (key <$> <[i := set_val v n]> (data c) = key <$> data c) as Hkey
    by (by eapply fmap_insert_same).
  assert (links_ok c0) as Hlk0.
  { destruct Hlk. constructor; simpl; try done.
    - by rewrite length_insert.
    - apply Forall_insert; [done|]. apply set_val_bounded.
      by eapply (Forall_lookup_1 _ (data c) i). }
  assert (index_ok c0) as Hix0.
  { destruct Hix. constructor; subst c0; simpl; rewrite ?Hkey; done. }
  destruct (promote_ok i c0 Hlk0 Hi) as (c' & -> & Hlk' & Hse & Hh).
  simpl. exists c'. pose proof Hse as [? ? ? ? Hk' Hv']. simpl in *.
  conjs; try done.
  - by eapply index_ok_same.
  - congruence.
  - rewrite Hv'. by rewrite list_fmap_insert.
Qed.

(** The key is new and a slot is free: slot [len] is taken. *)
Lemma Put_insert k v c w :
  wf c → map_get k (keys c) = None → len c < cap c →
  ∃ c', Put k v c w = Some (c', w, None) ∧ wf c' ∧
        len c' = S (len c) ∧ cap c' = cap c ∧ evict c' = evict c ∧
        keys c' = map_set k (len c) (keys c) ∧
        head c' = len c ∧ tail c' = tail c ∧
        key <$> data c' = <[len c := k]> (key <$> data c) ∧
        val <$> data c' = <[len c := v]> (val <$> data c).
Proof.
  intros [Hlk Hix] Hk Hlt.
  destruct Hlk as [Hd Hh Ht Hl]. destruct Hix as [Hle Hfw Hbw].
  assert (head c < cap c) as Hhd by (apply Hh; lia).
  unfold Put. rewrite decide_False by lia. rewrite Hk.
  rewrite decide_True by done.
  unfold store. rewrite decide_True by lia. simpl.
  set (nw := {| next := head c; last := 0; key := k; val := v |}).
  assert (Forall (bounded (cap c)) (<[len c := nw]> (data c))) as Hb1.
  { apply Forall_insert; [done|]. split; simpl; lia. }
  destruct (modify_link (cap c) (head c) (set_last (len c))
              (<[len c := nw]> (data c)))
    as (d2 & -> & L2 & B2 & K2 & V2);
    [apply set_last_link | intros; by apply set_last_bounded
    | rewrite length_insert; lia | done |].
  rewrite list_fmap_insert in K2. rewrite list_fmap_insert in V2.
  simpl in K2, V2.
  rewrite length_insert in L2.
  simpl. eexists. split; [done|]. conjs; simpl; try done.
  - constructor; simpl; auto with lia.
  - constructor; simpl.
    + lia.
    + intros a i. rewrite K2, found_set. case_decide as Hka.
      * intros [= <-]. split; [lia|]. exists k. split; [|done].
        apply list_lookup_insert_eq. rewrite length_fmap. lia.
      * intros Hi. destruct (Hfw a i Hi) as [Hil (k' & Hs & Hk')].
        split; [lia|]. exists k'. split; [|done].
        rewrite list_lookup_insert_ne by lia. done.
    + intros i k' a Hi. rewrite K2, found_set.
      destruct (decide (i = len c)) as [->|Hne].
      * rewrite list_lookup_insert_eq by (rewrite length_fmap; lia).
        intros [= <-] Ha. by rewrite decide_True.
      * rewrite list_lookup_insert_ne by done. intros Hs Ha.
        assert (found (keys c) !! a = Some i) as Hki
          by (apply (Hbw i k'); [lia|done|done]).
        case_decide as Hka; [|done].
        assert (map_get k (keys c) = Some i); [|congruence].
        apply map_get_found. eauto.
Qed.

(** The cache is full and the key is new: the slot at [tail] is given
    to the new entry. *)
Lemma Put_evict k v c w :
  wf c → map_get k (keys c) = None → len c = cap c → 0 < cap c →
  ∃ victim c',
    data c !! tail c = Some victim ∧
    keq k (key victim) = false ∧
    Put k v c w = Some (c', (notify c (key victim) (val victim) w).1,
                            (notify c (key victim) (val victim) w).2) ∧
    wf c' ∧
    len c' = len c ∧ cap c' = cap c ∧ evict c' = evict c ∧
    keys c' = map_set k (tail c) (map_delete (key victim) (keys c)) ∧
    head c' = tail c ∧
    key <$> data c' = <[tail c := k]> (key <$> data c) ∧
    val <$> data c' = <[tail c := v]> (val <$> data c).
Proof.
  intros [Hlk Hix] Hk Hfull Hpos.
  pose proof Hlk as [Hd Hh Ht Hl]. pose proof Hix as [Hle Hfw Hbw].
  assert (tail c < cap c) as Htl by auto.
  destruct (lookup_lt_is_Some_2 (data c) (tail c)) as [victim Hvic]; [lia|].
  assert ((key <$> data c) !! tail c = Some (key victim)) as Hkvic
    by (by rewrite list_lookup_fmap, Hvic).
  assert (keq k (key victim) = false) as Hvk.
  { destruct (keq k (key victim)) eqn:Hkv; [|done].
    assert (map_get k (keys c) = Some (tail c)); [|congruence].
    apply (wf_found c k (tail c) victim); try done; [lia|].
    by rewrite keq_sym. }
  exists victim.
  unfold Put. rewrite decide_False by lia. rewrite Hk.
  rewrite decide_False by lia. rewrite Hvic; simpl.
  destruct (notify c (key victim) (val victim) w) as [w' err]; simpl.
  unfold modify at 1. rewrite Hvic; simpl.
  set (nw := set_val v (set_key k victim)).
  set (ks := map_set k (tail c) (map_delete (key victim) (keys c))).
  set (c0 := set_keys ks (set_data (<[tail c := nw]> (data c)) c)).
  assert (links_ok c0) as Hlk0.
  { constructor; simpl; try done.
    - by rewrite length_insert.
    - apply Forall_insert; [done|].
      destruct (Forall_lookup_1 _ _ _ _ Hl Hvic). by split. }
  assert (index_ok c0) as Hix0.
  { constructor; simpl; [lia | |].
    - intros a i. subst ks. rewrite list_fmap_insert, found_set.
      case_decide as Hka.
      + intros [= <-]. split; [lia|]. exists k. split; [|done].
        apply list_lookup_insert_eq. rewrite length_fmap. lia.
      + rewrite found_delete. case_decide as Hkd; [done|].
        intros Hi. destruct (Hfw a i Hi) as [Hil (k' & Hs & Hk')].
        split; [done|]. exists k'. split; [|done].
        rewrite list_lookup_insert_ne; [done|].
        intros <-. congruence.
    - intros i k' a Hi. subst ks. rewrite list_fmap_insert, found_set.
      destruct (decide (i = tail c)) as [->|Hne].
      + rewrite list_lookup_insert_eq by (rewrite length_fmap; lia).
        intros [= <-] Ha. by rewrite decide_True.
      + rewrite list_lookup_insert_ne by done. intros Hs Ha.
        assert (found (keys c) !! a = Some i) as Hki by (by apply (Hbw i k')).
        case_decide as Hka.
        { assert (map_get k (keys c) = Some i); [|congruence].
          apply map_get_found. eauto. }
        rewrite found_delete. case_decide as Hkd; [|done].
        assert (found (keys c) !! a = Some (tail c)) as Hkt
          by (apply (Hbw (tail c) (key victim)); [lia|done|done]).
        congruence. }
  destruct (promote_ok (tail c) c0 Hlk0 Htl) as (c' & -> & Hlk' & Hse & Hh').
  simpl. exists c'. pose proof Hse as [? ? ? ? Hk' Hv']. simpl in *.
  conjs; try done.
  - by eapply index_ok_same.
  - rewrite Hk'. by rewrite list_fmap_insert.
  - rewrite Hv'. by rewrite list_fmap_insert.
Qed.

(** ** [errors.Join] *)

Lemma Join_pair_leaves (a b : option (error E)) :
  leaves_opt (Join [a; b]) = leaves_opt a ++ leaves_opt b.
Proof.
  destruct a as [a|], b as [b|]; unfold Join; simpl;
    rewrite ?app_nil_r; done.
Qed.

Lemma Join_pair_None (a b : option (error E)) :
  Join [a; b] = None ↔ a = None ∧ b = None.
Proof.
  destruct a as [a|], b as [b|]; unfold Join; simpl; split;
    (done || intros [? ?]; done).
Qed.

(** ** [Clear] *)

Lemma evict_all_calls cb active w err :
  calls (evict_all cb active w err).1 = calls w ++ (entry <$> active).
Proof.
  revert w err. induction active as [|n rest IH]; intros w err; simpl.
  - by rewrite app_nil_r.
  - unfold call_evict. destruct (cb (env w) (key n) (val n)) as [s e].
    rewrite IH. simpl. by rewrite <- app_assoc.
Qed.

Lemma evict_all_leaves cb active w err :
  leaves_opt (evict_all cb active w err).2 =
  leaves_opt err ++ concat (leaves_opt <$> replies cb active (env w)).
Proof.
  revert w err. induction active as [|n rest IH]; intros w err; simpl.
  - by rewrite app_nil_r.
  - unfold call_evict. destruct (cb (env w) (key n) (val n)) as [s e].
    rewrite IH. simpl. rewrite Join_pair_leaves. by rewrite <- app_assoc.
Qed.

Lemma evict_all_None cb active w err :
  (evict_all cb active w err).2 = None ↔
  err = None ∧ Forall (λ e, e = None) (replies cb active (env w)).
Proof.
  revert w err. induction active as [|n rest IH]; intros w err; simpl.
  - split; [by intros -> | by intros [-> _]].
  - unfold call_evict. destruct (cb (env w) (key n) (val n)) as [s e].
    rewrite IH. simpl. rewrite Join_pair_None, Forall_cons. tauto.
Qed.

Lemma Join_pair_joined (a b : option (error E)) e :
  Join [a; b] = Some e → ∃ l, e = joinError l.
Proof.
  destruct a as [a|], b as [b|]; unfold Join; simpl; intros [= <-]; eauto.
Qed.

Lemma evict_all_joined cb active w err :
  (∀ e, err = Some e → ∃ l, e = joinError l) →
  ∀ e, (evict_all cb active w err).2 = Some e → ∃ l, e = joinError l.
Proof.
  revert w err. induction active as [|n rest IH]; intros w err Herr; simpl.
  - done.
  - unfold call_evict. destruct (cb (env w) (key n) (val n)) as [s e0].
    apply IH. apply Join_pair_joined.
Qed.

Lemma notify_all_nil c w : notify_all c [] w = (w, None).
Proof. unfold notify_all. by destruct (evict c). Qed.

Lemma slice_inside m d : m ≤ length d → slice m d = Some (take m d).
Proof. intros ?. unfold slice. by rewrite decide_True. Qed.

Lemma Clear_ok c w :
  wf c →
  ∃ c', Clear c w =
          Some (c', (notify_all c (take (len c) (data c)) w).1,
                    (notify_all c (take (len c) (data c)) w).2) ∧
        wf c' ∧ len c' = 0 ∧ keys c' = map_empty ∧
        cap c' = cap c ∧ evict c' = evict c ∧
        head c' = head c ∧ tail c' = tail c.
Proof.
  intros [[Hd Hh Ht Hl] [Hle Hfw Hbw]].
  unfold Clear. rewrite slice_inside by lia. simpl.
  destruct (notify_all c (take (len c) (data c)) w) as [w' err]. simpl.
  eexists. split; [done|]. conjs; simpl; try done.
  - constructor; simpl; try done.
    + rewrite length_app, length_replicate, length_drop. lia.
    + apply Forall_app. split; [|by apply Forall_drop].
      destruct (decide (len c = 0)) as [->|Hne]; [by constructor|].
      apply Forall_replicate, zero_node_bounded. lia.
  - constructor; simpl; [lia | |].
    + intros a i. by rewrite lookup_empty.
    + intros i k a ?. lia.
Qed.

(** ** Iterators *)

Lemma All_inside {A} c (yield : A → K → V → A * bool) a :
  wf c →
  All c yield a =
    Some (range_yield (λ a n, yield a (key n) (val n))
            (take (len c) (data c)) a).
Proof.
  intros [[Hd _ _ _] [Hle _ _]]. unfold All.
  by rewrite slice_inside by lia.
Qed.

Lemma Keys_inside {A} c (yield : A → K → A * bool) a :
  wf c →
  Keys c yield a =
    Some (range_yield (λ a n, yield a (key n)) (take (len c) (data c)) a).
Proof.
  intros [[Hd _ _ _] [Hle _ _]]. unfold Keys.
  by rewrite slice_inside by lia.
Qed.

Lemma Values_inside {A} c (yield : A → V → A * bool) a :
  wf c →
  Values c yield a =
    Some (range_yield (λ a n, yield a (val n)) (take (len c) (data c)) a).
Proof.
  intros [[Hd _ _ _] [Hle _ _]]. unfold Values.
  by rewrite slice_inside by lia.
Qed.

(** ** Sequences of operations *)

Lemma New_wf m ev : wf (New (K:=K) (V:=V) (E:=E) (Env:=Env) m ev).
Proof.
  split; constructor; simpl; try done; try lia;
    [apply length_replicate|].
  destruct m; [by constructor|].
  apply Forall_replicate, zero_node_bounded. lia.
Qed.

Lemma step_wf o c w :
  wf c → ∃ c' w' x, step o (c, w) = Some ((c', w'), x) ∧ wf c' ∧
                    cap c' = cap c ∧ evict c' = evict c.
Proof.
  intros Hwf. destruct o as [k|k v| |more|more|more]; simpl.
  - destruct (map_get k (keys c)) as [i|] eqn:Hk.
    + destruct (Get_hit k i c Hwf Hk) as (n & c' & _ & _ & -> & Hwf' & Hse & _).
      simpl. destruct Hse. eauto 10.
    + rewrite Get_miss by done. simpl. eauto 10.
  - destruct (decide (cap c = 0)) as [Hz|Hnz].
    { rewrite Put_zero by done. simpl. eauto 10. }
    destruct (map_get k (keys c)) as [i|] eqn:Hk.
    { destruct (Put_update k v i c w Hwf Hk)
        as (c' & -> & Hwf' & _ & ? & ? & _). simpl. eauto 10. }
    destruct (decide (len c < cap c)) as [Hlt|Hge].
    { destruct (Put_insert k v c w Hwf Hk Hlt)
        as (c' & -> & Hwf' & _ & ? & ? & _). simpl. eauto 10. }
    assert (len c = cap c) as Hfull.
    { destruct Hwf as [_ [Hle _ _]]. lia. }
    destruct (Put_evict k v c w Hwf Hk Hfull)
      as (victim & c' & _ & _ & -> & Hwf' & _ & ? & ? & _); [lia|].
    simpl. eauto 10.
  - destruct (Clear_ok c w Hwf) as (c' & -> & Hwf' & _ & _ & ? & ? & _).
    simpl. eauto 10.
  - rewrite All_inside by done. simpl. eauto 10.
  - rewrite Keys_inside by done. simpl. eauto 10.
  - rewrite Values_inside by done. simpl. eauto 10.
Qed.

Lemma run_wf ops c w :
  wf c → ∃ c' w' out, run ops (c, w) = Some ((c', w'), out) ∧ wf c' ∧
                      cap c' = cap c ∧ evict c' = evict c.
Proof.
  revert c w. induction ops as [|o rest IH]; intros c w Hwf; cbn [run].
  - eauto 10.
  - destruct (step_wf o c w Hwf) as (c1 & w1 & x & -> & Hwf1 & Hc1 & He1).
    simpl.
    destruct (IH c1 w1 Hwf1) as (c2 & w2 & out & -> & Hwf2 & Hc2 & He2).
    simpl. exists c2, w2, (x :: out).
    split; [done|]. split; [done|]. split; congruence.
Qed.

Lemma reachable_wf c w : reachable (c, w) → wf c.
Proof.
  intros (m & ev & w0 & ops & out & Hrun).
  destruct (run_wf ops (New m ev) w0 (New_wf m ev))
    as (c' & w' & out' & Hrun' & Hwf & _).
  rewrite Hrun in Hrun'. by injection Hrun' as -> _ _.
Qed.

(** A Put that evicts, followed by the two Gets that show its effect. *)
Lemma Put_full_new_key c w (k : K) (v : V) cb :
  wf c → len c = cap c → 0 < cap c → map_get k (keys c) = None →
  evict c = Some cb →
  ∃ victim c',
    data c !! tail c = Some victim ∧
    Put k v c w =
      Some (c',
            {| env := (cb (env w) (key victim) (val victim)).1;
               calls := calls w ++ [(key victim, val victim)] |},
            (cb (env w) (key victim) (val victim)).2) ∧
    (keq k k = true → ∃ c'', Get k c' = Some (c'', (v, true))) ∧
    Get (key victim) c' = Some (c', (zero, false)).
Proof.
  intros Hwf Hfull Hpos Hk Hev.
  destruct (Put_evict k v c w Hwf Hk Hfull Hpos)
    as (victim & c' & Hvic & Hkv & HP & Hwf' & Hlen & Hcap & Hev' & Hks
        & Hh & Hkey & Hval).
  exists victim, c'. conjs.
  - done.
  - rewrite HP. unfold notify, call_evict. rewrite Hev.
    by destruct (cb (env w) (key victim) (val victim)).
  - intros Hkk.
    assert (map_get k (keys c') = Some (tail c)) as Hk'
      by (rewrite Hks; by apply map_get_set_eq).
    destruct (Get_hit k (tail c) c' Hwf' Hk')
      as (n & c'' & Hn & Hkn & HG & _).
    exists c''. rewrite HG. do 3 f_equal.
    assert ((val <$> data c') !! tail c = Some v) as Hv.
    { rewrite Hval. apply list_lookup_insert_eq. rewrite length_fmap.
      by eapply lookup_lt_Some. }
    rewrite list_lookup_fmap, Hn in Hv. by injection Hv.
  - apply Get_miss. rewrite Hks.
    rewrite map_get_set_ne by done. apply map_get_delete_self.
Qed.

(** ** Consumers of the iterators *)

Lemma range_collect_all {B} (g : node K V → B) active acc :
  range_yield (λ a n, collect (λ _, true) a (g n)) active acc =
  acc ++ (g <$> active).
Proof.
  revert acc. induction active as [|n rest IH]; intros acc; simpl.
  - by rewrite app_nil_r.
  - rewrite IH. by rewrite <- app_assoc.
Qed.

Lemma range_collect_cut {B} (g : node K V → B) more active acc :
  ∃ j, stops (λ p, more (acc ++ p)) (g <$> active) j ∧
       range_yield (λ a n, collect more a (g n)) active acc =
       acc ++ take j (g <$> active).
Proof.
  revert acc. induction active as [|n rest IH]; intros acc; csimpl.
  - exists 0. split; [|by rewrite app_nil_r].
    unfold stops; csimpl. conjs; try done; intros; lia.
  - destruct (more (acc ++ [g n])) eqn:Hm.
    + destruct (IH (acc ++ [g n])) as (j & (Hj & Hpos & Hstop & Hgo) & ->).
      exists (S j). split; [|by rewrite <- app_assoc].
      unfold stops; csimpl. conjs.
      * lia.
      * intros _. lia.
      * intros Hlt. rewrite <- Hstop by lia. by rewrite <- app_assoc.
      * intros [|i] Hi; [lia|]. csimpl.
        destruct i as [|i]; [by rewrite ?take_0|].
        rewrite <- Hgo with (i := S i) by lia. by rewrite <- app_assoc.
    + exists 1. split; [|by rewrite ?take_0].
      unfold stops; csimpl. conjs.
      * lia.
      * intros _. lia.
      * intros _. by rewrite ?take_0.
      * intros i Hi. lia.
Qed.
End facts.

(** ** The index of a cache whose keys equal themselves *)

Section tight.
Context {K : Type} `{Comparable K} {V E Env : Type}.
Context `{Zero K} `{Zero V}.
Implicit Types (k : K).
Implicit Types (c : Cache K V E Env) (w : World K V Env).

Lemma New_tight m ev :
  index_tight (New (K:=K) (V:=V) (E:=E) (Env:=Env) m ev).
Proof. constructor; simpl; [intros i k ?; lia | done | done]. Qed.

Lemma insert_tight c c' (k : K) :
  wf c → index_tight c → keq k k = true → map_get k (keys c) = None →
  len c < cap c →
  len c' = S (len c) → keys c' = map_set k (len c) (keys c) →
  key <$> data c' = <[len c := k]> (key <$> data c) →
  index_tight c'.
Proof.
  intros [[Hd _ _ _] _] [Hrefl Hsz Hlost] Hkk Hk Hlt Hlen Hks Hkey.
  pose proof Hkk as Hkk'. apply keq_refl_ident in Hkk' as [a Ha].
  assert (found (keys c) !! a = None) as Hfa
    by (by apply (proj1 (map_get_None k (keys c)) Hk)).
  constructor.
  - intros i k'. rewrite Hlen, Hkey.
    destruct (decide (i = len c)) as [->|Hne].
    + rewrite list_lookup_insert_eq by (rewrite length_fmap; lia).
      by intros _ [= <-].
    + rewrite list_lookup_insert_ne by done. intros ? ?.
      apply (Hrefl i); [lia|done].
  - rewrite Hks, Hlen. unfold map_set. rewrite Ha. simpl.
    rewrite map_size_insert_None by done. lia.
  - rewrite Hks. unfold map_set. by rewrite Ha.
Qed.

Lemma evict_tight c c' (k : K) victim :
  wf c → index_tight c → keq k k = true → map_get k (keys c) = None →
  len c = cap c → 0 < cap c → data c !! tail c = Some victim →
  len c' = len c →
  keys c' = map_set k (tail c) (map_delete (key victim) (keys c)) →
  key <$> data c' = <[tail c := k]> (key <$> data c) →
  index_tight c'.
Proof.
  intros [[Hd _ Ht _] [_ _ Hbw]] [Hrefl Hsz Hlost] Hkk Hk Hfull Hpos Hvic
    Hlen Hks Hkey.
  assert (tail c < cap c) as Htl by auto.
  assert ((key <$> data c) !! tail c = Some (key victim)) as Hkvic
    by (by rewrite list_lookup_fmap, Hvic).
  pose proof Hkk as Hkk'. apply keq_refl_ident in Hkk' as [a Ha].
  assert (found (keys c) !! a = None) as Hfa
    by (by apply (proj1 (map_get_None k (keys c)) Hk)).
  assert (keq (key victim) (key victim) = true) as Hvv
    by (apply (Hrefl (tail c)); [lia|done]).
  apply keq_refl_ident in Hvv as [b Hb].
  assert (found (keys c) !! b = Some (tail c)) as Hfb
    by (apply (Hbw (tail c) (key victim)); [lia|done|done]).
  assert (a ≠ b) as Hab by congruence.
  constructor.
  - intros i k'. rewrite Hlen, Hkey.
    destruct (decide (i = tail c)) as [->|Hne].
    + rewrite list_lookup_insert_eq by (rewrite length_fmap; lia).
      by intros _ [= <-].
    + rewrite list_lookup_insert_ne by done. apply Hrefl.
  - rewrite Hks, Hlen. unfold map_set, map_delete. rewrite Ha, Hb. simpl.
    rewrite map_size_insert_None by (by rewrite lookup_delete_ne).
    rewrite map_size_delete_Some by eauto.
    rewrite Hsz. lia.
  - rewrite Hks. unfold map_set, map_delete. by rewrite Ha, Hb.
Qed.

Lemma step_tight o c w c' w' x :
  wf c → index_tight c →
  match o with OpPut k _ => keq k k = true | _ => True end →
  step o (c, w) = Some ((c', w'), x) → index_tight c'.
Proof.
  intros Hwf Htight Ho.
  destruct o as [k|k v| |more|more|more]; cbn [step].
  - destruct (map_get k (keys c)) as [i|] eqn:Hk.
    + destruct (Get_hit k i c Hwf Hk)
        as (n & c1 & _ & _ & -> & _ & Hse & _).
      simpl. intros [= <- _ _]. by eapply index_tight_same.
    + rewrite Get_miss by done. simpl. by intros [= <- _ _].
  - destruct (decide (cap c = 0)) as [Hz|Hnz].
    { rewrite Put_zero by done. simpl. by intros [= <- _ _]. }
    destruct (map_get k (keys c)) as [i|] eqn:Hk.
    { destruct (Put_update k v i c w Hwf Hk)
        as (c1 & -> & _ & Hlen & _ & _ & Hks & _ & Hkey & _).
      simpl. intros [= <- _ _]. destruct Htight as [? ? ?].
      constructor; rewrite ?Hlen, ?Hks, ?Hkey; done. }
    destruct (decide (len c < cap c)) as [Hlt|Hge].
    { destruct (Put_insert k v c w Hwf Hk Hlt)
        as (c1 & -> & _ & Hlen & _ & _ & Hks & _ & _ & Hkey & _).
      simpl. intros [= <- _ _]. by eapply insert_tight. }
    assert (len c = cap c) as Hfull.
    { destruct Hwf as [_ [Hle _ _]]. lia. }
    destruct (Put_evict k v c w Hwf Hk Hfull)
      as (victim & c1 & Hvic & _ & -> & _ & Hlen & _ & _ & Hks & _ & Hkey
          & _); [lia|].
    simpl. intros [= <- _ _]. eapply evict_tight; try done. lia.
  - destruct (Clear_ok c w Hwf) as (c1 & -> & _ & Hlen & Hks & _).
    simpl. intros [= <- _ _].
    constructor; rewrite ?Hlen, ?Hks; [intros i k ?; lia|done|done].
  - destruct (All c _ []); [|done]. simpl. by intros [= <- _ _].
  - destruct (Keys c _ []); [|done]. simpl. by intros [= <- _ _].
  - destruct (Values c _ []); [|done]. simpl. by intros [= <- _ _].
Qed.

Lemma run_tight ops c w c' w' out :
  wf c → index_tight c → puts_equal_themselves ops = true →
  run ops (c, w) = Some ((c', w'), out) → index_tight c'.
Proof.
  revert c w out. induction ops as [|o rest IH]; intros c w out Hwf Ht Hops;
    cbn [run].
  - by intros [= <- _ _].
  - unfold puts_equal_themselves in Hops. cbn [forallb] in Hops.
    apply andb_prop in Hops as [Ho Hrest].
    destruct (step_wf o c w Hwf) as (c1 & w1 & x & Hstep & Hwf1 & _).
    rewrite Hstep. simpl.
    destruct (run rest (c1, w1)) as [[[c2 w2] xs]|] eqn:Hrun; [|done].
    simpl. intros [= <- <- _].
    apply (IH c1 w1 xs); try done.
    apply (step_tight o c w c1 w1 x); try done. by destruct o.
Qed.
End tight.

(** * The properties of the specification, for every key and value type *)

Section claims.
Context {K : Type} `{Comparable K} {V E Env : Type}.
Context `{Zero K} `{Zero V}.
Implicit Types (k : K).
Implicit Types (c : Cache K V E Env) (w : World K V Env).
Implicit Types (ev : option (evict_func K V E Env)).
Implicit Types (ops : list (op K V)).

(** C3, for keys that equal themselves.  After every sequence of Get /
    Put / Clear calls (and iterator consumptions) on a constructed cache
    in which every key passed to Put equals itself, the key index has
    exactly [len] entries, [len] is at most the capacity, every entry of
    the index and every key a lookup finds maps to a slot below [len]
    whose stored key equals that key, no two unequal keys share a slot,
    and so at most [cap] distinct keys are held. *)
Theorem C3_index_invariant (m : nat) ev w0 ops :
  puts_equal_themselves ops = true →
  ∃ c w out,
    run ops (New m ev, w0) = Some ((c, w), out) ∧
    cap c = m ∧
    map_len (keys c) = len c ∧
    len c ≤ m ∧
    (∀ a i, found (keys c) !! a = Some i →
            i < len c ∧ ∃ n, data c !! i = Some n ∧
                             ident_of (key n) = Some a) ∧
    (∀ k i, map_get k (keys c) = Some i →
            i < len c ∧ ∃ n, data c !! i = Some n ∧ keq (key n) k = true) ∧
    (∀ k1 k2 i, map_get k1 (keys c) = Some i →
                map_get k2 (keys c) = Some i → keq k1 k2 = true) ∧
    map_len (keys c) ≤ m.
Proof.
  intros Hops.
  destruct (run_wf ops (New m ev) w0 (New_wf m ev))
    as (c & w & out & Hrun & Hwf & Hcap & _).
  pose proof (run_tight ops _ _ _ _ _ (New_wf m ev) (New_tight m ev)
                Hops Hrun) as [_ Hsz Hlost].
  simpl in Hcap. pose proof Hwf as [_ [Hle Hfw Hbw]].
  assert (map_len (keys c) = len c) as Hml
    by (unfold map_len; rewrite Hsz, Hlost; lia).
  exists c, w, out. conjs; try done; try lia.
  - intros a i Ha. destruct (Hfw a i Ha) as [Hi (k & Hs & Hk)].
    split; [done|]. rewrite list_lookup_fmap in Hs.
    destruct (data c !! i) as [n|]; [|done]. exists n.
    split; [done|]. by injection Hs as ->.
  - intros k i Hk. destruct (wf_slot c k i Hwf Hk) as (n & ? & ? & ?).
    eauto.
  - intros k1 k2 i Hk1 Hk2.
    destruct (wf_slot c k1 i Hwf Hk1) as (n1 & _ & Hn1 & He1).
    destruct (wf_slot c k2 i Hwf Hk2) as (n2 & _ & Hn2 & He2).
    assert (n2 = n1) as -> by congruence.
    eapply keq_trans; [|exact He2]. by rewrite keq_sym.
Qed.

(** C9.  Every sequence of public calls on a constructed cache, of any
    capacity including 0, runs without an out-of-range slice access (a
    panic is [None] in the embedding), any further call is again safe,
    and every index the cache stores - [head], [tail] and the [next]
    and [last] links of every slot - stays below the capacity. *)
Theorem C9_indices_in_bounds (m : nat) ev w0 ops :
  ∃ c w out,
    run ops (New m ev, w0) = Some ((c, w), out) ∧
    length (data c) = m ∧
    (0 < m → head c < m ∧ tail c < m) ∧
    (∀ i n, data c !! i = Some n → next n < m ∧ last n < m) ∧
    (∀ o, is_Some (step o (c, w))).
Proof.
  destruct (run_wf ops (New m ev) w0 (New_wf m ev))
    as (c & w & out & Hrun & Hwf & Hcap & _).
  simpl in Hcap. pose proof Hwf as [[Hd Hh Ht Hl] _].
  exists c, w, out. conjs; try done; try congruence.
  - intros Hm. rewrite <- Hcap in *. auto.
  - intros i n Hn. rewrite <- Hcap.
    by apply (Forall_lookup_1 _ _ _ _ Hl Hn).
  - intros o. destruct (step_wf o c w Hwf) as (c' & w' & x & -> & _).
    by eexists.
Qed.

(** C7.  A Get of a key that is not in the key index returns the zero
    value and [false] and leaves the whole cache - length, head, tail,
    slots and key index - as it was. *)
Theorem C7_get_miss_is_noop c (k : K) :
  map_get k (keys c) = None → Get k c = Some (c, (zero, false)).
Proof. apply Get_miss. Qed.

(** C10.  On a cache constructed with capacity 0 every Put returns nil,
    stores nothing, calls no callback and leaves the cache as
    constructed; whatever calls came before, every Get misses. *)
Theorem C10_zero_capacity ev w0 :
  (∀ k v, Put k v (New 0 ev) w0 = Some (New 0 ev, w0, None)) ∧
  (∀ k, Get k (New 0 ev) = Some (New 0 ev, (zero, false))) ∧
  (∀ ops, run ops (New 0 ev, w0) = Some ((New 0 ev, w0), quiet <$> ops)).
Proof.
  assert (∀ o, step o (New 0 ev, w0) = Some ((New 0 ev, w0), quiet o))
    as Hstep.
  { intros [k|k v| |more|more|more]; cbn [step quiet].
    - by rewrite Get_miss by apply map_get_empty.
    - by rewrite Put_zero.
    - unfold Clear, notify_all. simpl. by destruct ev.
    - done.
    - done.
    - done. }
  conjs.
  - done.
  - intros k. apply Get_miss, map_get_empty.
  - induction ops as [|o rest IH]; [done|].
    cbn [run]. rewrite Hstep. simpl. rewrite IH. done.
Qed.

(** C6.  Clear calls the callback once for each active slot, slot 0
    first, with that slot's key and value; the error it returns is nil
    when there is no callback or no call failed, and otherwise a join
    holding every failure, in call order; afterwards the length is 0 and
    the key index is empty, so a second Clear calls nothing. *)
Theorem C6_clear_notifies_and_resets c w :
  reachable (c, w) →
  ∃ c' w' err,
    Clear c w = Some (c', w', err) ∧
    len c' = 0 ∧
    keys c' = map_empty ∧
    match evict c with
    | Some cb =>
        let rs := replies cb (take (len c) (data c)) (env w) in
        calls w' = calls w ++ entries c ∧
        length rs = len c ∧
        leaves_opt err = concat (leaves_opt <$> rs) ∧
        (err = None ↔ Forall (λ r, r = None) rs) ∧
        (∀ e, err = Some e → ∃ l, e = joinError l)
    | None => w' = w ∧ err = None
    end ∧
    ∃ c'', Clear c' w' = Some (c'', w', None) ∧ len c'' = 0.
Proof.
  intros Hr. pose proof (reachable_wf c w Hr) as Hwf.
  destruct (Clear_ok c w Hwf)
    as (c' & HC & Hwf' & Hlen & Hks & Hcap & Hev & _).
  eexists c', _, _. split; [exact HC|]. conjs; try done.
  - unfold notify_all. destruct (evict c) as [cb|]; [|done].
    simpl. conjs.
    + apply evict_all_calls.
    + assert (∀ l s, length (replies cb l s) = length l) as Hrl.
      { induction l as [|n l IH]; intros s; simpl; [done|]. by rewrite IH. }
      rewrite Hrl, length_take.
      destruct Hwf as [[Hd _ _ _] [Hle _ _]]. lia.
    + by rewrite evict_all_leaves.
    + rewrite evict_all_None. tauto.
    + by apply evict_all_joined.
  - destruct (Clear_ok c' (notify_all c (take (len c) (data c)) w).1 Hwf')
      as (c'' & HC' & _ & Hlen' & _).
    rewrite Hlen, take_0, notify_all_nil in HC'. simpl in HC'. eauto.
Qed.

(** C8.  All, Keys and Values hand the consumer the entries of slots
    0 .. len-1 in that order - the pair, the key, the value of each - as
    read from the cache when the iterator is consumed; the sequence has
    [len] items; a consumer that breaks gets exactly the items up to the
    one at which it broke; the cache is not changed. *)
Theorem C8_iterators_enumerate_active_slots c w :
  reachable (c, w) →
  length (entries c) = len c ∧
  (∀ i, i < len c → entries c !! i = entry <$> data c !! i) ∧
  All c (λ acc k v, collect (λ _, true) acc (k, v)) [] = Some (entries c) ∧
  Keys c (collect (λ _, true)) [] = Some ((entries c).*1) ∧
  Values c (collect (λ _, true)) [] = Some ((entries c).*2) ∧
  (∀ more, ∃ j, stops more (entries c) j ∧
     step (OpAll more) (c, w) = Some ((c, w), ObsAll (take j (entries c)))) ∧
  (∀ more, ∃ j, stops more (entries c).*1 j ∧
     step (OpKeys more) (c, w) =
       Some ((c, w), ObsKeys (take j (entries c).*1))) ∧
  (∀ more, ∃ j, stops more (entries c).*2 j ∧
     step (OpValues more) (c, w) =
       Some ((c, w), ObsValues (take j (entries c).*2))).
Proof.
  intros Hr. pose proof (reachable_wf c w Hr) as Hwf.
  assert (len c ≤ length (data c)) as Hle.
  { destruct Hwf as [[Hd _ _ _] [Hle _ _]]. lia. }
  unfold entries. conjs.
  - rewrite length_fmap, length_take. lia.
  - intros i Hi. by rewrite list_lookup_fmap, lookup_take_lt.
  - rewrite All_inside by done. f_equal.
    exact (range_collect_all entry _ []).
  - rewrite Keys_inside by done.
    rewrite (range_collect_all key). simpl.
    by rewrite <- list_fmap_compose.
  - rewrite Values_inside by done.
    rewrite (range_collect_all val). simpl.
    by rewrite <- list_fmap_compose.
  - intros more. cbn [step]. rewrite All_inside by done. simpl.
    destruct (range_collect_cut entry more (take (len c) (data c)) [])
      as (j & Hj & Heq).
    exists j. split; [done|]. do 3 f_equal. exact Heq.
  - intros more. cbn [step]. rewrite Keys_inside by done. simpl.
    destruct (range_collect_cut key more (take (len c) (data c)) [])
      as (j & Hj & Heq).
    exists j. rewrite <- list_fmap_compose.
    split; [done|]. by rewrite Heq.
  - intros more. cbn [step]. rewrite Values_inside by done. simpl.
    destruct (range_collect_cut val more (take (len c) (data c)) [])
      as (j & Hj & Heq).
    exists j. rewrite <- list_fmap_compose.
    split; [done|]. by rewrite Heq.
Qed.

(** C4, for a key that equals itself.  A Put of a new key into a full
    cache with a callback calls the callback exactly once, on the key and
    value held by the slot at [tail]; Put returns what that call
    returned, nil or not; whatever it returned, a Get of the victim's key
    then misses, and a Get of the new key hits with the new value when
    the key equals itself - and misses when it does not.  With capacity 1
    and a recording callback, put(a,1); put(b,2) records exactly (a,1)
    and get(a) misses. *)
Theorem C4_eviction_reports_and_completes :
  (∀ c w (k : K) (v : V) (cb : evict_func K V E Env),
     reachable (c, w) →
     len c = cap c → 0 < cap c →
     map_get k (keys c) = None →
     evict c = Some cb →
     ∃ victim c',
       data c !! tail c = Some victim ∧
       Put k v c w =
         Some (c',
               {| env := (cb (env w) (key victim) (val victim)).1;
                  calls := calls w ++ [(key victim, val victim)] |},
               (cb (env w) (key victim) (val victim)).2) ∧
       (keq k k = true → ∃ c'', Get k c' = Some (c'', (v, true))) ∧
       (keq k k = false → Get k c' = Some (c', (zero, false))) ∧
       Get (key victim) c' = Some (c', (zero, false))) ∧
  then_run [] [OpPut "a" 1%Z; OpPut "b" 2%Z; OpGet "a"]
    (New 1 (Some recorder), no_calls []) =
  Some ([ObsPut None; ObsPut None; ObsGet 0%Z false], [("a", 1%Z)]).
Proof.
  split; [|by vm_compute].
  intros c w k v cb Hr Hfull Hpos Hk Hev.
  destruct (Put_full_new_key c w k v cb) as (victim & c' & ? & ? & ? & ?);
    try done; [by eapply reachable_wf|].
  exists victim, c'. conjs; try done.
  intros Hkk. apply Get_miss.
  destruct (map_get k (keys c')) as [i|] eqn:Hg; [|done].
  apply map_get_refl in Hg. congruence.
Qed.
End claims.

(** * The scenarios of the specification *)

Section scenarios.
Local Open Scope Z_scope.

(** C2.  Capacity 2, no callback: put(a,1); put(b,2); get(a) returns
    (1,true); the slot at [tail] then holds b, and put(c,3) removes b
    and keeps a; get(b) misses with the zero value, get(a) returns
    (1,true) and get(c) returns (3,true). *)
Theorem C2_recency_scenario :
  let fresh : state string Z string unit := (New 2 None, no_calls tt) in
  then_run []
    [OpPut "a" 1; OpPut "b" 2; OpGet "a"; OpPut "c" 3;
     OpGet "b"; OpGet "a"; OpGet "c"] fresh =
  Some ([ObsPut None; ObsPut None; ObsGet 1 true; ObsPut None;
         ObsGet 0 false; ObsGet 1 true; ObsGet 3 true], []) ∧
  ('(st, _) ← run [OpPut "a" 1; OpPut "b" 2; OpGet "a"] fresh;
   victim ← data st.1 !! tail st.1;
   Some (key victim, len st.1)) = Some ("b", 2%nat) ∧
  ('(st, _) ← run [OpPut "a" 1; OpPut "b" 2; OpGet "a"; OpPut "c" 3] fresh;
   Some (map_get "b" (keys st.1), map_get "a" (keys st.1),
         map_get "c" (keys st.1), entries st.1)) =
  Some (None, Some 0%nat, Some 1%nat, [("a", 1); ("c", 3)]).
Proof. by vm_compute. Qed.

(** C1 (the code departs from it).  Capacity 2 with a recording
    callback.  After put(a,1); put(b,2); put(c,3) - which evicts a - and
    Clear, the calls put(x,1); put(y,2); put(z,3) evict y, the entry
    used last, and get(x) hits while get(y) misses.  The same calls on a
    fresh cache evict x, and get(x) misses while get(y) hits. *)
Theorem C1_cleared_cache_evicts_newest :
  let fresh : state string Z string (list (string * Z)) :=
    (New 2 (Some recorder), no_calls []) in
  let reuse := [OpPut "x" 1; OpPut "y" 2; OpPut "z" 3;
                OpGet "x"; OpGet "y"] in
  then_run [OpPut "a" 1; OpPut "b" 2; OpPut "c" 3; OpClear] reuse fresh =
  Some ([ObsPut None; ObsPut None; ObsPut None;
         ObsGet 1 true; ObsGet 0 false],
        [("a", 1); ("c", 3); ("b", 2); ("y", 2)]) ∧
  then_run [] reuse fresh =
  Some ([ObsPut None; ObsPut None; ObsPut None;
         ObsGet 0 false; ObsGet 2 true],
        [("x", 1)]).
Proof. by vm_compute. Qed.

(** ** The general properties at concrete caches *)

Lemma full_one_reachable :
  reachable (full_one failing, no_calls []).
Proof.
  exists 1%nat, (Some failing), (no_calls []), [OpPut "a" 1], [ObsPut None].
  by vm_compute.
Defined.

Lemma full_two_reachable : reachable (full_two, no_calls tt).
Proof.
  exists 2%nat, None, (no_calls tt), [OpPut "a" 1; OpPut "b" 2],
    [ObsPut None; ObsPut None].
  by vm_compute.
Defined.

Lemma full_two_failing_reachable :
  reachable (full_two_failing, no_calls []).
Proof.
  exists 2%nat, (Some failing), (no_calls []), [OpPut "a" 1; OpPut "b" 2],
    [ObsPut None; ObsPut None].
  by vm_compute.
Defined.

(** C3 at capacity 2: fill, touch, evict, clear and fill again. *)
Lemma C3_witness :
  ∃ c w out,
    run [OpPut "a" 1; OpPut "b" 2; OpGet "a"; OpPut "c" 3; OpClear;
         OpPut "d" 4]
      (New (E:=string) 2 None, no_calls tt) = Some ((c, w), out) ∧
    cap c = 2%nat ∧
    map_len (keys c) = len c ∧
    (len c ≤ 2)%nat ∧
    (∀ a i, found (keys c) !! a = Some i →
            (i < len c)%nat ∧ ∃ n, data c !! i = Some n ∧
                                   ident_of (key n) = Some a) ∧
    (∀ (k : string) i, map_get k (keys c) = Some i →
            (i < len c)%nat ∧
            ∃ n, data c !! i = Some n ∧ keq (key n) k = true) ∧
    (∀ (k1 k2 : string) i, map_get k1 (keys c) = Some i →
                map_get k2 (keys c) = Some i → keq k1 k2 = true) ∧
    (map_len (keys c) ≤ 2)%nat.
Proof.
  apply (C3_index_invariant (E:=string) 2 None (no_calls tt)
           [OpPut "a" 1; OpPut "b" 2; OpGet "a"; OpPut "c" 3; OpClear;
            OpPut "d" 4]).
  reflexivity.
Defined.

(** C3 as the specification has it fails for a key that does not equal
    itself.  Capacity 2, [float64] keys: after put(NaN,1); put(NaN,2);
    put(NaN,3) the key index has three entries, while [len] and the
    capacity are 2 and two entries are held. *)
Lemma C3_counterexample :
  ('(st, _) ← run [OpPut NaN 1; OpPut NaN 2; OpPut NaN 3]
                (New (E:=string) 2 None, no_calls tt);
   Some (map_len (keys st.1), len st.1, cap st.1, entries st.1)) =
  Some (3%nat, 2%nat, 2%nat, [(NaN, 3); (NaN, 2)]).
Proof. by vm_compute. Qed.

(** C4 at the full capacity-1 cache with the failing callback: the
    callback sees (a,1), its error comes back, and b has replaced a. *)
Lemma C4_witness :
  ∃ victim c',
    data (full_one failing) !! tail (full_one failing) = Some victim ∧
    Put "b" 2 (full_one failing) (no_calls []) =
      Some (c',
            {| env := (failing [] (key victim) (val victim)).1;
               calls := [] ++ [(key victim, val victim)] |},
            (failing [] (key victim) (val victim)).2) ∧
    (keq "b" "b" = true → ∃ c'', Get "b" c' = Some (c'', (2, true))) ∧
    (keq "b" "b" = false → Get "b" c' = Some (c', (zero, false))) ∧
    Get (key victim) c' = Some (c', (zero, false)).
Proof.
  apply (proj1 (C4_eviction_reports_and_completes (E:=string))
           (full_one failing) (no_calls []) "b" 2 failing).
  - exact full_one_reachable.
  - reflexivity.
  - simpl. lia.
  - by vm_compute.
  - reflexivity.
Defined.

(** C4 as the specification has it fails for a key that does not equal
    itself.  Capacity 1, [float64] keys, a recording callback: after
    put(1,1) the cache is full; put(NaN,2) calls the callback once, on
    (1,1), and returns nil; get(NaN) then misses. *)
Lemma C4_counterexample :
  then_run [OpPut (Float false 1) 1] [OpPut NaN 2; OpGet NaN]
    (New 1 (Some float_recorder), no_calls []) =
  Some ([ObsPut None; ObsGet 0 false], [(Float false 1, 1)]).
Proof. by vm_compute. Qed.

(** C7 at a fresh capacity-2 cache. *)
Lemma C7_witness :
  Get "a" (New (E:=string) (Env:=unit) 2 None) =
  Some (New 2 None, (zero, false)).
Proof.
  apply (C7_get_miss_is_noop (New (E:=string) (Env:=unit) 2 None) "a").
  by vm_compute.
Defined.

(** C6 at the full capacity-2 cache with the failing callback. *)
Lemma C6_witness :
  ∃ c' w' err,
    Clear full_two_failing (no_calls []) = Some (c', w', err) ∧
    len c' = 0%nat ∧
    keys c' = map_empty ∧
    match evict full_two_failing with
    | Some cb =>
        let rs := replies cb (take (len full_two_failing)
                                (data full_two_failing)) [] in
        calls w' = [] ++ entries full_two_failing ∧
        length rs = len full_two_failing ∧
        leaves_opt err = concat (leaves_opt <$> rs) ∧
        (err = None ↔ Forall (λ r, r = None) rs) ∧
        (∀ e, err = Some e → ∃ l, e = joinError l)
    | None => w' = no_calls [] ∧ err = None
    end ∧
    ∃ c'', Clear c' w' = Some (c'', w', None) ∧ len c'' = 0%nat.
Proof.
  apply (C6_clear_notifies_and_resets full_two_failing (no_calls [])).
  exact full_two_failing_reachable.
Defined.

(** C8 at the full capacity-2 cache. *)
Lemma C8_witness :
  length (entries full_two) = len full_two ∧
  (∀ i, (i < len full_two)%nat →
        entries full_two !! i = entry <$> data full_two !! i) ∧
  All full_two (λ acc k v, collect (λ _, true) acc (k, v)) [] =
    Some (entries full_two) ∧
  Keys full_two (collect (λ _, true)) [] = Some ((entries full_two).*1) ∧
  Values full_two (collect (λ _, true)) [] = Some ((entries full_two).*2) ∧
  (∀ more, ∃ j, stops more (entries full_two) j ∧
     step (OpAll more) (full_two, no_calls tt) =
       Some ((full_two, no_calls tt),
             ObsAll (E:=string) (take j (entries full_two)))) ∧
  (∀ more, ∃ j, stops more (entries full_two).*1 j ∧
     step (OpKeys more) (full_two, no_calls tt) =
       Some ((full_two, no_calls tt),
             ObsKeys (V:=Z) (E:=string) (take j (entries full_two).*1))) ∧
  (∀ more, ∃ j, stops more (entries full_two).*2 j ∧
     step (OpValues more) (full_two, no_calls tt) =
       Some ((full_two, no_calls tt),
             ObsValues (K:=string) (E:=string)
               (take j (entries full_two).*2))).
Proof.
  apply (C8_iterators_enumerate_active_slots full_two (no_calls tt)).
  exact full_two_reachable.
Defined.
End scenarios.

(** * The recency list *)

(** ** Chains of links *)

Section chains.
Implicit Types (N L order : list nat).

Lemma linked_cons_cons N L a b rest :
  linked N L (a :: b :: rest) ↔
  N !! a = Some b ∧ L !! b = Some a ∧ linked N L (b :: rest).
Proof. simpl. tauto. Qed.

Lemma linked_app N L l1 l2 :
  linked N L (l1 ++ l2) ↔
  linked N L l1 ∧ linked N L l2 ∧
  (∀ a b, list.last l1 = Some a → hd_error l2 = Some b →
          N !! a = Some b ∧ L !! b = Some a).
Proof.
  induction l1 as [|a l1 IH].
  - cbn [app linked]. split; [intros ?; split; [done|]; split; done | tauto].
  - destruct l1 as [|a' l1].
    + destruct l2 as [|b l2].
      * cbn. split; [intros _; split; [done|]; split; done | done].
      * change ([a] ++ b :: l2) with (a :: b :: l2).
        rewrite linked_cons_cons. split.
        -- intros (? & ? & ?). split; [done|]. split; [done|].
           by intros ? ? [= <-] [= <-].
        -- intros (_ & ? & Hj). destruct (Hj a b) as [? ?]; done.
    + change ((a :: a' :: l1) ++ l2) with (a :: a' :: (l1 ++ l2)).
      rewrite !linked_cons_cons, last_cons_cons.
      change (a' :: l1 ++ l2) with ((a' :: l1) ++ l2).
      rewrite IH. tauto.
Qed.

(** The [next] of a slot outside the chain is not read. *)
Lemma linked_insert_next N L order x y :
  x ∉ order → linked N L order → linked (<[x := y]> N) L order.
Proof.
  induction order as [|a rest IH]; [done|].
  destruct rest as [|b rest]; [done|].
  rewrite !linked_cons_cons. intros Hx (? & ? & ?).
  conjs; [|done|].
  - rewrite list_lookup_insert_ne; [done|].
    intros ->. apply Hx, list_elem_of_here.
  - apply IH; [|done]. intros ?. by apply Hx, list_elem_of_further.
Qed.

(** Nor is the [last] of a slot outside the chain. *)
Lemma linked_insert_last N L order x y :
  x ∉ order → linked N L order → linked N (<[x := y]> L) order.
Proof.
  induction order as [|a rest IH]; [done|].
  destruct rest as [|b rest]; [done|].
  rewrite !linked_cons_cons. intros Hx (? & ? & ?).
  conjs; [done| |].
  - rewrite list_lookup_insert_ne; [done|].
    intros ->. apply Hx, list_elem_of_further, list_elem_of_here.
  - apply IH; [|done]. intros ?. by apply Hx, list_elem_of_further.
Qed.

(** The [next] of the slot that ends the chain is not read. *)
Lemma linked_insert_next_end N L order x y :
  NoDup (order ++ [x]) →
  linked N L (order ++ [x]) → linked (<[x := y]> N) L (order ++ [x]).
Proof.
  rewrite NoDup_app, !linked_app. intros (_ & Hd & _) (? & _ & Hj).
  conjs; [|done|].
  - apply linked_insert_next; [|done]. intros ?. by eapply Hd, list_elem_of_here.
  - intros a b Ha [= <-]. destruct (Hj a x Ha) as [? ?]; [done|].
    split; [|done]. rewrite list_lookup_insert_ne; [done|].
    intros <-. eapply Hd; [|apply list_elem_of_here].
    by eapply last_Some_elem_of.
Qed.

(** The [last] of the slot that starts the chain is not read. *)
Lemma linked_insert_last_start N L order x y :
  NoDup (x :: order) →
  linked N L (x :: order) → linked N (<[x := y]> L) (x :: order).
Proof.
  rewrite NoDup_cons. intros [Hx _]. destruct order as [|b rest]; [done|].
  rewrite !linked_cons_cons. intros (? & ? & ?). conjs; [done| |].
  - rewrite list_lookup_insert_ne; [done|].
    intros ->. apply Hx, list_elem_of_here.
  - by apply linked_insert_last.
Qed.

(** Putting a slot in front of a chain that starts at [h]. *)
Lemma chain_push N L order x h :
  NoDup (x :: order) →
  (∀ h', hd_error order = Some h' → h' = h) →
  x < length N → h < length L →
  linked N L order →
  linked (<[x := h]> N) (<[h := x]> L) (x :: order).
Proof.
  intros Hnd Hh Hx Hl Hlk. destruct order as [|h' rest]; [done|].
  rewrite (Hh h' eq_refl) in *. rewrite linked_cons_cons. conjs.
  - by apply list_lookup_insert_eq.
  - by apply list_lookup_insert_eq.
  - apply NoDup_cons in Hnd as [Hx' Hnd].
    apply linked_insert_next; [done|]. by apply linked_insert_last_start.
Qed.

(** Moving the slot that ends a chain to its front: the slot before it
    becomes the end. *)
Lemma chain_move_end N L pre t h :
  NoDup (pre ++ [t]) →
  hd_error pre = Some h →
  t < length N → h < length L →
  linked N L (pre ++ [t]) →
  linked (<[t := h]> N) (<[h := t]> L) (t :: pre) ∧
  L !! t = list.last pre.
Proof.
  intros Hnd Hh Ht Hl Hlk.
  apply linked_app in Hlk as (Hpre & _ & Hj).
  assert (is_Some (list.last pre)) as [a Ha].
  { apply last_is_Some. by intros ->. }
  destruct (Hj a t Ha eq_refl) as [_ HL]. split; [|by rewrite Ha].
  apply chain_push; try done.
  - apply NoDup_app in Hnd as (? & Hd & _). apply NoDup_cons. split; [|done].
    intros ?. by eapply Hd, list_elem_of_here.
  - intros h'. rewrite Hh. by intros [= <-].
Qed.

(** Moving a slot from inside a chain to its front: its two neighbours
    are linked to each other. *)
Lemma chain_move_mid N L pre i post h n :
  NoDup (pre ++ i :: post) →
  hd_error pre = Some h →
  post ≠ [] →
  length N = n → length L = n →
  Forall (λ a, a < n) (pre ++ i :: post) →
  linked N L (pre ++ i :: post) →
  ∃ p q,
    L !! i = Some p ∧ N !! i = Some q ∧
    linked (<[i := h]> (<[p := q]> N)) (<[h := i]> (<[q := p]> L))
      (i :: pre ++ post).
Proof.
  intros Hnd Hh Hpost HN HL Hlt Hlk.
  assert (is_Some (list.last pre)) as [p Hp].
  { apply last_is_Some. by intros ->. }
  destruct post as [|q post]; [done|].
  apply linked_app in Hlk as (Hpre & Hipost & Hj).
  destruct (Hj p i Hp eq_refl) as [HNp HLi].
  apply linked_cons_cons in Hipost as (HNi & HLq & Hpost').
  exists p, q. split; [done|]. split; [done|].
  apply NoDup_app in Hnd as (Hndpre & Hd & Hndi).
  apply NoDup_cons in Hndi as [Hi Hndpost].
  assert (p ∈ pre) as Hpin by (by eapply last_Some_elem_of).
  assert (h ∈ pre) as Hhin by (by eapply head_Some_elem_of).
  assert (i ∉ pre) as Hipre.
  { intros ?. by eapply Hd, list_elem_of_here. }
  assert (∀ x, x ∈ pre → x ∉ q :: post) as Hd'.
  { intros x Hx Hx'. by eapply Hd, list_elem_of_further. }
  apply Forall_app in Hlt as [Hltpre Hlti].
  apply Forall_cons in Hlti as [Hilt Hltpost].
  apply Forall_cons in Hltpost as [Hqlt _].
  assert (p < n) as Hplt by (by eapply (proj1 (Forall_forall _ _) Hltpre)).
  assert (h < n) as Hhlt by (by eapply (proj1 (Forall_forall _ _) Hltpre)).
  apply (chain_push _ _ (pre ++ q :: post) i h).
  - apply NoDup_cons. split.
    + rewrite elem_of_app. intros [?|?]; [done|]. done.
    + apply NoDup_app. done.
  - intros h'. destruct pre; [done|]. simpl in *. congruence.
  - rewrite length_insert. lia.
  - rewrite length_insert. lia.
  - apply linked_app. conjs.
    + destruct (last_Some pre p) as [[pre' ->] _]; [done|].
      apply linked_insert_next_end; [done|].
      apply linked_insert_last; [|done].
      intros Hq. by apply (Hd' q Hq), list_elem_of_here.
    + apply linked_insert_next; [by apply Hd'|].
      by apply linked_insert_last_start.
    + intros a b Ha [= <-]. rewrite Hp in Ha. injection Ha as <-.
      split; apply list_lookup_insert_eq; lia.
Qed.
End chains.

(** ** The links written by the operations *)

Section link_facts.
Context {K : Type} `{Comparable K} {V E Env : Type}.
Context `{Zero K} `{Zero V}.
Implicit Types (k : K).
Implicit Types (c : Cache K V E Env) (d : list (node K V)) (n : node K V).
Implicit Types (w : World K V Env).

Lemma modify_set_next j x d d' :
  modify j (set_next x) d = Some d' →
  next <$> d' = <[j := x]> (next <$> d) ∧ last <$> d' = last <$> d ∧
  ∀ i n, d !! i = Some n →
    ∃ n', d' !! i = Some n' ∧ last n' = last n ∧
          next n' = if decide (i = j) then x else next n.
Proof.
  unfold modify. destruct (d !! j) as [n0|] eqn:Hj; [|done].
  intros [= <-]. conjs.
  - by rewrite list_fmap_insert.
  - by eapply fmap_insert_same.
  - intros i n Hi. destruct (decide (i = j)) as [->|Hne].
    + exists (set_next x n0). rewrite list_lookup_insert_eq
        by (by eapply lookup_lt_Some). rewrite Hj in Hi. by injection Hi as <-.
    + exists n. by rewrite list_lookup_insert_ne.
Qed.

Lemma modify_set_last j x d d' :
  modify j (set_last x) d = Some d' →
  next <$> d' = next <$> d ∧ last <$> d' = <[j := x]> (last <$> d).
Proof.
  unfold modify. destruct (d !! j) as [n0|] eqn:Hj; [|done].
  intros [= <-]. conjs.
  - by eapply fmap_insert_same.
  - by rewrite list_fmap_insert.
Qed.

(** What [promote] writes: nothing when [i] is the head; otherwise [i]
    becomes the head, in front of the old one, after it is taken off the
    end of the list or out of its middle. *)
Lemma promote_links i c c' :
  promote i c = Some c' →
  (i = head c ∧ c' = c) ∨
  (i ≠ head c ∧ head c' = i ∧
   ∃ p q,
     (last <$> data c) !! i = Some p ∧ (next <$> data c) !! i = Some q ∧
     ((i = tail c ∧ tail c' = p ∧
       next <$> data c' = <[i := head c]> (next <$> data c) ∧
       last <$> data c' = <[head c := i]> (last <$> data c)) ∨
      (i ≠ tail c ∧ tail c' = tail c ∧
       next <$> data c' = <[i := head c]> (<[p := q]> (next <$> data c)) ∧
       last <$> data c' =
         <[head c := i]> (<[q := p]> (last <$> data c))))).
Proof.
  unfold promote. destruct (data c !! i) as [ptr|] eqn:Hptr; [|done]. simpl.
  destruct (decide (i = head c)) as [Hh|Hh]; [intros [= <-]; by left|].
  intros Hp. right. split; [done|].
  assert ((last <$> data c) !! i = Some (last ptr)) as HL
    by (by rewrite list_lookup_fmap, Hptr).
  assert ((next <$> data c) !! i = Some (next ptr)) as HN
    by (by rewrite list_lookup_fmap, Hptr).
  destruct (decide (i = tail c)) as [Ht|Ht]; simpl in Hp.
  - destruct (modify i (set_next (head c)) (data c)) as [d3|] eqn:E3;
      [|done]. simpl in Hp.
    destruct (modify (head c) (set_last i) d3) as [d4|] eqn:E4; [|done].
    injection Hp as <-. simpl.
    apply modify_set_next in E3 as (N3 & L3 & _).
    apply modify_set_last in E4 as (N4 & L4).
    split; [done|]. exists (last ptr), (next ptr).
    split; [done|]. split; [done|]. left. conjs; try done; congruence.
  - destruct (modify (last ptr) (set_next (next ptr)) (data c))
      as [d1|] eqn:E1; [|done]. simpl in Hp.
    apply modify_set_next in E1 as (N1 & L1 & Hsame).
    destruct (Hsame i ptr Hptr) as (ptr1 & Hptr1 & Hl1 & Hn1).
    rewrite Hptr1 in Hp. simpl in Hp.
    assert (next ptr1 = next ptr) as Hn1'.
    { rewrite Hn1. by case_decide. }
    rewrite Hn1', Hl1 in Hp.
    destruct (modify (next ptr) (set_last (last ptr)) d1) as [d2|] eqn:E2;
      [|done]. simpl in Hp.
    destruct (modify i (set_next (head c)) d2) as [d3|] eqn:E3; [|done].
    simpl in Hp.
    destruct (modify (head c) (set_last i) d3) as [d4|] eqn:E4; [|done].
    injection Hp as <-. simpl.
    apply modify_set_last in E2 as (N2 & L2).
    apply modify_set_next in E3 as (N3 & L3 & _).
    apply modify_set_last in E4 as (N4 & L4).
    split; [done|]. exists (last ptr), (next ptr).
    split; [done|]. split; [done|]. right. conjs; try done; congruence.
Qed.

(** ** [promote] reorders the recency list *)

Lemma recency_NoDup c order : recency c order → NoDup order.
Proof. intros [Hp _ _ _]. rewrite Hp. apply NoDup_seq. Qed.

Lemma recency_lt c order a : recency c order → a ∈ order → a < len c.
Proof. intros [Hp _ _ _]. rewrite Hp, elem_of_seq. lia. Qed.

Lemma recency_length c order : recency c order → length order = len c.
Proof. intros [Hp _ _ _]. by rewrite Hp, length_seq. Qed.

Lemma promote_recency i c c' order :
  length (data c) = cap c → (0 < cap c → head c < cap c) → len c ≤ cap c →
  recency c order → i ∈ order →
  promote i c = Some c' → len c' = len c →
  ∃ pre post, order = pre ++ i :: post ∧ recency c' (i :: pre ++ post).
Proof.
  intros Hd Hh Hle Hrc Hi Hp Hlen.
  pose proof (recency_NoDup c order Hrc) as Hnd.
  assert (Forall (λ a, a < cap c) order) as Hlt.
  { apply Forall_forall. intros a Ha.
    pose proof (recency_lt c order a Hrc Ha). lia. }
  destruct Hrc as [Hperm Hlk Hhd Htl].
  destruct (list_elem_of_split order i Hi) as (pre & post & ->).
  exists pre, post. split; [done|].
  assert (i :: pre ++ post ≡ₚ seq 0 (len c')) as Hperm'.
  { rewrite Hlen, <- Hperm. apply Permutation_middle. }
  assert (i < cap c) as Hic.
  { apply (proj1 (Forall_forall _ _) Hlt). rewrite elem_of_app.
    right. apply list_elem_of_here. }
  pose proof Hnd as Hnd0.
  apply NoDup_app in Hnd as (Hndpre & Hdis & Hndi).
  apply NoDup_cons in Hndi as [Hipost Hndpost].
  assert (i ∉ pre) as Hipre.
  { intros ?. by eapply Hdis, list_elem_of_here. }
  destruct (promote_links i c c' Hp)
    as [[Hih ->]|(Hih & Hh' & p & q & HLi & HNi & Hcase)].
  - (* [i] is the head already *)
    destruct pre as [|h pre].
    + by constructor.
    + exfalso. apply Hipre. rewrite Hih, <- (Hhd h eq_refl).
      apply list_elem_of_here.
  - destruct pre as [|h pre].
    { exfalso. apply Hih. by apply Hhd. }
    pose proof (Hhd h eq_refl) as ->.
    assert (head c < cap c) as Hhc by (apply Hh; lia).
    destruct Hcase as [(Hit & Ht' & HN' & HL')|(Hit & Ht' & HN' & HL')].
    + (* [i] is the tail *)
      assert (post = []) as ->.
      { destruct (decide (post = [])) as [|Hne]; [done|]. exfalso.
        apply last_is_Some in Hne as [t Hlast].
        rewrite last_app_cons, last_cons, Hlast in Htl. simpl in Htl.
        apply Hipost. rewrite Hit, <- Htl. by eapply last_Some_elem_of. }
      rewrite app_nil_r.
      destruct (chain_move_end (next <$> data c) (last <$> data c)
                  (head c :: pre) i (head c)) as [Hlk' Hlast];
        [done | done | rewrite length_fmap; lia | rewrite length_fmap; lia
        | done |].
      constructor.
      * by rewrite app_nil_r in Hperm'.
      * by rewrite HN', HL'.
      * intros h'. by intros [= <-].
      * rewrite Ht'. rewrite HLi in Hlast.
        rewrite last_cons. by rewrite <- Hlast.
    + (* [i] is inside the list *)
      assert (post ≠ []) as Hne.
      { intros ->. apply Hit. rewrite <- Htl. by rewrite last_snoc. }
      destruct (chain_move_mid (next <$> data c) (last <$> data c)
                  (head c :: pre) i post (head c) (cap c))
        as (p' & q' & HLi' & HNi' & Hlk');
        [done | done | done | by rewrite length_fmap
        | by rewrite length_fmap | done | done |].
      rewrite HLi in HLi'. rewrite HNi in HNi'.
      injection HLi' as <-. injection HNi' as <-.
      constructor.
      * done.
      * by rewrite HN', HL'.
      * intros h'. by intros [= <-].
      * rewrite Ht', <- Htl.
        apply last_is_Some in Hne as [t Hlast].
        change (i :: (head c :: pre) ++ post)
          with ((i :: head c :: pre) ++ post).
        rewrite !last_app, (last_cons i post), Hlast. done.
Qed.

(** The recency list only depends on the links, the cursors and [len]. *)
Lemma recency_ext c c' order :
  len c' = len c → head c' = head c → tail c' = tail c →
  next <$> data c' = next <$> data c →
  last <$> data c' = last <$> data c →
  recency c order → recency c' order.
Proof.
  intros Hl Hh Ht HN HL [? ? ? ?].
  constructor; rewrite ?Hl, ?Hh, ?Ht, ?HN, ?HL; done.
Qed.

(** ** Reading the entries along the recency list *)

Lemma entry_fmap_ext d d' :
  key <$> d' = key <$> d → val <$> d' = val <$> d →
  entry <$> d' = entry <$> d.
Proof.
  intros Hk Hv. apply list_eq. intros j.
  assert ((key <$> d') !! j = (key <$> d) !! j) as Hkj by (by rewrite Hk).
  assert ((val <$> d') !! j = (val <$> d) !! j) as Hvj by (by rewrite Hv).
  rewrite !list_lookup_fmap in Hkj. rewrite !list_lookup_fmap in Hvj.
  rewrite !list_lookup_fmap. unfold entry.
  destruct (d' !! j) as [n'|], (d !! j) as [n|]; simpl in *; congruence.
Qed.

Lemma read_ext c c' order :
  entry <$> data c' = entry <$> data c → read c' order = read c order.
Proof. intros He. unfold read. by rewrite He. Qed.

(** A write to a slot that is not on the list is not seen. *)
Lemma read_insert c c' order x e :
  entry <$> data c' = <[x := e]> (entry <$> data c) →
  x ∉ order → read c' order = read c order.
Proof.
  intros He Hx. unfold read. rewrite He. apply list_fmap_ext.
  intros j a Ha. rewrite list_lookup_insert_ne; [done|].
  intros <-. apply Hx. by eapply list_elem_of_lookup_2.
Qed.

Lemma read_app c o1 o2 : read c (o1 ++ o2) = read c o1 ++ read c o2.
Proof. unfold read. by rewrite fmap_app. Qed.

Lemma read_elem c order (l : list (K * V)) p :
  read c order = Some <$> l → p ∈ l →
  ∃ a, a ∈ order ∧ (entry <$> data c) !! a = Some p.
Proof.
  intros Hr Hp. apply list_elem_of_lookup_1 in Hp as [j Hj].
  assert (read c order !! j = Some (Some p)) as Hj'
    by (by rewrite Hr, list_lookup_fmap, Hj).
  unfold read in Hj'. rewrite list_lookup_fmap in Hj'.
  destruct (order !! j) as [a|] eqn:Ha; [|done].
  exists a. split; [by eapply list_elem_of_lookup_2|].
  by injection Hj'.
Qed.

Lemma read_length c order (l : list (K * V)) :
  read c order = Some <$> l → length l = length order.
Proof.
  intros Hr. apply (f_equal length) in Hr. unfold read in Hr.
  rewrite !length_fmap in Hr. done.
Qed.

(** ** The list model *)

Lemma extract_None (k : K) (l : list (K * V)) :
  Forall (λ p, keq p.1 k = false) l → extract k l = None.
Proof.
  induction l as [|[k' v'] l IH]; [done|]. csimpl.
  intros [Hk Hl]%Forall_cons. simpl in Hk. rewrite Hk.
  by rewrite IH.
Qed.

Lemma extract_middle (k k0 : K) (v : V) (l1 l2 : list (K * V)) :
  Forall (λ p, keq p.1 k = false) l1 → keq k0 k = true →
  extract k (l1 ++ (k0, v) :: l2) = Some ((k0, v), l1 ++ l2).
Proof.
  intros Hl Hk. induction l1 as [|[k' v'] l1 IH]; csimpl.
  - by rewrite Hk.
  - apply Forall_cons in Hl as [Hk' Hl]. simpl in Hk'. rewrite Hk'.
    by rewrite IH.
Qed.

(** ** The entries along the recency list and the key index *)

Lemma entry_lookup d a (p : K * V) :
  (entry <$> d) !! a = Some p →
  (key <$> d) !! a = Some p.1 ∧ (val <$> d) !! a = Some p.2.
Proof.
  rewrite !list_lookup_fmap. destruct (d !! a) as [n|]; [|done].
  by intros [= <-].
Qed.

Lemma entry_insert d d' i (k : K) (v : V) :
  key <$> d' = <[i := k]> (key <$> d) →
  val <$> d' = <[i := v]> (val <$> d) →
  entry <$> d' = <[i := (k, v)]> (entry <$> d).
Proof.
  intros Hk Hv. apply list_eq. intros j.
  assert ((key <$> d') !! j = <[i := k]> (key <$> d) !! j) as Hkj
    by (by rewrite Hk).
  assert ((val <$> d') !! j = <[i := v]> (val <$> d) !! j) as Hvj
    by (by rewrite Hv).
  destruct (decide (j = i)) as [->|Hne].
  - destruct (decide (i < length d)) as [Hi|Hi].
    + rewrite list_lookup_insert_eq in Hkj by (by rewrite length_fmap).
      rewrite list_lookup_insert_eq in Hvj by (by rewrite length_fmap).
      rewrite list_lookup_insert_eq by (by rewrite length_fmap).
      rewrite list_lookup_fmap in Hkj. rewrite list_lookup_fmap in Hvj.
      rewrite list_lookup_fmap. unfold entry.
      destruct (d' !! i) as [n'|]; simpl in *; congruence.
    + rewrite list_insert_ge in Hkj by (rewrite length_fmap; lia).
      rewrite list_insert_ge by (rewrite length_fmap; lia).
      rewrite !list_lookup_fmap in Hkj. rewrite !list_lookup_fmap.
      rewrite (lookup_ge_None_2 d i) in * by lia.
      destruct (d' !! i); [done|done].
  - rewrite list_lookup_insert_ne in Hkj by done.
    rewrite list_lookup_insert_ne in Hvj by done.
    rewrite list_lookup_insert_ne by done.
    rewrite !list_lookup_fmap in Hkj. rewrite !list_lookup_fmap in Hvj.
    rewrite !list_lookup_fmap. unfold entry.
    destruct (d' !! j) as [n'|], (d !! j) as [n|]; simpl in *; congruence.
Qed.

(** An active slot whose key equals [k] is the slot a lookup of [k]
    finds. *)
Lemma wf_found_key c k k0 i :
  wf c → i < len c → (key <$> data c) !! i = Some k0 → keq k0 k = true →
  map_get k (keys c) = Some i.
Proof.
  intros Hwf Hi Hs Hk. rewrite list_lookup_fmap in Hs.
  destruct (data c !! i) as [n|] eqn:Hn; [|done]. injection Hs as <-.
  by eapply wf_found.
Qed.

(** A key that is not indexed equals no key on the list. *)
Lemma refines_miss c order (l : list (K * V)) k :
  wf c → recency c order → read c order = Some <$> l →
  map_get k (keys c) = None → Forall (λ p, keq p.1 k = false) l.
Proof.
  intros Hwf Hrc Hrd Hk. apply Forall_forall. intros [k' v'] Hp. simpl.
  destruct (keq k' k) eqn:Hkk; [|done].
  destruct (read_elem c order l (k', v') Hrd Hp) as (a & Ha & He).
  apply entry_lookup in He as [Hka _].
  pose proof (recency_lt c order a Hrc Ha) as Hlt.
  pose proof (wf_found_key c k k' a Hwf Hlt Hka Hkk). congruence.
Qed.

(** The list splits where the slot [i] is on the recency list. *)
Lemma read_split c pre post (l : list (K * V)) i :
  read c (pre ++ i :: post) = Some <$> l →
  ∃ e lpre lpost,
    l = lpre ++ e :: lpost ∧
    read c pre = Some <$> lpre ∧ read c post = Some <$> lpost ∧
    (entry <$> data c) !! i = Some e.
Proof.
  intros Hrd. rewrite read_app in Hrd. symmetry in Hrd.
  apply fmap_app_inv in Hrd as (lpre & lrest & Hpre & Hrest & ->).
  change (read c (i :: post))
    with ((entry <$> data c) !! i :: read c post) in Hrest.
  destruct lrest as [|e lpost]; [done|].
  csimpl in Hrest. injection Hrest as He Hpost.
  by exists e, lpre, lpost.
Qed.

(** The entry of an indexed key sits where its slot is on the list, and
    no key before it equals the key. *)
Lemma refines_locate c pre post (l : list (K * V)) k i :
  wf c → recency c (pre ++ i :: post) →
  read c (pre ++ i :: post) = Some <$> l →
  map_get k (keys c) = Some i →
  ∃ k0 v0 lpre lpost,
    l = lpre ++ (k0, v0) :: lpost ∧
    read c pre = Some <$> lpre ∧ read c post = Some <$> lpost ∧
    (entry <$> data c) !! i = Some (k0, v0) ∧
    keq k0 k = true ∧
    Forall (λ p, keq p.1 k = false) lpre.
Proof.
  intros Hwf Hrc Hrd Hk.
  destruct (read_split c pre post l i Hrd)
    as ([k0 v0] & lpre & lpost & -> & Hpre & Hpost & He).
  destruct (wf_slot c k i Hwf Hk) as (n & _ & Hn & Hkn).
  pose proof (entry_lookup _ _ _ He) as [Hk0 _]. simpl in Hk0.
  rewrite list_lookup_fmap, Hn in Hk0. injection Hk0 as Hk0.
  exists k0, v0, lpre, lpost. conjs; try done; [by rewrite <- Hk0|].
  apply Forall_forall. intros [k' v'] Hp. simpl.
  destruct (keq k' k) eqn:Hkk; [|done]. exfalso.
  destruct (read_elem c pre lpre (k', v') Hpre Hp) as (a & Ha & Hea).
  apply entry_lookup in Hea as [Hka _]. simpl in Hka.
  assert (a ∈ pre ++ i :: post) as Ha' by (apply elem_of_app; by left).
  pose proof (recency_lt c _ a Hrc Ha') as Hlt.
  pose proof (wf_found_key c k k' a Hwf Hlt Hka Hkk) as Hidx.
  assert (a = i) as -> by congruence.
  pose proof (recency_NoDup c _ Hrc) as Hnd.
  apply NoDup_app in Hnd as (_ & Hdis & _).
  by eapply Hdis, list_elem_of_here.
Qed.

Lemma indexed_on_list c order k i :
  wf c → recency c order → map_get k (keys c) = Some i → i ∈ order.
Proof.
  intros Hwf [Hp _ _ _] Hk. destruct (wf_slot c k i Hwf Hk) as (n & Hil & _).
  rewrite Hp, elem_of_seq. lia.
Qed.

(** The slot at [tail] is on the list of a cache that holds an entry. *)
Lemma tail_on_list c order :
  recency c order → 0 < len c → tail c ∈ order.
Proof.
  intros Hrc Hpos. pose proof (recency_length c order Hrc) as Hlen.
  destruct Hrc as [_ _ _ Htl].
  destruct (list.last order) as [t|] eqn:Hlast.
  - simpl in Htl. subst t. by eapply last_Some_elem_of.
  - apply last_None in Hlast. subst order. simpl in Hlen. lia.
Qed.

(** ** [Get] and the list model *)

Lemma Get_refines (k : K) c l :
  refines c l →
  ∃ c', Get k c = Some (c', (model_get k l).2) ∧
        refines c' (model_get k l).1 ∧
        cap c' = cap c ∧ evict c' = evict c.
Proof.
  intros [Hwf (order & Hrc & Hrd)].
  destruct (map_get k (keys c)) as [i|] eqn:Hk.
  - destruct (Get_hit k i c Hwf Hk)
      as (n & c' & Hn & Hkn & HG & Hwf' & Hse & Hh).
    assert (promote i c = Some c') as Hp.
    { unfold Get in HG. rewrite Hk, Hn in HG. simpl in HG.
      destruct (promote i c); [|done]. simpl in HG. by injection HG as ->. }
    pose proof Hwf as [[Hd Hhd _ _] [Hle _ _]].
    pose proof Hse as [Hlen Hcap Hev _ Hkey Hval].
    destruct (promote_recency i c c' order Hd Hhd Hle Hrc
                (indexed_on_list c order k i Hwf Hrc Hk) Hp Hlen)
      as (pre & post & -> & Hrc').
    destruct (refines_locate c pre post l k i Hwf Hrc Hrd Hk)
      as (k0 & v0 & lpre & lpost & -> & Hpre & Hpost & He & Hk0 & Hnotin).
    assert (val n = v0) as <-.
    { rewrite list_lookup_fmap, Hn in He. by injection He. }
    unfold model_get. rewrite (extract_middle k k0) by done. simpl.
    exists c'. conjs; try done.
    split; [done|]. exists (i :: pre ++ post). split; [done|].
    rewrite (read_ext c c') by (by apply entry_fmap_ext).
    change (read c (i :: pre ++ post))
      with ((entry <$> data c) !! i :: read c (pre ++ post)).
    by rewrite read_app, He, Hpre, Hpost, <- fmap_app.
  - rewrite Get_miss by done.
    unfold model_get.
    rewrite extract_None by (by eapply refines_miss). simpl.
    exists c. conjs; try done. split; [done|]. by exists order.
Qed.

(** ** [Put] and the list model *)

Lemma Put_update_promote (k : K) (v : V) i c w r :
  cap c ≠ 0 → map_get k (keys c) = Some i → Put k v c w = Some r →
  ∃ n c', data c !! i = Some n ∧
          promote i (set_data (<[i := set_val v n]> (data c)) c) = Some c' ∧
          r = (c', w, None).
Proof.
  intros Hc Hk. unfold Put. rewrite decide_False by done. rewrite Hk.
  unfold modify. destruct (data c !! i) as [n|]; [|done]. simpl.
  destruct (promote i _) as [c'|] eqn:Hp; [|done]. simpl. intros [= <-].
  by exists n, c'.
Qed.

Lemma Put_insert_links (k : K) (v : V) c w c' w' err :
  cap c ≠ 0 → map_get k (keys c) = None → len c < cap c →
  Put k v c w = Some (c', w', err) →
  next <$> data c' = <[len c := head c]> (next <$> data c) ∧
  last <$> data c' = <[head c := len c]> (<[len c := 0]> (last <$> data c)).
Proof.
  intros Hc Hk Hlt. unfold Put. rewrite decide_False by done. rewrite Hk.
  rewrite decide_True by done. unfold store.
  destruct (decide (len c < length (data c))); [|done]. simpl.
  destruct (modify (head c) _ _) as [d2|] eqn:E2; [|done]. simpl.
  intros [= <- _ _]. simpl.
  apply modify_set_last in E2 as [-> ->].
  by rewrite !list_fmap_insert.
Qed.

Lemma Put_evict_promote (k : K) (v : V) c w r :
  cap c ≠ 0 → map_get k (keys c) = None → ¬ len c < cap c →
  Put k v c w = Some r →
  ∃ victim c',
    data c !! tail c = Some victim ∧
    promote (tail c)
      (set_keys (map_set k (tail c) (map_delete (key victim) (keys c)))
         (set_data (<[tail c := set_val v (set_key k victim)]> (data c)) c))
    = Some c' ∧
    r.1.1 = c'.
Proof.
  intros Hc Hk Hlt. unfold Put. rewrite decide_False by done. rewrite Hk.
  rewrite decide_False by done.
  destruct (data c !! tail c) as [victim|] eqn:Hv; [|done]. simpl.
  destruct (notify c (key victim) (val victim) w) as [w' err].
  unfold modify. rewrite Hv. simpl.
  destruct (promote (tail c) _) as [c'|] eqn:Hp; [|done]. simpl.
  intros [= <-]. by exists victim, c'.
Qed.

Lemma last_of_NoDup (pre post : list nat) t :
  NoDup (pre ++ t :: post) →
  default 0 (list.last (pre ++ t :: post)) = t →
  pre ++ t :: post ≠ [] → post = [].
Proof.
  intros Hnd Hl _. destruct (decide (post = [])) as [|Hne]; [done|].
  exfalso. apply last_is_Some in Hne as [x Hx].
  rewrite last_app_cons, last_cons, Hx in Hl. simpl in Hl. subst x.
  apply NoDup_app in Hnd as (_ & _ & Hnd). apply NoDup_cons in Hnd as [Hn _].
  apply Hn. by eapply last_Some_elem_of.
Qed.

Lemma Put_refines (k : K) (v : V) c l w :
  refines c l →
  ∃ c', Put k v c w =
          Some (c', (model_put (cap c) (evict c) k v l w).1.2,
                    (model_put (cap c) (evict c) k v l w).2) ∧
        refines c' (model_put (cap c) (evict c) k v l w).1.1 ∧
        cap c' = cap c ∧ evict c' = evict c.
Proof.
  intros [Hwf (order & Hrc & Hrd)].
  pose proof Hwf as [[Hd Hhd Htl _] [Hle _ _]].
  pose proof (read_length c order l Hrd) as Hll.
  rewrite (recency_length c order Hrc) in Hll.
  unfold model_put.
  destruct (decide (cap c = 0)) as [Hz|Hnz].
  { rewrite Put_zero by done. simpl. exists c. conjs; try done.
    split; [done|]. by exists order. }
  destruct (map_get k (keys c)) as [i|] eqn:Hk.
  - (* the key is cached *)
    destruct (Put_update k v i c w Hwf Hk)
      as (c' & HP & Hwf' & Hlen & Hcap & Hev & Hks & Hh & Hkey & Hval).
    destruct (Put_update_promote k v i c w _ Hnz Hk HP)
      as (n & c'' & Hn & Hp & Heq).
    injection Heq as <-.
    set (c0 := set_data (<[i := set_val v n]> (data c)) c) in *.
    assert (recency c0 order) as Hrc0.
    { apply (recency_ext c); try done; subst c0; simpl.
      - by eapply fmap_insert_same.
      - by eapply fmap_insert_same. }
    assert (length (data c0) = cap c0) as Hd0
      by (subst c0; simpl; by rewrite length_insert).
    destruct (promote_recency i c0 c' order Hd0 Hhd Hle Hrc0
                (indexed_on_list c order k i Hwf Hrc Hk) Hp Hlen)
      as (pre & post & -> & Hrc').
    destruct (refines_locate c pre post l k i Hwf Hrc Hrd Hk)
      as (k0 & v0 & lpre & lpost & -> & Hpre & Hpost & He & Hk0 & Hnotin).
    rewrite (extract_middle k k0) by done. simpl.
    exists c'. conjs; try done. split; [done|].
    exists (i :: pre ++ post). split; [done|].
    assert (entry <$> data c' = <[i := (k0, v)]> (entry <$> data c)) as He'.
    { apply entry_insert; [|done]. rewrite Hkey. symmetry.
      apply list_insert_id. by apply entry_lookup in He as [? _]. }
    pose proof (recency_NoDup c _ Hrc) as Hnd.
    apply NoDup_app in Hnd as (_ & Hdis & Hnd).
    apply NoDup_cons in Hnd as [Hipost _].
    change (read c' (i :: pre ++ post))
      with ((entry <$> data c') !! i :: read c' (pre ++ post)).
    rewrite read_app.
    rewrite (read_insert c c' pre i (k0, v)),
      (read_insert c c' post i (k0, v)); try done.
    + rewrite He', list_lookup_insert_eq.
      * by rewrite Hpre, Hpost, <- fmap_app.
      * apply lookup_lt_Some in He. done.
    + intros ?. by eapply Hdis, list_elem_of_here.
  - rewrite extract_None by (by eapply refines_miss).
    destruct (decide (len c < cap c)) as [Hlt|Hge].
    + (* a free slot *)
      rewrite decide_True by lia. simpl.
      destruct (Put_insert k v c w Hwf Hk Hlt)
        as (c' & HP & Hwf' & Hlen & Hcap & Hev & Hks & Hh & Ht & Hkey & Hval).
      destruct (Put_insert_links k v c w c' w None Hnz Hk Hlt HP) as [HN HL].
      exists c'. conjs; try done. split; [done|].
      exists (len c :: order).
      assert (len c ∉ order) as Hfresh.
      { intros Hin. pose proof (recency_lt c order _ Hrc Hin). lia. }
      pose proof (recency_NoDup c order Hrc) as Hnd.
      destruct Hrc as [Hperm Hlk Hhead Htail]. split.
      * constructor.
        -- rewrite Hlen, seq_S, Hperm. apply Permutation_cons_append.
        -- rewrite HN, HL. apply chain_push.
           ++ by apply NoDup_cons.
           ++ done.
           ++ rewrite length_fmap. lia.
           ++ rewrite length_insert, length_fmap. rewrite Hd. apply Hhd. lia.
           ++ by apply linked_insert_last.
        -- intros h. by intros [= <-].
        -- rewrite Ht, <- Htail, last_cons.
           destruct (list.last order) as [t|] eqn:Hlast; [done|].
           apply last_None in Hlast. subst order. simpl.
           apply Permutation_length in Hperm.
           rewrite length_seq in Hperm. simpl in Hperm. lia.
      * change (read c' (len c :: order))
          with ((entry <$> data c') !! len c :: read c' order).
        assert (entry <$> data c' = <[len c := (k, v)]> (entry <$> data c))
          as He' by (by apply entry_insert).
        rewrite (read_insert c c' order (len c) (k, v)) by done.
        rewrite He', list_lookup_insert_eq by (rewrite length_fmap; lia).
        by rewrite Hrd.
    + (* the cache is full *)
      rewrite decide_False by lia.
      assert (len c = cap c) as Hfull by lia.
      destruct (Put_evict k v c w Hwf Hk Hfull)
        as (victim & c' & Hvic & Hkv & HP & Hwf' & Hlen & Hcap & Hev & Hks
            & Hh & Hkey & Hval); [lia|].
      destruct (Put_evict_promote k v c w _ Hnz Hk Hge HP)
        as (victim' & c'' & Hvic' & Hp & Heq).
      rewrite Hvic in Hvic'. injection Hvic' as <-. simpl in Heq. subst c''.
      set (c0 := set_keys _ _) in Hp.
      assert (recency c0 order) as Hrc0.
      { apply (recency_ext c); try done; subst c0; simpl.
        - by eapply fmap_insert_same.
        - by eapply fmap_insert_same. }
      assert (tail c ∈ order) as Htin
        by (apply (tail_on_list c order Hrc); lia).
      assert (length (data c0) = cap c0) as Hd0
        by (subst c0; simpl; by rewrite length_insert).
      destruct (promote_recency (tail c) c0 c' order Hd0 Hhd Hle Hrc0
                  Htin Hp Hlen)
        as (pre & post & -> & Hrc').
      assert (post = []) as ->.
      { eapply last_of_NoDup; [by eapply recency_NoDup| |].
        - by destruct Hrc.
        - by destruct pre. }
      destruct (read_split c pre [] l (tail c) Hrd)
        as (e & lpre & lpost & -> & Hpre & Hpost & He).
      destruct lpost; [|done].
      assert (e = (key victim, val victim)) as ->.
      { rewrite list_lookup_fmap, Hvic in He. by injection He. }
      rewrite last_snoc, length_app. simpl.
      replace (length lpre + 1 - 1) with (length lpre) by lia.
      rewrite take_app_length.
      change (match evict c with
              | Some f => call_evict f (key victim) (val victim) w
              | None => (w, None)
              end) with (notify c (key victim) (val victim) w).
      destruct (notify c (key victim) (val victim) w) as [w' err] eqn:Hnot.
      simpl in HP. simpl.
      exists c'. conjs; try done. split; [done|].
      exists (tail c :: pre). rewrite app_nil_r in Hrc'. split; [done|].
      assert (entry <$> data c' = <[tail c := (k, v)]> (entry <$> data c))
        as He' by (by apply entry_insert).
      pose proof (recency_NoDup c _ Hrc) as Hnd.
      apply NoDup_app in Hnd as (_ & Hdis & _).
      change (read c' (tail c :: pre))
        with ((entry <$> data c') !! tail c :: read c' pre).
      rewrite (read_insert c c' pre (tail c) (k, v)); try done.
      * rewrite He', list_lookup_insert_eq.
        -- by rewrite Hpre.
        -- by apply lookup_lt_Some in He.
      * intros ?. by eapply Hdis, list_elem_of_here.
Qed.

(** ** Runs of [Get] and [Put] *)

Lemma New_refines m ev :
  refines (New (K:=K) (V:=V) (E:=E) (Env:=Env) m ev) [].
Proof.
  split; [apply New_wf|]. exists []. split; [|done]. by constructor.
Qed.

Lemma step_refines (a : access K V) c l w :
  refines c l →
  ∃ c', step (op_of a) (c, w) =
          Some ((c', (model_step (cap c) (evict c) a (l, w)).1.2),
                (model_step (cap c) (evict c) a (l, w)).2) ∧
        refines c' (model_step (cap c) (evict c) a (l, w)).1.1 ∧
        cap c' = cap c ∧ evict c' = evict c.
Proof.
  intros Hr. destruct a as [k|k v]; cbn [op_of step model_step].
  - destruct (Get_refines k c l Hr) as (c' & -> & Hr' & Hc & He).
    destruct (model_get k l) as [l' [v ok]]. simpl in *. by exists c'.
  - destruct (Put_refines k v c l w Hr) as (c' & -> & Hr' & Hc & He).
    destruct (model_put (cap c) (evict c) k v l w) as [[l' w'] err].
    simpl in *. by exists c'.
Qed.

Lemma run_refines (acc : list (access K V)) c l w :
  refines c l →
  ∃ c', run (op_of <$> acc) (c, w) =
          Some ((c', (model_run (cap c) (evict c) acc (l, w)).1.2),
                (model_run (cap c) (evict c) acc (l, w)).2) ∧
        refines c' (model_run (cap c) (evict c) acc (l, w)).1.1 ∧
        cap c' = cap c ∧ evict c' = evict c.
Proof.
  revert c l w. induction acc as [|a acc IH]; intros c l w Hr.
  - exists c. by conjs.
  - rewrite fmap_cons. cbn [run model_run].
    destruct (step_refines a c l w Hr) as (c1 & -> & Hr1 & Hc1 & He1).
    destruct (model_step (cap c) (evict c) a (l, w)) as [[l1 w1] x].
    simpl in *.
    destruct (IH c1 l1 w1 Hr1) as (c2 & -> & Hr2 & Hc2 & He2).
    rewrite Hc1, He1 in *.
    destruct (model_run (cap c) (evict c) acc (l1, w1)) as [[l2 w2] xs].
    simpl in *. exists c2. conjs; try done; congruence.
Qed.

Lemma Clear_refines c w :
  wf c → tail c = 0 →
  ∃ c' w' err, Clear c w = Some (c', w', err) ∧ refines c' [] ∧
               cap c' = cap c ∧ evict c' = evict c.
Proof.
  intros Hwf Ht.
  destruct (Clear_ok c w Hwf)
    as (c' & HC & Hwf' & Hlen & Hks & Hcap & Hev & Hh' & Ht').
  eexists c', _, _. split; [exact HC|]. conjs; try done.
  split; [done|]. exists []. split; [|done].
  constructor; rewrite ?Hlen; simpl; try done. congruence.
Qed.
End link_facts.

(** * Further properties of [Get], [Put], [Clear] and the iterators *)

Section extras.
Context {K : Type} `{Comparable K} {V E Env : Type}.
Context `{Zero K} `{Zero V}.
Implicit Types (k : K).
Implicit Types (c : Cache K V E Env) (w : World K V Env).
Implicit Types (ev : option (evict_func K V E Env)).

(** X1.  As long as Clear is not called, the cache is a least-recently-used
    cache: every sequence of Get and Put calls on a constructed cache
    returns what the same calls return on a list of at most [m] entries
    kept most recent first - a hit moves the entry to the front, a Put
    puts it at the front, and a Put of a new key on a full list drops the
    entry at the back and shows it to the callback - and the callback is
    called on the same entries in the same order.  The final cache holds
    the entries of the final list, and its recency list orders them. *)
Theorem X1_get_put_refine_lru_list (m : nat) ev w0 (acc : list (access K V)) :
  ∃ c l w out,
    run (op_of <$> acc) (New m ev, w0) = Some ((c, w), out) ∧
    model_run m ev acc ([], w0) = ((l, w), out) ∧
    refines c l ∧
    length l = len c ∧
    ∀ k, snd <$> Get k c = Some (model_get k l).2.
Proof.
  destruct (run_refines acc (New m ev) [] w0 (New_refines m ev))
    as (c & Hrun & Hr & _). simpl in Hrun, Hr.
  destruct (model_run m ev acc ([], w0)) as [[l w] out]. simpl in *.
  exists c, l, w, out. conjs; try done.
  - destruct Hr as [_ (order & Hrc & Hrd)].
    rewrite (read_length c order l Hrd). by apply recency_length.
  - intros k. destruct (Get_refines k c l Hr) as (c' & -> & _). done.
Qed.

(** X2.  As long as Clear is not called, the recency links form one list
    through the active slots: there is an ordering of the slots
    [0 .. len) in which each slot's [next] is the slot after it and each
    slot's [last] the slot before it, which starts at [head] and ends at
    [tail]; while the cache is empty [tail] is 0. *)
Theorem X2_links_form_one_list (m : nat) ev w0 (acc : list (access K V)) :
  ∃ c w out order,
    run (op_of <$> acc) (New m ev, w0) = Some ((c, w), out) ∧
    order ≡ₚ seq 0 (len c) ∧
    linked (next <$> data c) (last <$> data c) order ∧
    (0 < len c →
     hd_error order = Some (head c) ∧ list.last order = Some (tail c)) ∧
    (len c = 0 → tail c = 0).
Proof.
  destruct (run_refines acc (New m ev) [] w0 (New_refines m ev))
    as (c & Hrun & [_ (order & Hrc & _)] & _).
  pose proof (recency_length c order Hrc) as Hlen.
  destruct Hrc as [Hperm Hlk Hhd Htl].
  eexists c, _, _, order. split; [exact Hrun|]. conjs; try done.
  - intros Hpos. destruct order as [|h rest]; [simpl in Hlen; lia|].
    split; [by rewrite (Hhd h eq_refl)|].
    destruct (list.last (h :: rest)) as [t|] eqn:Hlast.
    + simpl in Htl. by subst t.
    + by apply last_None in Hlast.
  - intros Hz. destruct order; [done|]. simpl in Hlen. lia.
Qed.

(** X3.  When Clear is called while [tail] is slot 0, the cleared cache
    cannot be told from a fresh one by Get and Put: every sequence of
    Get and Put calls returns the same results and makes the same callback
    calls on the cleared cache as on [New(cap, evict)]. *)
Theorem X3_clear_at_tail_zero_is_fresh c w :
  reachable (c, w) →
  tail c = 0 →
  ∃ c' w' err,
    Clear c w = Some (c', w', err) ∧
    ∀ acc : list (access K V),
      ∃ c1 c2 w'' out,
        run (op_of <$> acc) (c', w') = Some ((c1, w''), out) ∧
        run (op_of <$> acc) (New (cap c) (evict c), w') =
          Some ((c2, w''), out).
Proof.
  intros Hr Ht. pose proof (reachable_wf c w Hr) as Hwf.
  destruct (Clear_refines c w Hwf Ht) as (c' & w' & err & HC & Hr' & Hc & He).
  exists c', w', err. split; [done|]. intros acc.
  destruct (run_refines acc c' [] w' Hr') as (c1 & Hrun1 & _).
  destruct (run_refines acc (New (cap c) (evict c)) [] w'
              (New_refines _ _)) as (c2 & Hrun2 & _).
  simpl in Hrun2. rewrite Hc, He in Hrun1.
  eexists c1, c2, _, _. split; [exact Hrun1|exact Hrun2].
Qed.
End extras.

(** * An update promotes *)

Section promotion.
Context {K : Type} `{Comparable K} {V E Env : Type}.
Context `{Zero K} `{Zero V}.
Implicit Types (k : K).
Implicit Types (c : Cache K V E Env) (w : World K V Env).

(** C5.  A Put of a key that is already cached (whether or not the
    cache is full) returns nil, calls no callback, keeps the length, the
    key index and every stored key, stores the new value in the key's
    slot, leaves every other entry alone and promotes that slot to the
    head of the recency list.  The promotion writes nothing when the slot
    is the head already.  Otherwise the slot becomes [head], its [next]
    is the old head and the old head's [last] is the slot; when the slot
    was the tail, [tail] moves to the slot's [last]; when it was inside
    the list, its neighbours are linked to each other and [tail] stays.
    So whenever the links of the cache form a recency list, the list
    afterwards is that list with the slot moved to the front. *)
Theorem C5_put_present_updates c w (k : K) (v : V) (i : nat) :
  reachable (c, w) →
  map_get k (keys c) = Some i →
  ∃ c', Put k v c w = Some (c', w, None) ∧
        len c' = len c ∧
        keys c' = keys c ∧
        head c' = i ∧
        (∃ n, data c' !! i = Some n ∧ keq (key n) k = true ∧ val n = v) ∧
        key <$> data c' = key <$> data c ∧
        (∀ j, j ≠ i → entry <$> data c' !! j = entry <$> data c !! j) ∧
        ((i = head c ∧ tail c' = tail c ∧
          next <$> data c' = next <$> data c ∧
          last <$> data c' = last <$> data c) ∨
         (i ≠ head c ∧
          ∃ p q,
            (last <$> data c) !! i = Some p ∧
            (next <$> data c) !! i = Some q ∧
            ((i = tail c ∧ tail c' = p ∧
              next <$> data c' = <[i := head c]> (next <$> data c) ∧
              last <$> data c' = <[head c := i]> (last <$> data c)) ∨
             (i ≠ tail c ∧ tail c' = tail c ∧
              next <$> data c' =
                <[i := head c]> (<[p := q]> (next <$> data c)) ∧
              last <$> data c' =
                <[head c := i]> (<[q := p]> (last <$> data c)))))) ∧
        (∀ order, recency c order →
           ∃ pre post, order = pre ++ i :: post ∧
                       recency c' (i :: pre ++ post)).
Proof.
  intros Hr Hk. pose proof (reachable_wf c w Hr) as Hwf.
  destruct (Put_update k v i c w Hwf Hk)
    as (c' & HP & Hwf' & Hlen & Hcap & Hev & Hks & Hh & Hkey & Hval).
  pose proof (wf_keys_lt c k i Hwf Hk) as Hi.
  assert (cap c ≠ 0) as Hnz by lia.
  destruct (Put_update_promote k v i c w _ Hnz Hk HP)
    as (n0 & c'' & Hn0 & Hp & Heq).
  injection Heq as <-.
  set (c0 := set_data (<[i := set_val v n0]> (data c)) c) in *.
  assert (next <$> data c0 = next <$> data c) as HN0
    by (subst c0; simpl; by eapply fmap_insert_same).
  assert (last <$> data c0 = last <$> data c) as HL0
    by (subst c0; simpl; by eapply fmap_insert_same).
  exists c'. conjs; try done.
  - assert (map_get k (keys c') = Some i) as Hk' by congruence.
    destruct (wf_slot c' k i Hwf' Hk') as (n & _ & Hn & Hkn).
    exists n. conjs; try done.
    assert ((val <$> data c') !! i = Some v) as Hv.
    { rewrite Hval. apply list_lookup_insert_eq. rewrite length_fmap.
      destruct Hwf as [[Hd _ _ _] _]. by rewrite Hd. }
    rewrite list_lookup_fmap, Hn in Hv. by injection Hv.
  - intros j Hj.
    assert ((key <$> data c') !! j = (key <$> data c) !! j) as Hkj
      by (by rewrite Hkey).
    assert ((val <$> data c') !! j = (val <$> data c) !! j) as Hvj
      by (rewrite Hval; by apply list_lookup_insert_ne).
    rewrite !list_lookup_fmap in Hkj. rewrite !list_lookup_fmap in Hvj.
    unfold entry.
    destruct (data c' !! j) as [n'|], (data c !! j) as [n|];
      simpl in *; congruence.
  - destruct (promote_links i c0 c' Hp)
      as [[Hih ->]|(Hih & _ & p & q & HLi & HNi & Hcase)].
    + left. by conjs.
    + right. split; [done|]. exists p, q.
      rewrite HL0 in HLi. rewrite HN0 in HNi.
      rewrite HN0, HL0 in Hcase. by conjs.
  - intros order Hrc.
    assert (recency c0 order) as Hrc0 by (by apply (recency_ext c)).
    pose proof Hwf as [[Hd Hhd _ _] [Hle _ _]].
    assert (length (data c0) = cap c0) as Hd0
      by (subst c0; simpl; by rewrite length_insert).
    exact (promote_recency i c0 c' order Hd0 Hhd Hle Hrc0
             (indexed_on_list c order k i Hwf Hrc Hk) Hp Hlen).
Qed.
End promotion.

Section promotion_scenarios.
Local Open Scope Z_scope.

(** C5 at the full capacity-2 cache: put(a,5) on the cached key a, whose
    slot 0 is the tail. *)
Lemma C5_witness :
  ∃ c', Put "a" 5 full_two (no_calls tt) = Some (c', no_calls tt, None) ∧
        len c' = len full_two ∧
        keys c' = keys full_two ∧
        head c' = 0%nat ∧
        (∃ n, data c' !! 0%nat = Some n ∧ keq (key n) "a" = true ∧
              val n = 5) ∧
        key <$> data c' = key <$> data full_two ∧
        (∀ j, j ≠ 0%nat →
              entry <$> data c' !! j = entry <$> data full_two !! j) ∧
        ((0%nat = head full_two ∧ tail c' = tail full_two ∧
          next <$> data c' = next <$> data full_two ∧
          last <$> data c' = last <$> data full_two) ∨
         (0%nat ≠ head full_two ∧
          ∃ p q,
            (last <$> data full_two) !! 0%nat = Some p ∧
            (next <$> data full_two) !! 0%nat = Some q ∧
            ((0%nat = tail full_two ∧ tail c' = p ∧
              next <$> data c' =
                <[0%nat := head full_two]> (next <$> data full_two) ∧
              last <$> data c' =
                <[head full_two := 0%nat]> (last <$> data full_two)) ∨
             (0%nat ≠ tail full_two ∧ tail c' = tail full_two ∧
              next <$> data c' =
                <[0%nat := head full_two]>
                  (<[p := q]> (next <$> data full_two)) ∧
              last <$> data c' =
                <[head full_two := 0%nat]>
                  (<[q := p]> (last <$> data full_two)))))) ∧
        (∀ order, recency full_two order →
           ∃ pre post, order = pre ++ 0%nat :: post ∧
                       recency c' (0%nat :: pre ++ post)).
Proof.
  apply (C5_put_present_updates full_two (no_calls tt) "a" 5 0).
  - exact full_two_reachable.
  - by vm_compute.
Defined.
End promotion_scenarios.

(** * Further properties of the contents *)

(** ** What one [Put] does, in all three cases *)

Section effects.
Context {K : Type} `{Comparable K} {V E Env : Type}.
Context `{Zero K} `{Zero V}.
Implicit Types (k : K).
Implicit Types (c : Cache K V E Env) (w : World K V Env).

(** The entry goes to slot [i], which then holds the key [k0]: the key
    stored there before when [k] is cached, and [k] when it is new. *)
Lemma Put_effect (k : K) (v : V) c w :
  wf c → cap c ≠ 0 →
  ∃ i k0 c' w' err,
    Put k v c w = Some (c', w', err) ∧ wf c' ∧ i < cap c ∧
    cap c' = cap c ∧ evict c' = evict c ∧ head c' = i ∧
    (keq k k = true → map_get k (keys c') = Some i) ∧
    key <$> data c' = <[i := k0]> (key <$> data c) ∧
    val <$> data c' = <[i := v]> (val <$> data c) ∧
    ((map_get k (keys c) = Some i ∧ i < len c ∧
      (key <$> data c) !! i = Some k0 ∧ keq k0 k = true ∧
      keys c' = keys c ∧ len c' = len c ∧
      w' = w ∧ err = None) ∨
     (map_get k (keys c) = None ∧ k0 = k ∧ len c < cap c ∧ i = len c ∧
      keys c' = map_set k i (keys c) ∧ len c' = S (len c) ∧
      w' = w ∧ err = None) ∨
     (map_get k (keys c) = None ∧ k0 = k ∧ len c = cap c ∧ i = tail c ∧
      len c' = len c ∧
      ∃ victim,
        data c !! tail c = Some victim ∧
        keq k (key victim) = false ∧
        keys c' = map_set k i (map_delete (key victim) (keys c)) ∧
        (w', err) = notify c (key victim) (val victim) w)).
Proof.
  intros Hwf Hnz. pose proof Hwf as [[Hd Hhd Htl _] [Hle _ _]].
  destruct (map_get k (keys c)) as [i|] eqn:Hk.
  - destruct (Put_update k v i c w Hwf Hk)
      as (c' & HP & Hwf' & Hlen & Hcap & Hev & Hks & Hh & Hkey & Hval).
    destruct (wf_slot c k i Hwf Hk) as (n & Hil & Hn & Hkn).
    assert ((key <$> data c) !! i = Some (key n)) as Hki
      by (by rewrite list_lookup_fmap, Hn).
    exists i, (key n), c', w, None. split_and!; try done.
    + by eapply wf_keys_lt.
    + intros _. congruence.
    + rewrite Hkey. symmetry. by apply list_insert_id.
    + left. by split_and!.
  - destruct (decide (len c < cap c)) as [Hlt|Hge].
    + destruct (Put_insert k v c w Hwf Hk Hlt)
        as (c' & HP & Hwf' & Hlen & Hcap & Hev & Hks & Hh & Ht & Hkey & Hval).
      exists (len c), k, c', w, None. split_and!; try done.
      * intros Hkk. rewrite Hks. by apply map_get_set_eq.
      * right. left. by split_and!.
    + assert (len c = cap c) as Hfull by lia.
      destruct (Put_evict k v c w Hwf Hk Hfull)
        as (victim & c' & Hvic & Hkv & HP & Hwf' & Hlen & Hcap & Hev & Hks
            & Hh & Hkey & Hval); [lia|].
      eexists (tail c), k, c', _, _. split; [exact HP|].
      split_and!; try done.
      * apply Htl. lia.
      * intros Hkk. rewrite Hks. by apply map_get_set_eq.
      * right. right. split_and!; try done. exists victim.
        split_and!; try done.
        by destruct (notify c (key victim) (val victim) w).
Qed.

(** What [Get] returns, read off the key index and the slots. *)
Lemma Get_result (k : K) c :
  wf c →
  snd <$> Get k c =
  Some (match map_get k (keys c) with
        | Some i => (default zero ((val <$> data c) !! i), true)
        | None => (zero, false)
        end).
Proof.
  intros Hwf. destruct (map_get k (keys c)) as [i|] eqn:Hk.
  - destruct (Get_hit k i c Hwf Hk) as (n & c' & Hn & _ & -> & _).
    simpl. by rewrite list_lookup_fmap, Hn.
  - by rewrite Get_miss.
Qed.

(** Keys found in one slot are equal. *)
Lemma index_inj c (k1 k2 : K) i :
  wf c → map_get k1 (keys c) = Some i → map_get k2 (keys c) = Some i →
  keq k1 k2 = true.
Proof.
  intros Hwf Hk1 Hk2.
  destruct (wf_slot c k1 i Hwf Hk1) as (n1 & _ & Hn1 & He1).
  destruct (wf_slot c k2 i Hwf Hk2) as (n2 & _ & Hn2 & He2).
  assert (n2 = n1) as -> by congruence.
  eapply keq_trans; [|exact He2]. by rewrite keq_sym.
Qed.

Lemma entries_take c : entries c = take (len c) (entry <$> data c).
Proof. unfold entries. by rewrite fmap_take. Qed.

Lemma entries_lookup c j (k0 : K) (v : V) :
  entries c !! j = Some (k0, v) ↔
  j < len c ∧ (key <$> data c) !! j = Some k0 ∧
  (val <$> data c) !! j = Some v.
Proof.
  rewrite entries_take. split.
  - intros Hj. apply lookup_take_Some in Hj as [He Hlt].
    apply entry_lookup in He as [Hk Hv]. by split_and!.
  - intros (Hlt & Hkey & Hv). rewrite lookup_take_lt by done.
    rewrite list_lookup_fmap in Hkey. rewrite list_lookup_fmap in Hv.
    rewrite list_lookup_fmap.
    destruct (data c !! j) as [n|]; [|done]. simpl in *.
    unfold entry. congruence.
Qed.

(** A lookup of [k] finds slot [j] exactly when the entry at position
    [j] of the iteration has a key equal to [k]. *)
Lemma entries_found c j k :
  wf c →
  map_get k (keys c) = Some j ↔
  ∃ k0 v, entries c !! j = Some (k0, v) ∧ keq k0 k = true.
Proof.
  intros Hwf. pose proof Hwf as [[Hd _ _ _] [Hle _ _]]. split.
  - intros Hk. destruct (wf_slot c k j Hwf Hk) as (n & Hlt & Hn & Hkn).
    exists (key n), (val n). split; [|done].
    apply entries_lookup. by rewrite !list_lookup_fmap, Hn.
  - intros (k0 & v & He & Hkk). apply entries_lookup in He as (Hlt & Hk0 & _).
    rewrite list_lookup_fmap in Hk0.
    destruct (data c !! j) as [n|] eqn:Hn; [|done]. injection Hk0 as <-.
    by eapply wf_found.
Qed.
End effects.

Section extras_contents.
Context {K : Type} `{Comparable K} {V E Env : Type}.
Context `{Zero K} `{Zero V}.
Implicit Types (k : K).
Implicit Types (c : Cache K V E Env) (w : World K V Env).

(** X4.  On a cache of capacity above 0, a Get of the key just Put
    returns the value just Put - whether the Put updated the key, took a
    free slot or evicted - provided the key equals itself.  (A key that
    does not, as a NaN, is never found: see C4.) *)
Theorem X4_get_after_put c w (k : K) (v : V) :
  reachable (c, w) → cap c ≠ 0 → keq k k = true →
  ∃ c' w' err,
    Put k v c w = Some (c', w', err) ∧
    snd <$> Get k c' = Some (v, true).
Proof.
  intros Hr Hnz Hkk. pose proof (reachable_wf c w Hr) as Hwf.
  destruct (Put_effect k v c w Hwf Hnz)
    as (i & k0 & c' & w' & err & HP & Hwf' & Hi & _ & _ & _ & Hk & _ & Hval
        & _).
  exists c', w', err. split; [done|].
  rewrite Get_result, (Hk Hkk), Hval by done.
  rewrite list_lookup_insert_eq; [done|].
  rewrite length_fmap. destruct Hwf as [[-> _ _ _] _]. done.
Qed.

(** X5.  A Put of [k] leaves every key [k'] that is not equal to [k] as
    it was - cached with the same value, or not cached - except the one
    key it evicts: the key of the slot at [tail], when the cache is full
    and [k] is new. *)
Theorem X5_put_keeps_other_keys c w (k k' : K) (v : V) :
  reachable (c, w) → keq k' k = false →
  ∃ c' w' err,
    Put k v c w = Some (c', w', err) ∧
    (snd <$> Get k' c' = snd <$> Get k' c ∨
     (len c = cap c ∧ map_get k (keys c) = None ∧
      (∃ kt, (key <$> data c) !! tail c = Some kt ∧ keq kt k' = true) ∧
      snd <$> Get k' c' = Some (zero, false))).
Proof.
  intros Hr Hne. pose proof (reachable_wf c w Hr) as Hwf.
  assert (keq k k' = false) as Hne' by (by rewrite keq_sym).
  destruct (decide (cap c = 0)) as [Hz|Hnz].
  { exists c, w, None. split; [by apply Put_zero | by left]. }
  destruct (Put_effect k v c w Hwf Hnz)
    as (i & k0 & c' & w' & err & HP & Hwf' & Hi & _ & _ & _ & Hk & _ & Hval
        & Hcase).
  exists c', w', err. split; [done|].
  rewrite !Get_result by done. rewrite Hval.
  destruct Hcase as [(Hki & _ & _ & _ & Hks & _)
    |[(Hkn & _ & Hlt & -> & Hks & _)
    |(Hkn & _ & Hfull & -> & _ & victim & Hvic & Hkv & Hks & _)]].
  - left. rewrite Hks. destruct (map_get k' (keys c)) as [j|] eqn:Hj; [|done].
    rewrite list_lookup_insert_ne; [done|].
    intros <-. pose proof (index_inj c k' k i Hwf Hj Hki). congruence.
  - left. rewrite Hks. rewrite map_get_set_ne by done.
    destruct (map_get k' (keys c)) as [j|] eqn:Hj; [|done].
    rewrite list_lookup_insert_ne; [done|].
    intros <-. destruct (wf_slot c k' _ Hwf Hj) as (n & ? & _). lia.
  - rewrite Hks. rewrite map_get_set_ne by done.
    destruct (keq (key victim) k') eqn:Hvk.
    + right. rewrite map_get_delete_eq by done. split_and!; try done.
      exists (key victim). split; [|done].
      by rewrite list_lookup_fmap, Hvic.
    + left. rewrite map_get_delete_ne by done.
      destruct (map_get k' (keys c)) as [j|] eqn:Hj; [|done].
      rewrite list_lookup_insert_ne; [done|].
      intros <-. destruct (wf_slot c k' _ Hwf Hj) as (n & _ & Hn & Hnk).
      assert (n = victim) as -> by congruence. congruence.
Qed.

(** X6.  A Get changes only the recency order: the same keys stay cached
    with the same values, the length is the same, and the iterators yield
    the same sequence as before. *)
Theorem X6_get_keeps_contents c w (k : K) :
  reachable (c, w) →
  ∃ c' r,
    Get k c = Some (c', r) ∧
    len c' = len c ∧
    keys c' = keys c ∧
    entries c' = entries c ∧
    ∀ k', snd <$> Get k' c' = snd <$> Get k' c.
Proof.
  intros Hr. pose proof (reachable_wf c w Hr) as Hwf.
  destruct (map_get k (keys c)) as [i|] eqn:Hk.
  - destruct (Get_hit k i c Hwf Hk)
      as (n & c' & _ & _ & HG & Hwf' & [Hlen _ _ Hks Hkey Hval] & _).
    exists c', (val n, true). split_and!; try done.
    + rewrite !entries_take, Hlen. f_equal. by apply entry_fmap_ext.
    + intros k'. rewrite !Get_result by done. by rewrite Hks, Hval.
  - exists c, (zero, false). split_and!; try done. by apply Get_miss.
Qed.

(** X7.  How a Put shows in the sequence of the iterators: an update
    replaces the value at the key's position and keeps the key stored
    there, a new key with a free slot is appended at the end, and a new
    key on a full cache takes the position of the evicted entry. *)
Theorem X7_put_and_iteration_order c w (k : K) (v : V) :
  reachable (c, w) → cap c ≠ 0 →
  ∃ c' w' err,
    Put k v c w = Some (c', w', err) ∧
    match map_get k (keys c) with
    | Some i =>
        ∃ k0 v0, entries c !! i = Some (k0, v0) ∧ keq k0 k = true ∧
                 entries c' = <[i := (k0, v)]> (entries c)
    | None =>
        entries c' =
          if decide (len c < cap c) then entries c ++ [(k, v)]
          else <[tail c := (k, v)]> (entries c)
    end.
Proof.
  intros Hr Hnz. pose proof (reachable_wf c w Hr) as Hwf.
  destruct (Put_effect k v c w Hwf Hnz)
    as (i & k0 & c' & w' & err & HP & Hwf' & Hi & _ & _ & _ & Hk & Hkey
        & Hval & Hcase).
  exists c', w', err. split; [done|].
  pose proof (entry_insert _ _ _ _ _ Hkey Hval) as He.
  rewrite !entries_take, He.
  pose proof Hwf as [[Hd _ _ _] [Hle _ _]].
  destruct Hcase as [(Hki & Hil & Hk0 & Hkk & _ & -> & _)
    |[(Hkn & -> & Hlt & -> & _ & -> & _)
    |(Hkn & -> & Hfull & -> & -> & _)]].
  - rewrite Hki.
    destruct (lookup_lt_is_Some_2 (val <$> data c) i) as [v0 Hv0];
      [rewrite length_fmap; lia|].
    exists k0, v0. split_and!; try done.
    + rewrite <- entries_take. by apply entries_lookup.
    + by apply take_insert_lt.
  - rewrite Hkn, decide_True by done.
    rewrite (take_S_r _ _ (k, v)).
    + by rewrite take_insert_ge.
    + apply list_lookup_insert_eq. rewrite length_fmap. lia.
  - rewrite Hkn, decide_False by lia. apply take_insert_lt. lia.
Qed.

(** X8.  The iterators and Get agree: no two entries that All yields
    have equal keys, and Get(k) returns (v, true) exactly when All yields
    an entry with the value v whose key equals k.  (An entry whose key
    does not equal itself is yielded, and no Get finds it.) *)
Theorem X8_iteration_matches_lookup c w :
  reachable (c, w) →
  (∀ j1 j2 p1 p2,
     entries c !! j1 = Some p1 → entries c !! j2 = Some p2 →
     keq p1.1 p2.1 = true → j1 = j2) ∧
  ∀ (k : K) (v : V),
    (∃ k0, keq k0 k = true ∧ (k0, v) ∈ entries c) ↔
    snd <$> Get k c = Some (v, true).
Proof.
  intros Hr. pose proof (reachable_wf c w Hr) as Hwf. split.
  - intros j1 j2 [k1 v1] [k2 v2] E1 E2 Hkk. simpl in Hkk.
    assert (map_get k2 (keys c) = Some j1) as Hf1
      by (apply entries_found; eauto).
    assert (map_get k2 (keys c) = Some j2) as Hf2.
    { apply entries_found; [done|]. exists k2, v2. split; [done|].
      by eapply keq_refl_r. }
    congruence.
  - intros k v. rewrite Get_result by done. split.
    + intros (k0 & Hkk & [j Hj]%list_elem_of_lookup_1).
      assert (map_get k (keys c) = Some j) as Hk
        by (apply entries_found; eauto).
      apply entries_lookup in Hj as (_ & _ & Hv).
      by rewrite Hk, Hv.
    + destruct (map_get k (keys c)) as [i|] eqn:Hk; [|done].
      intros [= Hv].
      apply entries_found in Hk as (k0 & v0 & He & Hkk); [|done].
      exists k0. split; [done|]. apply (list_elem_of_lookup_2 _ i).
      pose proof He as He'. apply entries_lookup in He' as (_ & _ & Hv0).
      rewrite Hv0 in Hv. simpl in Hv. by subst.
Qed.

(** X9.  A Put calls the callback at most once, and only to evict: it
    either returns nil and calls nothing, or the cache is full, the key is
    new, a callback is set, and the one call it makes is on the key and
    value of the slot at [tail]. *)
Theorem X9_put_calls_back_only_to_evict c w (k : K) (v : V) :
  reachable (c, w) →
  ∃ c' w' err,
    Put k v c w = Some (c', w', err) ∧
    ((w' = w ∧ err = None) ∨
     (len c = cap c ∧ map_get k (keys c) = None ∧
      ∃ cb victim,
        evict c = Some cb ∧ data c !! tail c = Some victim ∧
        calls w' = calls w ++ [(key victim, val victim)] ∧
        err = (cb (env w) (key victim) (val victim)).2)).
Proof.
  intros Hr. pose proof (reachable_wf c w Hr) as Hwf.
  destruct (decide (cap c = 0)) as [Hz|Hnz].
  { exists c, w, None. split; [by apply Put_zero | by left]. }
  destruct (Put_effect k v c w Hwf Hnz)
    as (i & k0 & c' & w' & err & HP & _ & _ & _ & _ & _ & _ & _ & _ & Hcase).
  exists c', w', err. split; [done|].
  destruct Hcase as [(_ & _ & _ & _ & _ & _ & -> & ->)
    |[(_ & _ & _ & _ & _ & _ & -> & ->)
    |(Hkn & _ & Hfull & _ & _ & victim & Hvic & _ & _ & Hnot)]];
    [by left | by left |].
  unfold notify in Hnot. destruct (evict c) as [cb|] eqn:Hev.
  - right. split_and!; try done. exists cb, victim. unfold call_evict in Hnot.
    destruct (cb (env w) (key victim) (val victim)) as [s e].
    injection Hnot as -> ->. by split_and!.
  - left. by injection Hnot as -> ->.
Qed.

(** X10.  A Get repeated at once is a no-op: it returns the same result
    and leaves the cache exactly as the first Get left it. *)
Theorem X10_get_twice c w (k : K) :
  reachable (c, w) →
  ∃ c' r, Get k c = Some (c', r) ∧ Get k c' = Some (c', r).
Proof.
  intros Hr. pose proof (reachable_wf c w Hr) as Hwf.
  destruct (map_get k (keys c)) as [i|] eqn:Hk.
  - destruct (Get_hit k i c Hwf Hk)
      as (n & c' & Hn & _ & HG & Hwf' & [_ _ _ Hks _ Hval] & Hh).
    exists c', (val n, true). split; [done|].
    assert (map_get k (keys c') = Some i) as Hk' by congruence.
    destruct (wf_slot c' k i Hwf' Hk') as (n' & _ & Hn' & _).
    unfold Get. rewrite Hk', Hn'. simpl.
    unfold promote. rewrite Hn'. simpl. rewrite decide_True by done. simpl.
    do 3 f_equal.
    assert ((val <$> data c') !! i = (val <$> data c) !! i) as Hv
      by (by rewrite Hval).
    rewrite !list_lookup_fmap, Hn, Hn' in Hv. by injection Hv.
  - exists c, (zero, false). rewrite Get_miss by done. done.
Qed.
End extras_contents.

(** ** Filling the list model *)

Section model_facts.
Context {K : Type} `{Comparable K} {V E Env : Type}.
Context `{Zero K} `{Zero V}.
Implicit Types (k : K).
Implicit Types (w : World K V Env) (ev : option (evict_func K V E Env)).
Implicit Types (l kvs : list (K * V)).

Lemma model_run_app m ev (a1 a2 : list (access K V)) st :
  model_run m ev (a1 ++ a2) st =
  (let '(st1, o1) := model_run m ev a1 st in
   let '(st2, o2) := model_run m ev a2 st1 in
   (st2, o1 ++ o2)).
Proof.
  revert st. induction a1 as [|a a1 IH]; intros st; cbn [app model_run].
  - by destruct (model_run m ev a2 st).
  - destruct (model_step m ev a st) as [st1 x]. rewrite IH.
    destruct (model_run m ev a1 st1) as [st2 o1].
    by destruct (model_run m ev a2 st2).
Qed.

Lemma unequal_cons k (ks : list K) :
  unequal (k :: ks) = true ↔
  Forall (λ k', keq k k' = false) ks ∧ unequal ks = true.
Proof.
  cbn [unequal]. rewrite andb_true_iff, forallb_forall, Forall_forall.
  split; intros [Hk Hks]; (split; [|done]); intros k' Hin.
  - apply negb_true_iff, Hk. by apply list_elem_of_In.
  - apply negb_true_iff, Hk. by apply list_elem_of_In.
Qed.

(** The keys of [l] that do not equal [k]. *)
Lemma others_fmap k l :
  Forall (λ k', keq k k' = false) l.*1 → Forall (λ p, keq p.1 k = false) l.
Proof.
  rewrite Forall_fmap. intros Hl. eapply Forall_impl; [exact Hl|].
  intros [k' v'] Hk. simpl in *. by rewrite keq_sym.
Qed.

(** Puts of new keys, no two of them equal, while there is room stack
    up, newest first, and call nothing. *)
Lemma model_fill m ev kvs l w :
  unequal kvs.*1 = true →
  Forall (λ p, Forall (λ q, keq q.1 p.1 = false) l) kvs →
  length kvs + length l ≤ m →
  model_run m ev ((λ p, APut p.1 p.2) <$> kvs) (l, w) =
  ((reverse kvs ++ l, w), replicate (length kvs) (ObsPut None)).
Proof.
  revert l. induction kvs as [|[k v] kvs IH]; intros l Hnd Hdis Hlen.
  - done.
  - rewrite fmap_cons. cbn [model_run model_step fst snd].
    rewrite fmap_cons in Hnd. apply unequal_cons in Hnd as [Hk Hnd].
    apply Forall_cons in Hdis as [Hkl Hdis]. simpl in Hlen, Hk, Hkl.
    unfold model_put. rewrite decide_False by lia.
    rewrite extract_None by done.
    rewrite decide_True by lia.
    rewrite IH; [|done| |simpl; lia].
    + by rewrite reverse_cons, <- app_assoc.
    + apply Forall_forall. intros p Hp. apply Forall_cons. split.
      * simpl. rewrite Forall_fmap in Hk.
        by apply (proj1 (Forall_forall _ _) Hk p).
      * by apply (proj1 (Forall_forall _ _) Hdis p).
Qed.

(** Fill the list, touch the oldest entry, overflow: the second oldest
    entry goes. *)
Lemma model_touch_then_overflow m (cb : evict_func K V E Env) w0
    (k1 k2 k' : K) (v1 v2 v' : V) rest :
  unequal (k' :: ((k1, v1) :: (k2, v2) :: rest).*1) = true →
  keq k1 k1 = true →
  length ((k1, v1) :: (k2, v2) :: rest) = m →
  model_run m (Some cb)
    (((λ p, APut p.1 p.2) <$> (k1, v1) :: (k2, v2) :: rest)
       ++ [AGet k1; APut k' v']) ([], w0) =
  (((k', v') :: (k1, v1) :: reverse rest,
    {| env := (cb (env w0) k2 v2).1; calls := calls w0 ++ [(k2, v2)] |}),
   replicate m (ObsPut None)
     ++ [ObsGet v1 true; ObsPut (cb (env w0) k2 v2).2]).
Proof.
  intros Hnd Hk11 Hlen. rewrite model_run_app.
  apply unequal_cons in Hnd as [Hk' Hnd].
  rewrite model_fill; [|done| |rewrite Hlen; simpl; lia].
  2:{ apply Forall_forall. by intros p _. }
  rewrite app_nil_r, Hlen, !reverse_cons.
  pose proof Hnd as Hnd'. rewrite !fmap_cons in Hnd'. cbn [fst] in Hnd'.
  apply unequal_cons in Hnd' as [Hk1 Hnd'].
  apply unequal_cons in Hnd' as [Hk2 Hrest].
  apply Forall_cons in Hk1 as [Hk12 Hk1].
  rewrite !fmap_cons in Hk'. simpl in Hk'.
  apply Forall_cons in Hk' as [Hk'1 Hk'].
  apply Forall_cons in Hk' as [Hk'2 Hk'].
  assert (Forall (λ p, keq p.1 k1 = false) (reverse rest ++ [(k2, v2)]))
    as Hk1'.
  { apply Forall_app. split.
    - apply Forall_reverse. by apply others_fmap.
    - apply Forall_singleton. simpl. by rewrite keq_sym. }
  cbn [model_run model_step]. unfold model_get.
  rewrite (extract_middle k1 k1) by done. rewrite app_nil_r.
  cbn [fst snd model_step].
  unfold model_put. rewrite decide_False by (simpl in Hlen; lia).
  rewrite extract_None.
  2:{ apply Forall_cons. split; [simpl; by rewrite keq_sym|].
      apply Forall_app. split.
      - apply Forall_reverse. by apply others_fmap.
      - apply Forall_singleton. simpl. by rewrite keq_sym. }
  rewrite decide_False.
  2:{ simpl. rewrite length_app, length_reverse. simpl in *. lia. }
  change ((k1, v1) :: reverse rest ++ [(k2, v2)])
    with (((k1, v1) :: reverse rest) ++ [(k2, v2)]).
  rewrite last_snoc, length_app. simpl.
  replace (length (reverse rest) + 1 - 0) with (S (length (reverse rest)))
    by lia.
  change ((k1, v1) :: reverse rest ++ [(k2, v2)])
    with (((k1, v1) :: reverse rest) ++ [(k2, v2)]).
  rewrite (take_app_length' ((k1, v1) :: reverse rest)) by done.
  unfold call_evict. destruct (cb (env w0) k2 v2) as [s e]. done.
Qed.
End model_facts.

Section extras_order.
Context {K : Type} `{Comparable K} {V E Env : Type}.
Context `{Zero K} `{Zero V}.
Implicit Types (k : K).
Implicit Types (w : World K V Env).

(** X11.  Fill a fresh cache of capacity [m >= 2] with [m] keys, k1
    first and k2 second; Get k1; then Put a new key - where no two of
    these keys are equal, and k1 and the new key equal themselves.  The
    Puts that fill return nil, the Get returns k1's value, and the last
    Put evicts k2 - not k1, which was touched: the callback is called
    once, on (k2, v2), and its result is returned.  Afterwards k2 misses,
    and k1 and the new key hit. *)
Theorem X11_touched_entry_survives_overflow (m : nat)
    (cb : evict_func K V E Env) w0 (k1 k2 k' : K) (v1 v2 v' : V) rest :
  unequal (k' :: ((k1, v1) :: (k2, v2) :: rest).*1) = true →
  keq k1 k1 = true → keq k' k' = true →
  length ((k1, v1) :: (k2, v2) :: rest) = m →
  ∃ c w out,
    run (op_of <$> (((λ p, APut p.1 p.2) <$> (k1, v1) :: (k2, v2) :: rest)
                      ++ [AGet k1; APut k' v']))
      (New m (Some cb), w0) = Some ((c, w), out) ∧
    out = replicate m (ObsPut None)
            ++ [ObsGet v1 true; ObsPut (cb (env w0) k2 v2).2] ∧
    calls w = calls w0 ++ [(k2, v2)] ∧
    env w = (cb (env w0) k2 v2).1 ∧
    snd <$> Get k2 c = Some (zero, false) ∧
    snd <$> Get k1 c = Some (v1, true) ∧
    snd <$> Get k' c = Some (v', true).
Proof.
  intros Hnd Hk11 Hk'' Hlen.
  destruct (run_refines
              (((λ p, APut p.1 p.2) <$> (k1, v1) :: (k2, v2) :: rest)
                 ++ [AGet k1; APut k' v'])
              (New m (Some cb)) [] w0 (New_refines _ _))
    as (c & Hrun & Hr & _).
  simpl cap in Hrun, Hr. simpl evict in Hrun, Hr.
  rewrite model_touch_then_overflow in Hrun, Hr by done.
  cbn [fst snd] in Hrun, Hr.
  apply unequal_cons in Hnd as [Hk' Hnd].
  rewrite !fmap_cons in Hnd. cbn [fst] in Hnd.
  apply unequal_cons in Hnd as [Hk1 Hnd].
  apply unequal_cons in Hnd as [Hk2 _].
  apply Forall_cons in Hk1 as [Hk12 Hk1].
  rewrite !fmap_cons in Hk'. simpl in Hk'.
  apply Forall_cons in Hk' as [Hk'1 Hk'].
  apply Forall_cons in Hk' as [Hk'2 Hk'].
  eexists c, _, _. split; [exact Hrun|]. split_and!; try done.
  - destruct (Get_refines k2 c _ Hr) as (c' & -> & _). simpl.
    unfold model_get. rewrite extract_None; [done|].
    apply Forall_cons. split; [done|].
    apply Forall_cons. split; [done|].
    apply Forall_reverse. by apply others_fmap.
  - destruct (Get_refines k1 c _ Hr) as (c' & -> & _). simpl.
    unfold model_get. csimpl. by rewrite Hk'1, Hk11.
  - destruct (Get_refines k' c _ Hr) as (c' & -> & _). simpl.
    unfold model_get. csimpl. by rewrite Hk''.
Qed.
End extras_order.

(** ** The further properties at concrete caches *)

Section extras_scenarios.
Local Open Scope Z_scope.

(** The links of the full capacity-2 cache are a recency list: b, then
    a. *)
Lemma full_two_recency : recency full_two [1%nat; 0%nat].
Proof.
  constructor.
  - apply perm_swap.
  - by vm_compute.
  - by intros h [= <-].
  - done.
Qed.

(** X3 at the full capacity-2 cache, whose tail is slot 0. *)
Lemma X3_witness :
  ∃ c' w' err,
    Clear full_two (no_calls tt) = Some (c', w', err) ∧
    ∀ acc : list (access string Z),
      ∃ c1 c2 w'' out,
        run (op_of <$> acc) (c', w') = Some ((c1, w''), out) ∧
        run (op_of <$> acc) (New (cap full_two) (evict full_two), w') =
          Some ((c2, w''), out).
Proof.
  apply (X3_clear_at_tail_zero_is_fresh full_two (no_calls tt)).
  - exact full_two_reachable.
  - reflexivity.
Defined.

(** X4 at the full capacity-2 cache: put(c,3), then get(c). *)
Lemma X4_witness :
  ∃ c' w' err,
    Put "c" 3 full_two (no_calls tt) = Some (c', w', err) ∧
    snd <$> Get "c" c' = Some (3, true).
Proof.
  apply (X4_get_after_put full_two (no_calls tt) "c" 3).
  - exact full_two_reachable.
  - simpl. lia.
  - reflexivity.
Defined.

(** X5 at the full capacity-2 cache: put(c,3) and the key b. *)
Lemma X5_witness :
  ∃ c' w' err,
    Put "c" 3 full_two (no_calls tt) = Some (c', w', err) ∧
    (snd <$> Get "b" c' = snd <$> Get "b" full_two ∨
     (len full_two = cap full_two ∧ map_get "c" (keys full_two) = None ∧
      (∃ kt, (key <$> data full_two) !! tail full_two = Some kt ∧
             keq kt "b" = true) ∧
      snd <$> Get "b" c' = Some (zero, false))).
Proof.
  apply (X5_put_keeps_other_keys full_two (no_calls tt) "c" "b" 3).
  - exact full_two_reachable.
  - reflexivity.
Defined.

(** X6 at the full capacity-2 cache: get(a). *)
Lemma X6_witness :
  ∃ c' r,
    Get "a" full_two = Some (c', r) ∧
    len c' = len full_two ∧
    keys c' = keys full_two ∧
    entries c' = entries full_two ∧
    ∀ k' : string, snd <$> Get k' c' = snd <$> Get k' full_two.
Proof.
  apply (X6_get_keeps_contents full_two (no_calls tt) "a").
  exact full_two_reachable.
Defined.

(** X7 at the full capacity-2 cache: put(c,3). *)
Lemma X7_witness :
  ∃ c' w' err,
    Put "c" 3 full_two (no_calls tt) = Some (c', w', err) ∧
    match map_get "c" (keys full_two) with
    | Some i =>
        ∃ k0 v0, entries full_two !! i = Some (k0, v0) ∧
                 keq k0 "c" = true ∧
                 entries c' = <[i := (k0, 3)]> (entries full_two)
    | None =>
        entries c' =
          if decide (len full_two < cap full_two)%nat
          then entries full_two ++ [("c", 3)]
          else <[tail full_two := ("c", 3)]> (entries full_two)
    end.
Proof.
  apply (X7_put_and_iteration_order full_two (no_calls tt) "c" 3).
  - exact full_two_reachable.
  - simpl. lia.
Defined.

(** X8 at the full capacity-2 cache. *)
Lemma X8_witness :
  (∀ j1 j2 p1 p2,
     entries full_two !! j1 = Some p1 → entries full_two !! j2 = Some p2 →
     keq p1.1 p2.1 = true → j1 = j2) ∧
  ∀ (k : string) (v : Z),
    (∃ k0, keq k0 k = true ∧ (k0, v) ∈ entries full_two) ↔
    snd <$> Get k full_two = Some (v, true).
Proof.
  apply (X8_iteration_matches_lookup full_two (no_calls tt)).
  exact full_two_reachable.
Defined.

(** X9 at the full capacity-2 cache with the failing callback. *)
Lemma X9_witness :
  ∃ c' w' err,
    Put "c" 3 full_two_failing (no_calls (Env:=list (string * Z)) []) =
      Some (c', w', err) ∧
    ((w' = no_calls (Env:=list (string * Z)) [] ∧ err = None) ∨
     (len full_two_failing = cap full_two_failing ∧
      map_get "c" (keys full_two_failing) = None ∧
      ∃ cb victim,
        evict full_two_failing = Some cb ∧
        data full_two_failing !! tail full_two_failing = Some victim ∧
        calls w' =
          calls (no_calls (K:=string) (Env:=list (string * Z)) [])
            ++ [(key victim, val victim)] ∧
        err = (cb (env (no_calls (K:=string) (Env:=list (string * Z)) []))
                 (key victim) (val victim)).2)).
Proof.
  apply (X9_put_calls_back_only_to_evict full_two_failing
           (no_calls (Env:=list (string * Z)) []) "c" 3).
  exact full_two_failing_reachable.
Defined.

(** X10 at the full capacity-2 cache: get(a) twice. *)
Lemma X10_witness :
  ∃ c' r, Get "a" full_two = Some (c', r) ∧ Get "a" c' = Some (c', r).
Proof.
  apply (X10_get_twice full_two (no_calls tt) "a").
  exact full_two_reachable.
Defined.

(** X11 with capacity 2: put(a,1); put(b,2); get(a); put(c,3). *)
Lemma X11_witness :
  ∃ c w out,
    run (op_of <$> (((λ p, APut p.1 p.2) <$> [("a", 1); ("b", 2)])
                      ++ [AGet "a"; APut "c" 3]))
      (New 2 (Some recorder), no_calls []) = Some ((c, w), out) ∧
    out = replicate 2 (ObsPut None)
            ++ [ObsGet 1 true; ObsPut (recorder [] "b" 2).2] ∧
    calls w = [] ++ [("b", 2)] ∧
    env w = (recorder [] "b" 2).1 ∧
    snd <$> Get "b" c = Some (zero, false) ∧
    snd <$> Get "a" c = Some (1, true) ∧
    snd <$> Get "c" c = Some (3, true).
Proof.
  apply (X11_touched_entry_survives_overflow 2 recorder (no_calls [])
           "a" "b" "c" 1 2 3 []).
  - reflexivity.
  - reflexivity.
  - reflexivity.
  - reflexivity.
Defined.
End extras_scenarios.

(** * The linear-scan cache *)

Module linear_facts.
Import linear.

Section loops.
Context {K : Type} `{Comparable K} {V E Env : Type}.
Context `{Zero K} `{Zero V}.
Implicit Types (c : Cache K V E Env) (w : World K V Env).
Implicit Types (ks : list K) (key k : K) (val v : V).

Lemma write_inside {A} i (x : A) (l : list A) :
  i < length l → write i x l = Some (<[i := x]> l).
Proof. intros ?. unfold write. by rewrite decide_True. Qed.

Lemma holds_lookup ks j k key :
  ks !! j = Some k → holds ks j key ↔ keq k key = true.
Proof.
  intros Hk. split.
  - intros (k' & Hk' & Hkk). congruence.
  - intros Hkk. by exists k.
Qed.

Lemma not_holds_lookup ks j k key :
  ks !! j = Some k → ¬ holds ks j key → keq k key = false.
Proof.
  intros Hk Hn. destruct (keq k key) eqn:Hkk; [|done].
  exfalso. apply Hn. by exists k.
Qed.

Lemma holds_dec ks j key : holds ks j key ∨ ¬ holds ks j key.
Proof.
  destruct (ks !! j) as [k|] eqn:Hk.
  - destruct (keq k key) eqn:Hkk.
    + left. by exists k.
    + right. intros (k' & Hk' & Hkk'). congruence.
  - right. intros (k' & Hk' & _). congruence.
Qed.

(** The first slot from index [i] on, within [n] steps, that holds a
    key equal to [key], if there is one. *)
Lemma first_from ks key n i :
  (∃ j, i ≤ j < i + n ∧ holds ks j key ∧
        ∀ j', i ≤ j' < j → ¬ holds ks j' key) ∨
  (∀ j, i ≤ j < i + n → ¬ holds ks j key).
Proof.
  revert i. induction n as [|n IH]; intros i.
  - right. intros j ?. lia.
  - destruct (holds_dec ks i key) as [Hi|Hi].
    + left. exists i. split; [lia|]. split; [done|]. intros j' ?. lia.
    + destruct (IH (S i)) as [(j & Hj & Hk & Hfirst)|Hnone].
      * left. exists j. split; [lia|]. split; [done|].
        intros j' Hj'. destruct (decide (j' = i)) as [->|]; [done|].
        apply Hfirst. lia.
      * right. intros j Hj. destruct (decide (j = i)) as [->|]; [done|].
        apply Hnone. lia.
Qed.

(** *** The loop of [Get] *)

Lemma get_loop_miss n i key c :
  i + n ≤ length (keys c) →
  (∀ j, i ≤ j < i + n → ¬ holds (keys c) j key) →
  get_loop n i key c = Some (c, (zero, false)).
Proof.
  revert i. induction n as [|n IH]; intros i Hlen Hnone; [done|].
  cbn [get_loop].
  destruct (lookup_lt_is_Some_2 (keys c) i) as [k Hk]; [lia|].
  rewrite Hk. simpl.
  rewrite (not_holds_lookup (keys c) i k key) by (done || apply Hnone; lia).
  apply IH; [lia|]. intros j Hj. apply Hnone. lia.
Qed.

Lemma get_loop_hit n i j key c :
  shape c → i + n ≤ length (keys c) →
  i ≤ j < i + n → holds (keys c) j key →
  (∀ j', i ≤ j' < j → ¬ holds (keys c) j' key) →
  ∃ v, vals c !! j = Some v ∧
       get_loop n i key c =
         Some (set_seen (<[j := count c]> (seen c)) c, (v, true)).
Proof.
  intros [Hv Hs _]. revert i.
  induction n as [|n IH]; intros i Hlen Hj Hk Hfirst; [lia|].
  cbn [get_loop].
  destruct (decide (i = j)) as [->|Hne].
  - destruct Hk as (kj & -> & Hkk). simpl. rewrite Hkk.
    rewrite write_inside by lia. simpl.
    destruct (lookup_lt_is_Some_2 (vals c) j) as [v Hvj]; [lia|].
    exists v. by rewrite Hvj.
  - destruct (lookup_lt_is_Some_2 (keys c) i) as [k Hki]; [lia|].
    rewrite Hki. simpl.
    rewrite (not_holds_lookup (keys c) i k key)
      by (done || apply Hfirst; lia).
    apply IH; [lia|lia|done|]. intros j' ?. apply Hfirst. lia.
Qed.

(** *** The search loop of [Put] *)

Lemma find_loop_miss n i key ks :
  i + n ≤ length ks →
  (∀ j, i ≤ j < i + n → ¬ holds ks j key) →
  find_loop n i key ks = Some (i + n).
Proof.
  revert i. induction n as [|n IH]; intros i Hlen Hnone.
  - simpl. f_equal. lia.
  - cbn [find_loop].
    destruct (lookup_lt_is_Some_2 ks i) as [k Hk]; [lia|].
    rewrite Hk. simpl.
    rewrite (not_holds_lookup ks i k key) by (done || apply Hnone; lia).
    simpl. rewrite IH; [f_equal; lia|lia|].
    intros j Hj. apply Hnone. lia.
Qed.

Lemma find_loop_hit n i j key ks :
  i + n ≤ length ks →
  i ≤ j < i + n → holds ks j key →
  (∀ j', i ≤ j' < j → ¬ holds ks j' key) →
  find_loop n i key ks = Some j.
Proof.
  revert i. induction n as [|n IH]; intros i Hlen Hj Hk Hfirst; [lia|].
  cbn [find_loop].
  destruct (decide (i = j)) as [->|Hne].
  - destruct Hk as (kj & -> & Hkk). simpl. by rewrite Hkk.
  - destruct (lookup_lt_is_Some_2 ks i) as [k Hki]; [lia|].
    rewrite Hki. simpl.
    rewrite (not_holds_lookup ks i k key) by (done || apply Hfirst; lia).
    simpl. apply IH; [lia|lia|done|]. intros j' ?. apply Hfirst. lia.
Qed.

(** *** The loop of [Put] on a full cache *)

Lemma full_loop_hit cnt i j n min key val c :
  shape c → i + cnt ≤ length (keys c) →
  i ≤ j < i + cnt → holds (keys c) j key →
  (∀ j', i ≤ j' < j → ¬ holds (keys c) j' key) →
  full_loop cnt i n min key val c =
    Some (inl (set_seen (<[j := count c]> (seen c))
                 (set_vals (<[j := val]> (vals c)) c))).
Proof.
  intros [Hv Hs _]. revert i n min.
  induction cnt as [|cnt IH]; intros i n min Hlen Hj Hk Hfirst; [lia|].
  cbn [full_loop].
  destruct (lookup_lt_is_Some_2 (seen c) i) as [s Hsi]; [lia|].
  rewrite Hsi. simpl.
  destruct (decide (i = j)) as [->|Hne].
  - destruct Hk as (kj & Hkj & Hkk). rewrite keq_sym in Hkk.
    destruct (bool_decide (s < min)%Z); rewrite Hkj; simpl; rewrite Hkk;
      rewrite !write_inside by lia; done.
  - destruct (lookup_lt_is_Some_2 (keys c) i) as [k Hki]; [lia|].
    assert (keq key k = false) as Hkk.
    { rewrite keq_sym. apply (not_holds_lookup (keys c) i); [done|].
      apply Hfirst. lia. }
    destruct (bool_decide (s < min)%Z); rewrite Hki; simpl; rewrite Hkk;
      (apply IH; [lia|lia|done|]; intros j' ?; apply Hfirst; lia).
Qed.

(** When no slot holds the key, the loop returns the first index that
    holds the smallest stamp. *)
Lemma full_loop_miss cnt i n min key val c :
  shape c → i + cnt ≤ length (keys c) →
  (∀ j, i ≤ j < i + cnt → ¬ holds (keys c) j key) →
  (∀ j s, j < i → seen c !! j = Some s → (min ≤ s)%Z) →
  (n < i ∧ seen c !! n = Some min ∨ n = 0 ∧ min = MaxUint64) →
  ∃ n' min',
    full_loop cnt i n min key val c = Some (inr n') ∧
    (∀ j s, j < i + cnt → seen c !! j = Some s → (min' ≤ s)%Z) ∧
    (n' < i + cnt ∧ seen c !! n' = Some min' ∨ n' = 0 ∧ min' = MaxUint64).
Proof.
  intros [Hv Hs _]. revert i n min.
  induction cnt as [|cnt IH]; intros i n min Hlen Hnone Hmin Hn.
  - exists n, min. split; [done|]. split.
    + intros j s ?. apply Hmin. lia.
    + destruct Hn as [[? ?]|?]; [left; split; [lia|done] | by right].
  - cbn [full_loop].
    destruct (lookup_lt_is_Some_2 (seen c) i) as [s Hsi]; [lia|].
    rewrite Hsi. simpl.
    destruct (lookup_lt_is_Some_2 (keys c) i) as [k Hki]; [lia|].
    assert (keq key k = false) as Hkk.
    { rewrite keq_sym. apply (not_holds_lookup (keys c) i); [done|].
      apply Hnone. lia. }
    destruct (bool_decide (s < min)%Z) eqn:Hlt.
    + apply bool_decide_eq_true in Hlt.
      rewrite Hki. simpl. rewrite Hkk.
      destruct (IH (S i) i s) as (n' & min' & -> & Hmin' & Hn').
      * lia.
      * intros j ?. apply Hnone. lia.
      * intros j s' Hj Hs'. destruct (decide (j = i)) as [->|].
        -- rewrite Hsi in Hs'. injection Hs' as <-. lia.
        -- assert (min ≤ s')%Z by (apply (Hmin j); [lia|done]). lia.
      * left. split; [lia|done].
      * exists n', min'. split; [done|]. split.
        -- intros j s' ?. apply Hmin'. lia.
        -- destruct Hn' as [[? ?]|?]; [left; split; [lia|done] | by right].
    + apply bool_decide_eq_false in Hlt.
      rewrite Hki. simpl. rewrite Hkk.
      destruct (IH (S i) n min) as (n' & min' & -> & Hmin' & Hn').
      * lia.
      * intros j ?. apply Hnone. lia.
      * intros j s' Hj Hs'. destruct (decide (j = i)) as [->|].
        -- rewrite Hsi in Hs'. injection Hs' as <-. lia.
        -- apply (Hmin j); [lia|done].
      * destruct Hn as [[? ?]|?]; [left; split; [lia|done] | by right].
      * exists n', min'. split; [done|]. split.
        -- intros j s' ?. apply Hmin'. lia.
        -- destruct Hn' as [[? ?]|?]; [left; split; [lia|done] | by right].
Qed.

(** *** The invariant *)

Lemma u64_range z : (0 ≤ u64 z ≤ MaxUint64)%Z.
Proof.
  unfold u64, MaxUint64.
  pose proof (Z.mod_pos_bound z (2 ^ 64)) as Hb. lia.
Qed.

(** At most one active slot holds a key equal to [key]. *)
Lemma active_unique c j j' key :
  inv c → j < len c → j' < len c →
  holds (keys c) j key → holds (keys c) j' key → j = j'.
Proof.
  intros [_ _ _ Hd] Hj Hj' (k & Hk & Hkk) (k' & Hk' & Hkk').
  apply (Hd j j' k k'); try done.
  eapply keq_trans; [exact Hkk|]. by rewrite keq_sym.
Qed.

(** A key that no active slot holds is written to slot [j]: an active
    slot, or the first free one. *)
Lemma distinct_put c c' j key :
  distinct c → (∀ j', j' < len c → ¬ holds (keys c) j' key) →
  keys c' = <[j := key]> (keys c) → j < length (keys c) →
  (len c' = len c ∧ j < len c ∨ len c' = S (len c) ∧ j = len c) →
  distinct c'.
Proof.
  intros Hd Hnone Hks Hj Hlen i1 i2 k1 k2 Hi1 Hi2. rewrite Hks.
  destruct (decide (i1 = j)) as [->|Hn1], (decide (i2 = j)) as [->|Hn2];
    rewrite ?list_lookup_insert_eq, ?list_lookup_insert_ne by done.
  - done.
  - intros [= <-] Hk2 Hkk. exfalso. apply (Hnone i2); [lia|].
    exists k2. split; [done|]. by rewrite keq_sym.
  - intros Hk1 [= <-] Hkk. exfalso. apply (Hnone i1); [lia|].
    by exists k1.
  - apply Hd; lia.
Qed.

Lemma inv_tick c : inv c → inv (tick c).
Proof.
  intros [[? ? ?] ? ? ?]. constructor; simpl; try done.
  apply u64_range.
Qed.

Lemma inv_stamp c j s :
  inv c → (0 ≤ s ≤ MaxUint64)%Z → inv (set_seen (<[j := s]> (seen c)) c).
Proof.
  intros [[? ? ?] ? ? ?] Hs. constructor; simpl; try done.
  - constructor; simpl; try done. by rewrite length_insert.
  - by apply Forall_insert.
Qed.

Lemma New_inv size (ev : option (evict_func K V E Env)) : inv (New size ev).
Proof.
  constructor; simpl.
  - constructor; simpl; rewrite ?length_replicate; lia.
  - apply Forall_replicate. unfold MaxUint64. lia.
  - unfold MaxUint64. lia.
  - intros i j ki kj Hi. simpl in Hi. lia.
Qed.

(** *** [Get] *)

Lemma scan_Get_hit j key c :
  inv c → j < len c → holds (keys c) j key →
  ∃ v, vals c !! j = Some v ∧
       Get key c =
         Some (set_seen (<[j := u64 (count c + 1)]> (seen c)) (tick c),
               (v, true)).
Proof.
  intros Hinv Hj Hk. pose proof Hinv as [[Hv Hs Hl] _ _ _].
  unfold Get.
  assert (shape (tick c)) as Hsh by (by destruct (inv_tick c Hinv)).
  assert (0 + len (tick c) ≤ length (keys (tick c))) as Hb by (simpl; lia).
  assert (0 ≤ j < 0 + len (tick c)) as Hj0 by (simpl; lia).
  assert (∀ j', 0 ≤ j' < j → ¬ holds (keys (tick c)) j' key) as Hfirst.
  { intros j' Hj' Hk'. assert (j' = j); [|lia].
    eapply (active_unique c); try done. lia. }
  destruct (get_loop_hit (len (tick c)) 0 j key (tick c) Hsh Hb Hj0 Hk Hfirst)
    as (v & Hvj & ->).
  by exists v.
Qed.

Lemma scan_Get_miss key c :
  inv c → (∀ j, j < len c → ¬ holds (keys c) j key) →
  Get key c = Some (tick c, (zero, false)).
Proof.
  intros [[Hv Hs Hl] _ _ _] Hnone. unfold Get.
  apply get_loop_miss; simpl; [lia|]. intros j ?. apply Hnone. lia.
Qed.

(** *** [Put] *)

Ltac red_fields :=
  cbn [mbind option_bind keys vals seen len count evict tick
       set_keys set_vals set_seen set_len].

(** What a [Put] does: the entry goes to one index [j] - that of the
    slot that holds the key, the first free one, or that of the entry
    with the smallest stamp - which then holds the key [k0]: the key
    stored there before when the key is cached, the new key otherwise. *)
Lemma scan_Put_effect key val c w :
  inv c → length (keys c) ≠ 0 →
  ∃ j k0 c' w' err,
    Put key val c w = Some (c', w', err) ∧ inv c' ∧
    j < len c' ∧
    keys c' = <[j := k0]> (keys c) ∧
    vals c' = <[j := val]> (vals c) ∧
    seen c' = <[j := u64 (count c + 1)]> (seen c) ∧
    count c' = u64 (count c + 1) ∧ evict c' = evict c ∧
    ((j < len c ∧ keys c !! j = Some k0 ∧ keq k0 key = true ∧
      len c' = len c ∧ w' = w ∧ err = None) ∨
     (k0 = key ∧ (∀ j', j' < len c → ¬ holds (keys c) j' key) ∧
      ((j = len c ∧ len c < length (keys c) ∧ len c' = S (len c) ∧
        w' = w ∧ err = None) ∨
       (len c = length (keys c) ∧ len c' = len c ∧ j < len c ∧
        (∀ j' s s', j' < len c → seen c !! j = Some s →
                    seen c !! j' = Some s' → (s ≤ s')%Z) ∧
        ∃ kv v0,
          keys c !! j = Some kv ∧ vals c !! j = Some v0 ∧
          (w', err) = match evict c with
                      | Some f => call_evict f kv v0 w
                      | None => (w, None)
                      end)))).
Proof.
  intros Hinv Hsize. pose proof Hinv as [[Hv Hs Hl] Hseen Hcount Hnd].
  pose proof (u64_range (count c + 1)) as Hu.
  unfold Put. red_fields. rewrite decide_False by done.
  destruct (decide (len c < length (keys c))) as [Hroom|Hfull].
  - destruct (first_from (keys c) key (len c) 0)
      as [(j & Hj & Hk & Hfirst)|Hnone].
    + (* the key is cached *)
      rewrite (find_loop_hit (len c) 0 j key (keys c)) by (done || lia).
      red_fields.
      rewrite !write_inside by lia. red_fields.
      rewrite decide_False by lia.
      destruct Hk as (k0 & Hk0 & Hkk).
      eexists j, k0, _, w, None. split; [done|]. simpl.
      split_and!; try done.
      * constructor; simpl; try done.
        -- constructor; simpl; rewrite ?length_insert; done.
        -- by apply Forall_insert.
      * lia.
      * symmetry. by apply list_insert_id.
      * left. split_and!; try done. lia.
    + (* the key is new and there is room *)
      rewrite (find_loop_miss (len c) 0 key (keys c)) by (done || lia).
      change (0 + len c) with (len c). red_fields.
      rewrite !write_inside by lia. red_fields.
      rewrite decide_True by done. red_fields.
      rewrite ?write_inside by lia. red_fields.
      eexists (len c), key, _, w, None. split; [done|]. simpl.
      split_and!; try done.
      * constructor; simpl; try done.
        -- constructor; simpl; rewrite ?length_insert; lia.
        -- by apply Forall_insert.
        -- apply (distinct_put c _ (len c) key); simpl; try done.
           ++ intros j ?. apply Hnone. lia.
           ++ by right.
      * lia.
      * right. split; [done|]. split; [intros j ?; apply Hnone; lia|].
        left. by split_and!.
  - assert (len c = length (keys c)) as Hlen by lia.
    assert (shape (tick c)) as Hsh by (by destruct (inv_tick c Hinv)).
    assert (0 + len c ≤ length (keys (tick c))) as Hb by (simpl; lia).
    destruct (first_from (keys c) key (len c) 0)
      as [(j & Hj & Hk & Hfirst)|Hnone].
    + (* the key is cached *)
      rewrite (full_loop_hit (len c) 0 j 0 MaxUint64 key val (tick c)
                 Hsh Hb Hj Hk Hfirst).
      red_fields.
      destruct Hk as (k0 & Hk0 & Hkk).
      eexists j, k0, _, w, None. split; [done|]. simpl.
      split_and!; try done.
      * constructor; simpl; try done.
        -- constructor; simpl; rewrite ?length_insert; done.
        -- by apply Forall_insert.
      * lia.
      * symmetry. by apply list_insert_id.
      * left. split_and!; try done. lia.
    + (* the key is new and the cache is full *)
      destruct (full_loop_miss (len c) 0 0 MaxUint64 key val (tick c)
                  Hsh Hb Hnone)
        as (n & min & -> & Hmin & Hn).
      { intros j s ?. lia. }
      { by right. }
      simpl in Hmin, Hn. red_fields.
      assert (n < len c) as Hnl.
      { destruct Hn as [[? _]|[-> _]]; lia. }
      destruct (lookup_lt_is_Some_2 (keys c) n) as [kv Hkv]; [lia|].
      destruct (lookup_lt_is_Some_2 (vals c) n) as [v0 Hv0]; [lia|].
      red_fields.
      assert (∃ w' err,
                 match evict c with
                 | Some f =>
                     k ← keys c !! n; v ← vals c !! n;
                     Some (call_evict f k v w)
                 | None => Some (w, None)
                 end = Some (w', err) ∧
                 (w', err) = match evict c with
                             | Some f => call_evict f kv v0 w
                             | None => (w, None)
                             end) as (w' & err & -> & Hwe).
      { rewrite Hkv, Hv0. simpl. destruct (evict c) as [f|].
        - destruct (call_evict f kv v0 w) as [w' err]. by exists w', err.
        - by exists w, None. }
      red_fields. rewrite !write_inside by lia.
      red_fields.
      eexists n, key, _, w', err. split; [done|]. simpl.
      split_and!; try done.
      * constructor; simpl; try done.
        -- constructor; simpl; rewrite ?length_insert; done.
        -- by apply Forall_insert.
        -- apply (distinct_put c _ n key); simpl; try done.
           ++ intros j ?. apply Hnone. lia.
           ++ lia.
           ++ left. by split.
      * right. split; [done|]. split; [intros j ?; apply Hnone; lia|]. right.
        split_and!; try done.
        -- intros j' s s' Hj' Hsn Hsj'.
           pose proof (Hmin j' s' ltac:(lia) Hsj') as Hle.
           destruct Hn as [[_ Hsn']|[_ ->]].
           ++ rewrite Hsn in Hsn'. injection Hsn' as ->. done.
           ++ pose proof (proj1 (Forall_lookup _ _) Hseen n s Hsn) as Hr.
              simpl in Hr. lia.
        -- by exists kv, v0.
Qed.

(** *** [Clear] *)

Lemma clear_loop_ok n i (f : evict_func K V E Env) c w err :
  shape c → i + n ≤ length (keys c) →
  ∃ w' err',
    clear_loop n i f c w err = Some (w', err') ∧
    calls w' =
      calls w ++ zip (take n (drop i (keys c))) (take n (drop i (vals c))).
Proof.
  intros [Hv Hs _]. revert i w err.
  induction n as [|n IH]; intros i w err Hlen.
  - exists w, err. split; [done|]. simpl. by rewrite app_nil_r.
  - cbn [clear_loop].
    destruct (lookup_lt_is_Some_2 (keys c) i) as [k Hk]; [lia|].
    destruct (lookup_lt_is_Some_2 (vals c) i) as [v Hvi]; [lia|].
    rewrite Hk, Hvi. simpl.
    destruct (call_evict f k v w) as [w1 e] eqn:Hcall.
    destruct (IH (S i) w1 (Join [err; e])) as (w' & err' & -> & Hcalls);
      [lia|].
    exists w', err'. split; [done|]. rewrite Hcalls.
    rewrite (drop_S _ _ _ Hk), (drop_S _ _ _ Hvi). simpl.
    unfold call_evict in Hcall. destruct (f (env w) k v) as [s e'].
    injection Hcall as <- _. simpl. by rewrite <- app_assoc.
Qed.

(** [Clear] leaves the cache as [New] builds it. *)
Lemma Clear_effect c w :
  inv c →
  ∃ w' err,
    Clear c w = Some (New (length (keys c)) (evict c), w', err) ∧
    match evict c with
    | Some _ => calls w' = calls w ++ entries c
    | None => w' = w ∧ err = None
    end.
Proof.
  intros [[Hv Hs Hl] _ _ _]. unfold Clear, New. rewrite Hv, Hs.
  destruct (evict c) as [f|] eqn:Hev.
  - destruct (clear_loop_ok (len c) 0 f c w None) as (w' & err & -> & Hcalls);
      [done|lia|].
    exists w', err. split; [done|]. by rewrite Hcalls.
  - by exists w, None.
Qed.

(** *** [Grow] *)

(** [Grow] returns when the arrays stay within the largest [int]. *)
Lemma Grow_fits more c :
  (Z.of_nat (length (keys c) + more) ≤ MaxInt)%Z →
  ∃ c', Grow more c = Some c' ∧ length (keys c') = length (keys c) + more.
Proof.
  intros Hfit. unfold Grow. rewrite decide_True by done.
  eexists. split; [done|]. simpl.
  by rewrite length_app, length_replicate.
Qed.

(** What [Grow] returns, when it does. *)
Lemma Grow_effect more c c' :
  Grow more c = Some c' →
  keys c' = keys c ++ replicate more zero ∧
  vals c' = vals c ++ replicate more zero ∧
  seen c' = seen c ++ replicate more 0%Z ∧
  len c' = len c ∧ count c' = count c ∧ evict c' = evict c.
Proof. unfold Grow. case_decide; [|done]. by intros [= <-]. Qed.

Lemma Grow_inv more c c' : inv c → Grow more c = Some c' → inv c'.
Proof.
  intros [[Hv Hs Hl] Hseen Hcount Hnd] HG.
  apply Grow_effect in HG as (Hk' & Hv' & Hs' & Hl' & Hc' & _).
  constructor.
  - constructor; rewrite ?Hk', ?Hv', ?Hs', ?Hl', ?length_app,
      ?length_replicate; lia.
  - rewrite Hs'. apply Forall_app. split; [done|]. apply Forall_replicate.
    unfold MaxUint64. lia.
  - by rewrite Hc'.
  - intros i j ki kj. rewrite Hl', Hk'. intros Hi Hj.
    rewrite !lookup_app_l by lia. by apply Hnd.
Qed.

(** *** Runs *)

Lemma all_loop_ok {A} n i (yield : A → K → V → A * bool) c a :
  shape c → i + n ≤ length (keys c) → is_Some (all_loop n i yield c a).
Proof.
  intros [Hv Hs _]. revert i a. induction n as [|n IH]; intros i a Hlen.
  - by eexists.
  - cbn [all_loop].
    destruct (lookup_lt_is_Some_2 (keys c) i) as [k ->]; [lia|].
    destruct (lookup_lt_is_Some_2 (vals c) i) as [v ->]; [lia|]. simpl.
    destruct (yield a k v) as [a' [|]]; [apply IH; lia | by eexists].
Qed.

Lemma keys_loop_ok {A} n i (yield : A → K → A * bool) c a :
  i + n ≤ length (keys c) → is_Some (keys_loop n i yield c a).
Proof.
  revert i a. induction n as [|n IH]; intros i a Hlen.
  - by eexists.
  - cbn [keys_loop].
    destruct (lookup_lt_is_Some_2 (keys c) i) as [k ->]; [lia|]. simpl.
    destruct (yield a k) as [a' [|]]; [apply IH; lia | by eexists].
Qed.

Lemma Get_total key c :
  inv c →
  ∃ c' r, Get key c = Some (c', r) ∧ inv c' ∧
          keys c' = keys c ∧ vals c' = vals c ∧ len c' = len c ∧
          evict c' = evict c.
Proof.
  intros Hinv.
  destruct (first_from (keys c) key (len c) 0)
    as [(j & Hj & Hk & _)|Hnone].
  - destruct (scan_Get_hit j key c Hinv) as (v & _ & ->); [lia|done|].
    eexists _, _. split; [done|]. split_and!; try done.
    apply (inv_stamp (tick c)); [by apply inv_tick | apply u64_range].
  - rewrite scan_Get_miss; [|done|intros j ?; apply Hnone; lia].
    eexists _, _. split; [done|]. split_and!; try done. by apply inv_tick.
Qed.

(** A call runs to its end - a Grow when it stays within the largest
    [int] - and keeps the invariant. *)
Lemma step_inv (o : op K V) rest c w :
  inv c → fits (o :: rest) (length (keys c)) →
  ∃ c' w' x, step o (c, w) = Some ((c', w'), x) ∧ inv c' ∧
             evict c' = evict c ∧ fits rest (length (keys c')).
Proof.
  intros Hinv Hfit. pose proof Hinv as [Hsh _ _ _].
  destruct o as [k|k v|more| |more|more]; cbn [step]; cbn [fits] in Hfit.
  - destruct (Get_total k c Hinv) as (c' & [v ok] & -> & ? & Hk & _ & _ & ?).
    simpl. rewrite <- Hk in Hfit. eauto 10.
  - destruct (decide (length (keys c) = 0)) as [Hz|Hnz].
    + unfold Put. cbn [keys tick]. rewrite decide_True by done. simpl.
      eexists _, _, _. split; [done|]. split; [by apply inv_tick|done].
    + destruct (scan_Put_effect k v c w Hinv Hnz)
        as (j & k0 & c' & w' & err & -> & ? & _ & Hk & _ & _ & _ & ? & _).
      simpl. eexists _, _, _. split; [done|]. split_and!; try done.
      by rewrite Hk, length_insert.
  - destruct Hfit as [Hfit Hrest].
    destruct (Grow_fits more c Hfit) as (c' & HG & Hlen). rewrite HG. simpl.
    eexists _, _, _. split; [done|]. split_and!.
    + by eapply Grow_inv.
    + by apply Grow_effect in HG as (_ & _ & _ & _ & _ & ?).
    + by rewrite Hlen.
  - destruct (Clear_effect c w Hinv) as (w' & err & -> & _). simpl.
    eexists _, _, _. split; [done|]. split; [apply New_inv|].
    split; [done|]. simpl. by rewrite length_replicate.
  - unfold All.
    destruct (all_loop_ok (len c) 0
                (λ acc k v, collect more acc (k, v)) c [] Hsh)
      as [items ->]; [destruct Hsh; lia|]. simpl. eauto 10.
  - unfold Keys.
    destruct (keys_loop_ok (len c) 0 (collect more) c [])
      as [items ->]; [destruct Hsh; lia|]. simpl. eauto 10.
Qed.


(** A call that returns keeps the invariant. *)
Lemma step_keeps (o : op K V) c w c' w' x :
  inv c → step o (c, w) = Some ((c', w'), x) → inv c'.
Proof.
  intros Hinv.
  assert (fits [o] (length (keys c)) →
          step o (c, w) = Some ((c', w'), x) → inv c') as Hfit.
  { intros Hf. destruct (step_inv o [] c w Hinv Hf)
      as (c1 & w1 & x1 & -> & Hinv1 & _).
    by intros [= <- _ _]. }
  destruct o as [k|k v|more| |more|more]; try (by apply Hfit).
  cbn [step]. destruct (Grow more c) as [c1|] eqn:HG; [|done]. simpl.
  intros [= <- _ _]. by eapply Grow_inv.
Qed.

Lemma run_keeps (ops : list (op K V)) c w c' w' out :
  inv c → run ops (c, w) = Some ((c', w'), out) → inv c'.
Proof.
  revert c w out. induction ops as [|o ops IH]; intros c w out Hinv;
    cbn [run].
  - by intros [= <- _ _].
  - destruct (step o (c, w)) as [[[c1 w1] x]|] eqn:Hstep; [|done]. simpl.
    destruct (run ops (c1, w1)) as [[[c2 w2] xs]|] eqn:Hrun; [|done]. simpl.
    intros [= <- <- _]. apply (IH c1 w1 xs); [|done].
    by eapply step_keeps.
Qed.

Lemma reachable_inv c w : reachable (c, w) → inv c.
Proof.
  intros (size & ev & w0 & ops & out & Hrun).
  eapply run_keeps; [apply (New_inv size ev)|exact Hrun].
Qed.

(** A [Get] hits at the one active slot that holds the key, or misses. *)
Lemma Get_cases key c :
  inv c →
  (∃ j v, j < len c ∧ holds (keys c) j key ∧ vals c !! j = Some v ∧
          snd <$> Get key c = Some (v, true)) ∨
  ((∀ j, j < len c → ¬ holds (keys c) j key) ∧
   snd <$> Get key c = Some (zero, false)).
Proof.
  intros Hinv.
  destruct (first_from (keys c) key (len c) 0)
    as [(j & Hj & Hk & _)|Hnone].
  - left. destruct (scan_Get_hit j key c Hinv) as (v & Hv & ->); [lia|done|].
    exists j, v. split_and!; try done. lia.
  - right. assert (∀ j, j < len c → ¬ holds (keys c) j key) as Hnone'
      by (intros j ?; apply Hnone; lia).
    split; [done|]. by rewrite scan_Get_miss.
Qed.

Lemma Get_at j key v c :
  inv c → j < len c → holds (keys c) j key → vals c !! j = Some v →
  snd <$> Get key c = Some (v, true).
Proof.
  intros Hinv Hj Hk Hv.
  destruct (scan_Get_hit j key c Hinv Hj Hk) as (v' & Hv' & ->).
  simpl. congruence.
Qed.

Lemma Get_absent key c :
  inv c → (∀ j, j < len c → ¬ holds (keys c) j key) →
  snd <$> Get key c = Some (zero, false).
Proof. intros Hinv Hnone. by rewrite scan_Get_miss. Qed.
End loops.

Section linear_extras.
Context {K : Type} `{Comparable K} {V E Env : Type}.
Context `{Zero K} `{Zero V}.
Implicit Types (k : K).
Implicit Types (c : Cache K V E Env) (w : World K V Env).
Implicit Types (ev : option (evict_func K V E Env)).


(** X13.  On a linear-scan cache with at least one slot, a Get of the key
    just Put returns the value just Put, provided the key equals
    itself. *)
Theorem X13_linear_get_after_put c w (k : K) (v : V) :
  reachable (c, w) → length (keys c) ≠ 0 → keq k k = true →
  ∃ c' w' err,
    Put k v c w = Some (c', w', err) ∧
    snd <$> Get k c' = Some (v, true).
Proof.
  intros Hr Hnz Hkk. pose proof (reachable_inv c w Hr) as Hinv.
  destruct (scan_Put_effect k v c w Hinv Hnz)
    as (j & k0 & c' & w' & err & HP & Hinv' & Hj & Hks & Hvs & _ & _ & _
        & Hcase).
  exists c', w', err. split; [done|].
  pose proof Hinv' as [[Hv Hs Hl] _ _ _].
  apply (Get_at j); try done.
  - exists k0. split.
    + rewrite Hks. apply list_lookup_insert_eq.
      rewrite Hks, length_insert in Hl. lia.
    + destruct Hcase as [(_ & _ & ? & _)|(-> & _)]; done.
  - rewrite Hvs. apply list_lookup_insert_eq.
    rewrite Hvs, Hks, !length_insert in Hv.
    rewrite Hks, length_insert in Hl. lia.
Qed.

(** X14.  A Put of [k] on a linear-scan cache leaves every key [k'] that
    is not equal to [k] as it was, except the one key it evicts: on a
    full cache and a [k] that no active slot holds, the key of an active
    entry with the smallest stamp, which misses afterwards. *)
Theorem X14_linear_put_keeps_other_keys c w (k k' : K) (v : V) :
  reachable (c, w) → keq k' k = false →
  ∃ c' w' err,
    Put k v c w = Some (c', w', err) ∧
    (snd <$> Get k' c' = snd <$> Get k' c ∨
     (len c = length (keys c) ∧
      (∀ j, j < len c → ¬ holds (keys c) j k) ∧
      (∃ j s, j < len c ∧ holds (keys c) j k' ∧ seen c !! j = Some s ∧
              ∀ j' s', j' < len c → seen c !! j' = Some s' → (s ≤ s')%Z) ∧
      snd <$> Get k' c' = Some (zero, false))).
Proof.
  intros Hr Hne. pose proof (reachable_inv c w Hr) as Hinv.
  destruct (decide (length (keys c) = 0)) as [Hz|Hnz].
  { exists (tick c), w, None. split.
    - unfold Put. cbn [keys tick]. by rewrite decide_True.
    - left. pose proof Hinv as [[_ _ Hl] _ _ _].
      rewrite !Get_absent; try done; [|by apply inv_tick|];
        intros j ?; simpl in *; lia. }
  destruct (scan_Put_effect k v c w Hinv Hnz)
    as (j & k0 & c' & w' & err & HP & Hinv' & Hj & Hks & Hvs & _ & _ & _
        & Hcase).
  exists c', w', err. split; [done|].
  pose proof Hinv as [[Hv Hs Hl] _ _ _].
  assert (len c ≤ len c') as Hmono.
  { destruct Hcase as [(_ & _ & _ & -> & _)
      |(_ & _ & [(_ & _ & -> & _)|(_ & -> & _)])]; lia. }
  assert (∀ i, i ≠ j → keys c' !! i = keys c !! i) as Hkne
    by (intros i ?; rewrite Hks; by apply list_lookup_insert_ne).
  assert (∀ i, i ≠ j → vals c' !! i = vals c !! i) as Hvne
    by (intros i ?; rewrite Hvs; by apply list_lookup_insert_ne).
  assert (keys c' !! j = Some k0) as Hkj.
  { rewrite Hks. apply list_lookup_insert_eq.
    destruct Hinv' as [[_ _ Hl'] _ _ _].
    rewrite Hks, length_insert in Hl'. lia. }
  assert (∀ i, i ≠ j → holds (keys c') i k' ↔ holds (keys c) i k') as Hhne.
  { intros i Hi. unfold holds. by rewrite Hkne. }
  assert (holds (keys c') j k' → j < len c ∧ holds (keys c) j k') as Hhj.
  { intros (kj & Hkj' & Hkk). rewrite Hkj in Hkj'. injection Hkj' as <-.
    destruct Hcase as [(? & Hk0 & Hk0k & _)|(-> & _)].
    - split; [done|]. by exists k0.
    - rewrite keq_sym in Hkk. congruence. }
  destruct (Get_cases k' c Hinv)
    as [(j' & v' & Hj' & Hk' & Hv' & ->)|[Hnone ->]].
  - destruct (decide (j' = j)) as [->|Hjj].
    + (* [k'] sits where the new entry goes: it is evicted *)
      destruct Hk' as (kj & Hkj' & Hkjk').
      destruct Hcase as [(_ & Hk0 & Hk0k & _)
        |(-> & Hnew & [(-> & _)|(Hfull & Hlen' & _ & Hmin & _)])].
      * assert (kj = k0) as -> by congruence.
        assert (keq k' k = true); [|congruence].
        eapply keq_trans; [|exact Hk0k]. by rewrite keq_sym.
      * lia.
      * right. split; [done|]. split; [done|].
        destruct (lookup_lt_is_Some_2 (seen c) j) as [s Hsj]; [lia|].
        split.
        -- exists j, s. split_and!; try done; [by exists kj|].
           intros j'' s' ? Hs'. by apply (Hmin j'' s s').
        -- apply Get_absent; [done|]. intros i Hi Hki.
           destruct (decide (i = j)) as [->|Hij].
           ++ destruct Hki as (ki & Hki & Hkk). rewrite Hkj in Hki.
              injection Hki as <-. rewrite keq_sym in Hkk. congruence.
           ++ apply Hhne in Hki; [|done].
              apply Hij. apply (active_unique c i j k'); try done; [lia|].
              by exists kj.
    + left. apply (Get_at j'); try done; [lia| |].
      * by apply Hhne.
      * by rewrite Hvne.
  - left. apply Get_absent; [done|]. intros i Hi Hki.
    destruct (decide (i = j)) as [->|Hij].
    + destruct (Hhj Hki) as [? ?]. by apply (Hnone j).
    + apply Hhne in Hki; [|done]. apply (Hnone i); [|done].
      destruct Hcase as [(_ & _ & _ & Hl' & _)
        |(_ & _ & [(Hjl & _ & Hl' & _)|(_ & Hl' & _)])]; lia.
Qed.

(** X15.  Clear on a linear-scan cache calls the callback once on each
    active entry in storage order and leaves the cache exactly as
    [New] builds one of the same capacity: every array zeroed, [len] and
    [count] 0. *)
Theorem X15_linear_clear_is_new c w :
  reachable (c, w) →
  ∃ w' err,
    Clear c w = Some (New (length (keys c)) (evict c), w', err) ∧
    match evict c with
    | Some _ => calls w' = calls w ++ entries c
    | None => w' = w ∧ err = None
    end.
Proof. intros Hr. apply Clear_effect. by eapply reachable_inv. Qed.

End linear_extras.

(** ** The stamps order the entries by recency *)

Section ranking_facts.
Context {K : Type} `{Comparable K} {V E Env : Type}.
Context `{Zero K} `{Zero V}.
Implicit Types (k key : K).
Implicit Types (c : Cache K V E Env) (w : World K V Env).
Implicit Types (order pre post o : list nat) (l : list (K * V)).

Lemma newest_first_app c o1 o2 :
  newest_first c (o1 ++ o2) ↔
  newest_first c o1 ∧ newest_first c o2 ∧
  ∀ a b, a ∈ o1 → b ∈ o2 → (stamp c b < stamp c a)%Z.
Proof.
  induction o1 as [|x o1 IH]; cbn [app newest_first].
  - split; [intros ?; split_and!; try done; by intros ? ? ?%elem_of_nil|].
    by intros (_ & ? & _).
  - rewrite Forall_app, IH. split.
    + intros ((Hx1 & Hx2) & ? & ? & Hc). split_and!; try done.
      intros a b [->|Ha]%elem_of_cons Hb.
      * by apply (proj1 (Forall_forall _ _) Hx2).
      * by apply Hc.
    + intros ((Hx1 & ?) & ? & Hc). split_and!; try done.
      * apply Forall_forall. intros b Hb. apply Hc; [|done].
        apply list_elem_of_here.
      * intros a b Ha Hb. apply Hc; [|done]. by apply list_elem_of_further.
Qed.

Lemma newest_first_ext c c' order :
  (∀ a, a ∈ order → stamp c' a = stamp c a) →
  newest_first c order → newest_first c' order.
Proof.
  induction order as [|x order IH]; [done|]. cbn [newest_first].
  intros Hext [Hx Hrest]. split.
  - apply Forall_forall. intros b Hb.
    rewrite (Hext x) by apply list_elem_of_here.
    rewrite (Hext b) by (by apply list_elem_of_further).
    by apply (proj1 (Forall_forall _ _) Hx).
  - apply IH; [|done]. intros a Ha. apply Hext. by apply list_elem_of_further.
Qed.

(** Taking one slot out of the order keeps it an order. *)
Lemma newest_first_remove c pre j post :
  newest_first c (pre ++ j :: post) → newest_first c (pre ++ post).
Proof.
  rewrite !newest_first_app. cbn [newest_first].
  intros (? & (_ & ?) & Hc). split_and!; try done.
  intros a b Ha Hb. apply Hc; [done|]. by apply list_elem_of_further.
Qed.

(** A slot stamped after every slot of the order goes in front. *)
Lemma newest_first_push c order j :
  (∀ b, b ∈ order → (stamp c b < stamp c j)%Z) →
  newest_first c order → newest_first c (j :: order).
Proof. intros Hj Ho. split; [by apply Forall_forall|done]. Qed.

Lemma stamp_insert_eq c j s :
  j < length (seen c) → stamp (set_seen (<[j := s]> (seen c)) c) j = s.
Proof. intros ?. unfold stamp. simpl. by rewrite list_lookup_insert_eq. Qed.

Lemma stamp_insert_ne c j s a :
  a ≠ j → stamp (set_seen (<[j := s]> (seen c)) c) a = stamp c a.
Proof. intros ?. unfold stamp. simpl. by rewrite list_lookup_insert_ne. Qed.

Lemma u64_succ z :
  (0 ≤ z < MaxUint64)%Z → u64 (z + 1) = (z + 1)%Z.
Proof.
  unfold u64, MaxUint64. intros ?. apply Z.mod_small. lia.
Qed.

Lemma slot_entry_Some c a k v :
  slot_entry c a = Some (k, v) ↔ keys c !! a = Some k ∧ vals c !! a = Some v.
Proof.
  unfold slot_entry.
  destruct (keys c !! a) as [k'|], (vals c !! a) as [v'|]; simpl;
    split; try done; try (by intros [? ?]).
  - by intros [= -> ->].
  - by intros [[= ->] [= ->]].
Qed.

Lemma slots_elem c order l p :
  slot_entry c <$> order = Some <$> l → p ∈ l →
  ∃ a, a ∈ order ∧ slot_entry c a = Some p.
Proof.
  intros Hr Hp. apply list_elem_of_lookup_1 in Hp as [i Hi].
  assert ((slot_entry c <$> order) !! i = Some (Some p)) as Hi'
    by (by rewrite Hr, list_lookup_fmap, Hi).
  rewrite list_lookup_fmap in Hi'.
  destruct (order !! i) as [a|] eqn:Ha; [|done].
  exists a. split; [by eapply list_elem_of_lookup_2|]. by injection Hi'.
Qed.

Lemma order_lt c order a : order ≡ₚ seq 0 (len c) → a ∈ order → a < len c.
Proof. intros ->. rewrite elem_of_seq. lia. Qed.

Lemma order_has c order a : order ≡ₚ seq 0 (len c) → a < len c → a ∈ order.
Proof. intros ->. rewrite elem_of_seq. lia. Qed.

Lemma order_NoDup c order : order ≡ₚ seq 0 (len c) → NoDup order.
Proof. intros ->. apply NoDup_seq. Qed.

Lemma slots_length c order l :
  order ≡ₚ seq 0 (len c) → slot_entry c <$> order = Some <$> l →
  length l = len c.
Proof.
  intros Hp Hr. apply (f_equal length) in Hr. rewrite !length_fmap in Hr.
  by rewrite <- Hr, Hp, length_seq.
Qed.

(** A key that no active slot holds equals no key on the list. *)
Lemma ranked_miss c order l key :
  order ≡ₚ seq 0 (len c) → slot_entry c <$> order = Some <$> l →
  (∀ j, j < len c → ¬ holds (keys c) j key) →
  Forall (λ p, keq p.1 key = false) l.
Proof.
  intros Hp Hr Hnone. apply Forall_forall. intros [k v] Hkv. simpl.
  destruct (keq k key) eqn:Hkk; [|done]. exfalso.
  destruct (slots_elem c order l (k, v) Hr Hkv) as (a & Ha & He).
  apply slot_entry_Some in He as [Hk _].
  apply (Hnone a); [by eapply order_lt|]. by exists k.
Qed.

(** The list splits where the slot [j] is in the order. *)
Lemma slots_split c pre j post l :
  slot_entry c <$> (pre ++ j :: post) = Some <$> l →
  ∃ k0 v0 lpre lpost,
    l = lpre ++ (k0, v0) :: lpost ∧
    slot_entry c <$> pre = Some <$> lpre ∧
    slot_entry c <$> post = Some <$> lpost ∧
    keys c !! j = Some k0 ∧ vals c !! j = Some v0.
Proof.
  intros Hr. rewrite fmap_app, fmap_cons in Hr. symmetry in Hr.
  apply fmap_app_inv in Hr as (lpre & lrest & Hpre & Hrest & ->).
  destruct lrest as [|[k0 v0] lpost]; [done|].
  csimpl in Hrest. injection Hrest as He Hpost.
  apply slot_entry_Some in He as [Hk0 Hv0].
  by exists k0, v0, lpre, lpost.
Qed.

(** The entry of a key sits where its slot is in the order, and no key
    before it equals the key. *)
Lemma ranked_locate c pre j post l key :
  inv c → pre ++ j :: post ≡ₚ seq 0 (len c) →
  slot_entry c <$> (pre ++ j :: post) = Some <$> l →
  holds (keys c) j key →
  ∃ k0 v0 lpre lpost,
    l = lpre ++ (k0, v0) :: lpost ∧
    slot_entry c <$> pre = Some <$> lpre ∧
    slot_entry c <$> post = Some <$> lpost ∧
    keys c !! j = Some k0 ∧ keq k0 key = true ∧
    vals c !! j = Some v0 ∧
    Forall (λ p, keq p.1 key = false) lpre.
Proof.
  intros Hinv Hp Hr Hk.
  destruct (slots_split c pre j post l Hr)
    as (k0 & v0 & lpre & lpost & -> & Hpre & Hpost & Hk0 & Hv0).
  exists k0, v0, lpre, lpost. split_and!; try done.
  { by apply (holds_lookup (keys c) j). }
  apply Forall_forall. intros [k' v'] Hkv. simpl.
  destruct (keq k' key) eqn:Hkk; [|done]. exfalso.
  destruct (slots_elem c pre lpre (k', v') Hpre Hkv)
    as (a & Ha & Hea).
  apply slot_entry_Some in Hea as [Hka _].
  pose proof (order_NoDup c _ Hp) as Hnd.
  assert (a = j) as ->.
  { apply (active_unique c a j key); try done.
    - eapply order_lt; [done|]. apply elem_of_app. by left.
    - eapply order_lt; [done|]. apply elem_of_app. right.
      apply list_elem_of_here.
    - by exists k'. }
  apply NoDup_app in Hnd as (_ & Hdis & _).
  by eapply Hdis, list_elem_of_here.
Qed.

Lemma stamp_after c c' j t :
  seen c' = <[j := t]> (seen c) → j < length (seen c) →
  stamp c' j = t ∧ ∀ a, a ≠ j → stamp c' a = stamp c a.
Proof.
  intros Hs Hj. unfold stamp. rewrite Hs. split.
  - by rewrite list_lookup_insert_eq.
  - intros a ?. by rewrite list_lookup_insert_ne.
Qed.

Lemma slot_after c c' j key v :
  keys c' = <[j := key]> (keys c) → vals c' = <[j := v]> (vals c) →
  j < length (keys c) → j < length (vals c) →
  slot_entry c' j = Some (key, v) ∧
  ∀ a, a ≠ j → slot_entry c' a = slot_entry c a.
Proof.
  intros Hk Hv Hjk Hjv. unfold slot_entry. rewrite Hk, Hv. split.
  - by rewrite !list_lookup_insert_eq by done.
  - intros a ?. by rewrite !list_lookup_insert_ne by done.
Qed.

Lemma slots_after c c' j order :
  (∀ a, a ≠ j → slot_entry c' a = slot_entry c a) → j ∉ order →
  slot_entry c' <$> order = slot_entry c <$> order.
Proof.
  intros Hne Hj. apply list_fmap_ext. intros i a Ha. apply Hne.
  intros ->. apply Hj. by eapply list_elem_of_lookup_2.
Qed.

(** The new order after slot [j] got the newest stamp: [j] in front of
    the others. *)
Lemma order_after c c' j others :
  (∀ a, a ∈ others → a < len c) → j ∉ others →
  newest_first c others →
  (∀ a, a < len c → (stamp c a ≤ count c)%Z) →
  stamp c' j = (count c + 1)%Z →
  (∀ a, a ≠ j → stamp c' a = stamp c a) →
  newest_first c' (j :: others).
Proof.
  intros Hlt Hj Hnf Hst Hsj Hsne. apply newest_first_push.
  - intros b Hb. rewrite Hsj, Hsne by (by intros ->).
    pose proof (Hst b (Hlt b Hb)). lia.
  - eapply newest_first_ext; [|done]. intros a Ha. apply Hsne. by intros ->.
Qed.

(** Slot [j], which holds a key equal to [key], gets value [v] and the
    stamp [count + 1]. *)
Lemma ranked_touch c c' l j key v :
  ranked c l → inv c' → (count c < MaxUint64)%Z →
  j < len c → holds (keys c) j key →
  len c' = len c → keys c' = keys c →
  vals c' = <[j := v]> (vals c) →
  seen c' = <[j := (count c + 1)%Z]> (seen c) →
  count c' = (count c + 1)%Z →
  ∃ k0 v0 rest,
    extract key l = Some ((k0, v0), rest) ∧
    keys c !! j = Some k0 ∧ vals c !! j = Some v0 ∧
    ranked c' ((k0, v) :: rest).
Proof.
  intros [Hinv (order & Hp & Hnf & Hr) Hst] Hinv' Hc Hj Hk Hlen Hks Hvs Hss
    Hcount.
  pose proof Hinv as [[Hv Hs Hl] _ _ _].
  destruct (list_elem_of_split order j (order_has c order j Hp Hj))
    as (pre & post & ->).
  destruct (ranked_locate c pre j post l key Hinv Hp Hr Hk)
    as (k0 & v0 & lpre & lpost & -> & Hpre & Hpost & Hk0 & Hkk & Hv0
        & Hnotin).
  exists k0, v0, (lpre ++ lpost). split; [by apply extract_middle|].
  split; [done|]. split; [done|].
  destruct (stamp_after c c' j _ Hss) as [Hsj Hsne]; [lia|].
  destruct (slot_after c c' j k0 v) as [Hej Hene]; try done; try lia.
  { rewrite Hks. symmetry. by apply list_insert_id. }
  pose proof (order_NoDup c _ Hp) as Hnd.
  apply NoDup_app in Hnd as (_ & Hdis & Hnd).
  apply NoDup_cons in Hnd as [Hjpost _].
  assert (j ∉ pre) as Hjpre.
  { intros ?. by eapply Hdis, list_elem_of_here. }
  assert (j ∉ pre ++ post) as Hjo.
  { rewrite elem_of_app. by intros [?|?]. }
  constructor; [done| |].
  - exists (j :: pre ++ post). split_and!.
    + rewrite Hlen, <- Hp. apply Permutation_middle.
    + eapply order_after; try done.
      * intros a Ha. eapply order_lt; [done|].
        rewrite elem_of_app in Ha |- *. rewrite elem_of_cons. tauto.
      * by eapply newest_first_remove.
    + rewrite fmap_cons, Hej. rewrite (slots_after c c' j) by done.
      by rewrite fmap_app, Hpre, Hpost, <- fmap_app.
  - intros a Ha. rewrite Hcount. destruct (decide (a = j)) as [->|Hne].
    + lia.
    + rewrite Hsne by done. rewrite Hlen in Ha. pose proof (Hst a Ha). lia.
Qed.

(** A new key takes the free slot [len]. *)
Lemma ranked_push c c' l key v :
  ranked c l → inv c' → (count c < MaxUint64)%Z →
  len c < length (keys c) →
  (∀ j, j < len c → ¬ holds (keys c) j key) →
  len c' = S (len c) →
  keys c' = <[len c := key]> (keys c) →
  vals c' = <[len c := v]> (vals c) →
  seen c' = <[len c := (count c + 1)%Z]> (seen c) →
  count c' = (count c + 1)%Z →
  extract key l = None ∧ length l = len c ∧ ranked c' ((key, v) :: l).
Proof.
  intros [Hinv (order & Hp & Hnf & Hr) Hst] Hinv' Hc Hroom Hnone Hlen Hks
    Hvs Hss Hcount.
  pose proof Hinv as [[Hv Hs Hl] _ _ _].
  split; [apply extract_None; by eapply ranked_miss|].
  split; [by eapply slots_length|].
  destruct (stamp_after c c' (len c) _ Hss) as [Hsj Hsne]; [lia|].
  destruct (slot_after c c' (len c) key v) as [Hej Hene]; try done; try lia.
  assert (len c ∉ order) as Hfresh.
  { intros Hin. pose proof (order_lt c order _ Hp Hin). lia. }
  constructor; [done| |].
  - exists (len c :: order). split_and!.
    + rewrite Hlen, seq_S, Hp. apply Permutation_cons_append.
    + eapply order_after; try done. intros a. by apply order_lt.
    + rewrite fmap_cons, Hej. by rewrite (slots_after c c' (len c)), Hr.
  - intros a Ha. rewrite Hcount.
    destruct (decide (a = len c)) as [->|Hne]; [lia|].
    rewrite Hsne by done. assert (a < len c) as Ha' by lia.
    pose proof (Hst a Ha'). lia.
Qed.

(** A new key takes the place of the entry with the smallest stamp: the
    last of the list. *)
Lemma ranked_replace c c' l j key v :
  ranked c l → inv c' → (count c < MaxUint64)%Z →
  j < len c →
  (∀ j' s s', j' < len c → seen c !! j = Some s →
              seen c !! j' = Some s' → (s ≤ s')%Z) →
  (∀ j', j' < len c → ¬ holds (keys c) j' key) →
  len c' = len c →
  keys c' = <[j := key]> (keys c) →
  vals c' = <[j := v]> (vals c) →
  seen c' = <[j := (count c + 1)%Z]> (seen c) →
  count c' = (count c + 1)%Z →
  extract key l = None ∧ length l = len c ∧
  ∃ k0 v0 front,
    l = front ++ [(k0, v0)] ∧
    keys c !! j = Some k0 ∧ vals c !! j = Some v0 ∧
    ranked c' ((key, v) :: front).
Proof.
  intros [Hinv (order & Hp & Hnf & Hr) Hst] Hinv' Hc Hj Hmin Hnone Hlen Hks
    Hvs Hss Hcount.
  pose proof Hinv as [[Hv Hs Hl] _ _ _].
  split; [apply extract_None; by eapply ranked_miss|].
  split; [by eapply slots_length|].
  destruct (list_elem_of_split order j (order_has c order j Hp Hj))
    as (pre & post & ->).
  assert (post = []) as ->.
  { destruct post as [|b post]; [done|]. exfalso.
    apply newest_first_app in Hnf as (_ & Hjp & _).
    destruct Hjp as [Hb _]. apply Forall_cons in Hb as [Hb _].
    assert (b < len c) as Hbl.
    { eapply order_lt; [done|]. rewrite elem_of_app, !elem_of_cons. tauto. }
    destruct (lookup_lt_is_Some_2 (seen c) j) as [s Hsj]; [lia|].
    destruct (lookup_lt_is_Some_2 (seen c) b) as [s' Hsb]; [lia|].
    pose proof (Hmin b s s' Hbl Hsj Hsb).
    unfold stamp in Hb. rewrite Hsj, Hsb in Hb. simpl in Hb. lia. }
  destruct (slots_split c pre j [] l Hr)
    as (k0 & v0 & lpre & lpost & -> & Hpre & Hpost & Hk0 & Hv0).
  destruct lpost; [|done].
  exists k0, v0, lpre. split_and!; try done.
  destruct (stamp_after c c' j _ Hss) as [Hsj Hsne]; [lia|].
  destruct (slot_after c c' j key v) as [Hej Hene]; try done; try lia.
  pose proof (order_NoDup c _ Hp) as Hnd.
  apply NoDup_app in Hnd as (_ & Hdis & _).
  assert (j ∉ pre) as Hjpre.
  { intros ?. by eapply Hdis, list_elem_of_here. }
  constructor; [done| |].
  - exists (j :: pre). split_and!.
    + rewrite Hlen, <- Hp. apply Permutation_cons_append.
    + eapply order_after; try done.
      * intros a Ha. eapply order_lt; [done|]. apply elem_of_app. by left.
      * by apply newest_first_app in Hnf as (? & _).
    + rewrite fmap_cons, Hej. by rewrite (slots_after c c' j), Hpre.
  - intros a Ha. rewrite Hcount. destruct (decide (a = j)) as [->|Hne].
    + lia.
    + rewrite Hsne by done. rewrite Hlen in Ha. pose proof (Hst a Ha). lia.
Qed.

(** ** The calls on a ranked cache *)

Lemma New_ranked size (ev : option (evict_func K V E Env)) :
  ranked (New size ev) [].
Proof.
  constructor; [apply New_inv| |simpl; lia].
  exists []. by split_and!.
Qed.

Lemma ranked_tick c l :
  ranked c l → (count c < MaxUint64)%Z → ranked (tick c) l.
Proof.
  intros [Hinv (order & Hp & Hnf & Hr) Hst] Hc.
  pose proof Hinv as [_ _ [Hc0 _] _].
  constructor; [by apply inv_tick| |].
  - exists order. split_and!; try done.
    eapply newest_first_ext; [|done]. done.
  - intros j Hj. cbn [count tick]. rewrite u64_succ by lia.
    change (stamp (tick c) j) with (stamp c j).
    pose proof (Hst j Hj). lia.
Qed.

Lemma Get_ranked key c l :
  ranked c l → (count c < MaxUint64)%Z →
  ∃ c' l' r,
    Get key c = Some (c', r) ∧ model_get key l = (l', r) ∧
    ranked c' l' ∧ count c' = (count c + 1)%Z ∧
    length (keys c') = length (keys c) ∧ evict c' = evict c.
Proof.
  intros Hrk Hc. pose proof Hrk as [Hinv (order & Hp & Hnf & Hr) Hst].
  pose proof Hinv as [[Hv Hs Hl] _ [Hc0 _] _].
  assert (u64 (count c + 1) = (count c + 1)%Z) as Hu by (apply u64_succ; lia).
  destruct (first_from (keys c) key (len c) 0)
    as [(j & Hj & Hk & _)|Hnone].
  - destruct (scan_Get_hit j key c Hinv) as (v & Hvj & HG); [lia|done|].
    rewrite HG, Hu.
    destruct (ranked_touch c
                (set_seen (<[j := (count c + 1)%Z]> (seen c)) (tick c))
                l j key v Hrk)
      as (k0 & v0 & rest & Hex & Hk0 & Hv0 & Hrk'); try done; try lia.
    { apply (inv_stamp (tick c)); [by apply inv_tick|].
      unfold MaxUint64 in *. lia. }
    { simpl. symmetry. by apply list_insert_id. }
    assert (v0 = v) as -> by congruence.
    eexists _, ((k0, v) :: rest), (v, true). split; [done|].
    unfold model_get. rewrite Hex. by split_and!.
  - rewrite scan_Get_miss; [|done|intros j ?; apply Hnone; lia].
    eexists _, l, (zero, false). split; [done|].
    unfold model_get.
    rewrite extract_None
      by (eapply ranked_miss; [done|done|intros j ?; apply Hnone; lia]).
    split_and!; try done. by apply ranked_tick.
Qed.

Lemma Put_ranked key val c l w :
  ranked c l → (count c < MaxUint64)%Z →
  ∃ c' l' w' err,
    Put key val c w = Some (c', w', err) ∧
    model_put (length (keys c)) (evict c) key val l w = (l', w', err) ∧
    ranked c' l' ∧ count c' = (count c + 1)%Z ∧
    length (keys c') = length (keys c) ∧ evict c' = evict c.
Proof.
  intros Hrk Hc. pose proof Hrk as [Hinv _ _].
  pose proof Hinv as [[Hv Hs Hl] _ [Hc0 _] _].
  assert (u64 (count c + 1) = (count c + 1)%Z) as Hu by (apply u64_succ; lia).
  unfold model_put.
  destruct (decide (length (keys c) = 0)) as [Hz|Hnz].
  - unfold Put. cbn [keys tick]. rewrite decide_True by done.
    eexists _, l, w, None. split; [done|]. split; [done|].
    split_and!; try done. by apply ranked_tick.
  - destruct (scan_Put_effect key val c w Hinv Hnz)
      as (j & k0 & c' & w' & err & -> & Hinv' & Hj' & Hks & Hvs & Hss
          & Hcount & Hev & Hcase).
    rewrite Hu in Hss, Hcount.
    assert (length (keys c') = length (keys c)) as Hsize
      by (by rewrite Hks, length_insert).
    destruct Hcase
      as [(Hj & Hk & Hkk & Hlen & -> & ->)|
          (-> & Hnone & [(-> & Hroom & Hlen & -> & ->)|
                    (Hfull & Hlen & Hj & Hmin & kv & v0 & Hk0 & Hv0 & Hwe)])].
    + (* the key is cached *)
      destruct (ranked_touch c c' l j key val Hrk)
        as (k1 & v0 & rest & Hex & Hk1 & _ & Hrk'); try done.
      { by exists k0. }
      { rewrite Hks. by apply list_insert_id. }
      rewrite Hex. assert (k1 = k0) as -> by congruence.
      eexists _, _, _, _. by split_and!.
    + (* room for a new key *)
      destruct (ranked_push c c' l key val Hrk)
        as (Hex & Hll & Hrk'); try done.
      rewrite Hex, decide_True by lia.
      eexists _, _, _, _. by split_and!.
    + (* the cache is full *)
      destruct (ranked_replace c c' l j key val Hrk)
        as (Hex & Hll & k0' & v0' & front & -> & Hk0' & Hv0' & Hrk');
        try done.
      assert (k0' = kv) as -> by congruence.
      assert (v0' = v0) as -> by congruence.
      rewrite Hex, decide_False by lia.
      rewrite last_snoc, length_app. simpl.
      replace (length front + 1 - 1) with (length front) by lia.
      rewrite take_app_length.
      eexists c', ((key, val) :: front), w', err. split; [done|].
      split_and!; try done.
      by rewrite <- Hwe.
Qed.

Lemma Grow_ranked more c c' l :
  ranked c l → Grow more c = Some c' → ranked c' l.
Proof.
  intros [Hinv (order & Hp & Hnf & Hr) Hst] HG.
  pose proof Hinv as [[Hv Hs Hl] _ _ _].
  pose proof (Grow_inv more c c' Hinv HG) as Hinv'.
  apply Grow_effect in HG as (Hk' & Hv' & Hs' & Hl' & Hc' & _).
  assert (∀ a, a < len c → stamp c' a = stamp c a) as Hsame.
  { intros a Ha. unfold stamp. rewrite Hs'. by rewrite lookup_app_l by lia. }
  constructor; [done| |].
  - exists order. rewrite Hl'. split_and!; try done.
    + eapply newest_first_ext; [|done]. intros a Ha. apply Hsame.
      by eapply order_lt.
    + rewrite <- Hr. apply list_fmap_ext. intros i a Ha.
      assert (a < len c) as Hlt
        by (eapply order_lt; [done|by eapply list_elem_of_lookup_2]).
      unfold slot_entry. rewrite Hk', Hv'. by rewrite !lookup_app_l by lia.
  - intros j Hj. rewrite Hl' in Hj. rewrite Hsame, Hc' by done.
    by apply Hst.
Qed.

Lemma step_ranked (a : access K V) rest c l w :
  ranked c l → (count c < MaxUint64)%Z →
  fits (op_of a :: rest) (length (keys c)) →
  ∃ c' m' l' w' x,
    step (op_of a) (c, w) = Some ((c', w'), x) ∧
    model_step (evict c) a (length (keys c), l, w) = ((m', l', w'), x) ∧
    length (keys c') = m' ∧ ranked c' l' ∧ evict c' = evict c ∧
    (count c' ≤ count c + 1)%Z ∧ fits rest m'.
Proof.
  intros Hrk Hc Hfit. pose proof Hrk as [[_ _ [? _] _] _ _].
  destruct a as [k|k v|more]; cbn [op_of step model_step];
    cbn [op_of fits] in Hfit.
  - destruct (Get_ranked k c l Hrk Hc)
      as (c' & l' & [v ok] & -> & -> & ? & ? & Hlen & ?).
    simpl. eexists _, _, _, _, _. split_and!; try done; lia.
  - destruct (Put_ranked k v c l w Hrk Hc)
      as (c' & l' & w' & err & -> & -> & ? & ? & Hlen & ?).
    simpl. eexists _, _, _, _, _. split_and!; try done; lia.
  - destruct Hfit as [Hfit Hrest].
    destruct (Grow_fits more c Hfit) as (c' & HG & Hlen). rewrite HG.
    simpl. eexists _, _, _, _, _. split_and!; try done.
    + by eapply Grow_ranked.
    + by apply Grow_effect in HG as (_ & _ & _ & _ & _ & ?).
    + apply Grow_effect in HG as (_ & _ & _ & _ & -> & _). lia.
Qed.

Lemma run_ranked (acc : list (access K V)) c l w :
  ranked c l → (count c + Z.of_nat (length acc) ≤ MaxUint64)%Z →
  fits (op_of <$> acc) (length (keys c)) →
  ∃ c' m' l' w' out,
    run (op_of <$> acc) (c, w) = Some ((c', w'), out) ∧
    model_run (evict c) acc (length (keys c), l, w) = ((m', l', w'), out) ∧
    length (keys c') = m' ∧ ranked c' l'.
Proof.
  revert c l w. induction acc as [|a acc IH]; intros c l w Hrk Hc Hfit.
  - eexists _, _, _, _, _. by split_and!.
  - rewrite fmap_cons in Hfit |- *. cbn [run model_run].
    simpl length in Hc.
    destruct (step_ranked a (op_of <$> acc) c l w Hrk)
      as (c1 & m1 & l1 & w1 & x & -> & -> & Hm1 & Hrk1 & Hev1 & Hc1 & Hfit1);
      [lia|done|].
    destruct (IH c1 l1 w1 Hrk1)
      as (c2 & m2 & l2 & w2 & out & Hrun & Hmodel & Hm2 & Hrk2);
      [lia|by rewrite Hm1|].
    cbn [mbind option_bind]. rewrite Hrun. rewrite Hev1, Hm1 in Hmodel.
    rewrite Hmodel. simpl.
    eexists _, _, _, _, _. by split_and!.
Qed.
End ranking_facts.

(** ** The iterators *)

Section iterators.
Context {K : Type} `{Comparable K} {V E Env : Type}.
Context `{Zero K} `{Zero V}.
Implicit Types (c : Cache K V E Env) (w : World K V Env).

Lemma all_loop_collect (more : list (K * V) → bool) c n i acc :
  shape c → i + n ≤ length (keys c) →
  ∃ j,
    stops (λ p, more (acc ++ p))
      (zip (take n (drop i (keys c))) (take n (drop i (vals c)))) j ∧
    all_loop n i (λ a k v, collect more a (k, v)) c acc =
      Some (acc ++ take j (zip (take n (drop i (keys c)))
                             (take n (drop i (vals c))))).
Proof.
  intros [Hv Hs _]. revert i acc. induction n as [|n IH]; intros i acc Hlen.
  - exists 0. split; [|simpl; by rewrite app_nil_r].
    unfold stops; simpl. split_and!; try done; intros; lia.
  - cbn [all_loop].
    destruct (lookup_lt_is_Some_2 (keys c) i) as [k Hk]; [lia|].
    destruct (lookup_lt_is_Some_2 (vals c) i) as [v Hvi]; [lia|].
    rewrite Hk, Hvi. cbn [mbind option_bind]. unfold collect.
    rewrite (drop_S _ _ _ Hk), (drop_S _ _ _ Hvi).
    cbn [take zip zip_with].
    destruct (more (acc ++ [(k, v)])) eqn:Hm.
    + destruct (IH (S i) (acc ++ [(k, v)]))
        as (j & (Hj & Hpos & Hstop & Hgo) & Hrun); [lia|].
      unfold collect in Hrun. rewrite Hrun.
      exists (S j). split; [|by rewrite <- app_assoc].
      unfold stops; csimpl. split_and!.
      * lia.
      * intros _. lia.
      * intros Hlt. rewrite <- Hstop by lia. by rewrite <- app_assoc.
      * intros [|a] Ha; [lia|]. csimpl.
        destruct a as [|a]; [by rewrite ?take_0|].
        rewrite <- Hgo with (i := S a) by lia. by rewrite <- app_assoc.
    + exists 1. split; [|by rewrite ?take_0].
      unfold stops; csimpl. split_and!.
      * lia.
      * intros _. lia.
      * intros _. by rewrite ?take_0.
      * intros a Ha. lia.
Qed.

Lemma keys_loop_collect (more : list K → bool) c n i acc :
  i + n ≤ length (keys c) →
  ∃ j,
    stops (λ p, more (acc ++ p)) (take n (drop i (keys c))) j ∧
    keys_loop n i (collect more) c acc =
      Some (acc ++ take j (take n (drop i (keys c)))).
Proof.
  revert i acc. induction n as [|n IH]; intros i acc Hlen.
  - exists 0. split; [|simpl; by rewrite app_nil_r].
    unfold stops; simpl. split_and!; try done; intros; lia.
  - cbn [keys_loop].
    destruct (lookup_lt_is_Some_2 (keys c) i) as [k Hk]; [lia|].
    rewrite Hk. cbn [mbind option_bind]. unfold collect.
    rewrite (drop_S _ _ _ Hk). cbn [take].
    destruct (more (acc ++ [k])) eqn:Hm.
    + destruct (IH (S i) (acc ++ [k]))
        as (j & (Hj & Hpos & Hstop & Hgo) & Hrun); [lia|].
      unfold collect in Hrun. rewrite Hrun.
      exists (S j). split; [|by rewrite <- app_assoc].
      unfold stops; csimpl. split_and!.
      * lia.
      * intros _. lia.
      * intros Hlt. rewrite <- Hstop by lia. by rewrite <- app_assoc.
      * intros [|a] Ha; [lia|]. csimpl.
        destruct a as [|a]; [by rewrite ?take_0|].
        rewrite <- Hgo with (i := S a) by lia. by rewrite <- app_assoc.
    + exists 1. split; [|by rewrite ?take_0].
      unfold stops; csimpl. split_and!.
      * lia.
      * intros _. lia.
      * intros _. by rewrite ?take_0.
      * intros a Ha. lia.
Qed.

(** A consumer that never breaks gets the whole list. *)
Lemma stops_never {A} (l : list A) j : stops (λ _, true) l j → take j l = l.
Proof.
  intros (Hj & _ & Hstop & _). apply take_ge.
  destruct (decide (j < length l)) as [Hlt|]; [|lia].
  by specialize (Hstop Hlt).
Qed.

Lemma entries_keys c : shape c → (entries c).*1 = take (len c) (keys c).
Proof.
  intros [Hv Hs Hl]. unfold entries. apply fst_zip.
  rewrite !length_take. lia.
Qed.

Lemma entries_length c : shape c → length (entries c) = len c.
Proof.
  intros [Hv Hs Hl]. unfold entries.
  rewrite length_zip_with, !length_take. lia.
Qed.

Lemma entries_slot c i :
  shape c → i < len c → entries c !! i = slot_entry c i.
Proof.
  intros [Hv Hs Hl] Hi. unfold entries, slot_entry.
  destruct (lookup_lt_is_Some_2 (keys c) i) as [k Hk]; [lia|].
  destruct (lookup_lt_is_Some_2 (vals c) i) as [v Hvi]; [lia|].
  rewrite Hk, Hvi. simpl. apply lookup_zip_with_Some.
  exists k, v. by rewrite !lookup_take_lt by done.
Qed.
End iterators.

Section linear_extras_order.
Context {K : Type} `{Comparable K} {V E Env : Type}.
Context `{Zero K} `{Zero V}.
Implicit Types (c : Cache K V E Env) (w : World K V Env).
Implicit Types (ev : option (evict_func K V E Env)).

(** X17.  The linear-scan cache is a least-recently-used cache as long as
    its use counter has not wrapped: a sequence of Get, Put and Grow calls
    on [New(size, evict)], no longer than the largest [uint64] and with
    every Grow within the largest [int], returns what the list model
    returns - the same values, hits and errors, the same callback
    invocations in the same order - where the model finds a key by [==],
    keeps the entries with the most recently used first, moves an entry
    to the front at every hit and update, drops the last entry when a key
    that equals no cached key arrives at a full cache, and gets its
    capacity raised by Grow.  Afterwards the capacity is the model's, the
    active slots hold the entries of the model's list, and their stamps
    order them as the list does. *)
Theorem X17_linear_get_put_grow_refine_lru_list (size : nat) ev w0
    (acc : list (access K V)) :
  (Z.of_nat (length acc) ≤ MaxUint64)%Z →
  fits (op_of <$> acc) size →
  ∃ c m l w out,
    run (op_of <$> acc) (New size ev, w0) = Some ((c, w), out) ∧
    model_run ev acc (size, [], w0) = ((m, l, w), out) ∧
    length (keys c) = m ∧ ranked c l.
Proof.
  intros Hlen Hfit.
  destruct (run_ranked acc (New size ev) [] w0 (New_ranked size ev))
    as (c & m & l & w & out & Hrun & Hmodel & Hm & Hrk).
  { simpl. lia. }
  { simpl. by rewrite length_replicate. }
  simpl in Hmodel. rewrite length_replicate in Hmodel.
  by exists c, m, l, w, out.
Qed.

(** X18.  All and Keys of the linear-scan cache hand the consumer the
    active entries in storage order - slot 0 first - and never index out
    of range; the sequence has [len] items; a consumer that breaks gets
    exactly the items up to the one at which it broke; the cache is not
    changed. *)
Theorem X18_linear_iterators_enumerate_active_slots c w :
  reachable (c, w) →
  length (entries c) = len c ∧
  (∀ i, i < len c → entries c !! i = slot_entry c i) ∧
  All c (λ acc k v, collect (λ _, true) acc (k, v)) [] = Some (entries c) ∧
  Keys c (collect (λ _, true)) [] = Some ((entries c).*1) ∧
  (∀ more, ∃ j, stops more (entries c) j ∧
     step (OpAll more) (c, w) = Some ((c, w), ObsAll (take j (entries c)))) ∧
  (∀ more, ∃ j, stops more (entries c).*1 j ∧
     step (OpKeys more) (c, w) =
       Some ((c, w), ObsKeys (take j (entries c).*1))).
Proof.
  intros Hr. pose proof (reachable_inv c w Hr) as [Hsh _ _ _].
  pose proof Hsh as [Hv Hs Hl].
  assert (∀ more, ∃ j, stops more (entries c) j ∧
            All c (λ acc k v, collect more acc (k, v)) [] =
              Some (take j (entries c))) as Hall.
  { intros more.
    destruct (all_loop_collect more c (len c) 0 [] Hsh) as (j & Hj & Hrun);
      [lia|].
    exists j. split; [exact Hj|exact Hrun]. }
  assert (∀ more, ∃ j, stops more (entries c).*1 j ∧
            Keys c (collect more) [] = Some (take j (entries c).*1)) as Hkeys.
  { intros more. rewrite entries_keys by done.
    destruct (keys_loop_collect more c (len c) 0 []) as (j & Hj & Hrun);
      [lia|].
    exists j. split; [exact Hj|exact Hrun]. }
  split_and!.
  - by apply entries_length.
  - intros i Hi. by apply entries_slot.
  - destruct (Hall (λ _, true)) as (j & Hj & ->).
    by rewrite (stops_never _ _ Hj).
  - destruct (Hkeys (λ _, true)) as (j & Hj & ->).
    by rewrite (stops_never _ _ Hj).
  - intros more. destruct (Hall more) as (j & Hj & Hrun).
    exists j. split; [done|]. cbn [step]. by rewrite Hrun.
  - intros more. destruct (Hkeys more) as (j & Hj & Hrun).
    exists j. split; [done|]. cbn [step]. by rewrite Hrun.
Qed.
End linear_extras_order.

(** ** The properties at concrete caches *)

Section linear_scenarios.
Local Open Scope Z_scope.

Lemma full_pair_reachable : reachable (full_pair, no_calls []).
Proof.
  exists 2%nat, (Some recorder), (no_calls []), [OpPut "a" 1; OpPut "b" 2],
    [ObsPut None; ObsPut None].
  by vm_compute.
Defined.


(** X13 at the full capacity-2 cache: put(c,3) then get(c). *)
Lemma X13_witness :
  ∃ c' w' err,
    Put "c" 3 full_pair (no_calls []) = Some (c', w', err) ∧
    snd <$> Get "c" c' = Some (3, true).
Proof.
  apply (X13_linear_get_after_put full_pair (no_calls []) "c" 3).
  - exact full_pair_reachable.
  - simpl. lia.
  - reflexivity.
Defined.

(** X14 at the full capacity-2 cache: put(c,3) and the key b. *)
Lemma X14_witness :
  ∃ c' w' err,
    Put "c" 3 full_pair (no_calls []) = Some (c', w', err) ∧
    (snd <$> Get "b" c' = snd <$> Get "b" full_pair ∨
     (len full_pair = length (keys full_pair) ∧
      (∀ j, (j < len full_pair)%nat → ¬ holds (keys full_pair) j "c") ∧
      (∃ j s, (j < len full_pair)%nat ∧ holds (keys full_pair) j "b" ∧
              seen full_pair !! j = Some s ∧
              ∀ j' s', (j' < len full_pair)%nat →
                       seen full_pair !! j' = Some s' → (s ≤ s')%Z) ∧
      snd <$> Get "b" c' = Some (zero, false))).
Proof.
  apply (X14_linear_put_keeps_other_keys full_pair (no_calls []) "c" "b" 3).
  - exact full_pair_reachable.
  - reflexivity.
Defined.

(** X15 at the full capacity-2 cache. *)
Lemma X15_witness :
  ∃ w' err,
    Clear full_pair (no_calls []) =
      Some (New (length (keys full_pair)) (evict full_pair), w', err) ∧
    match evict full_pair with
    | Some _ =>
        calls w' =
          calls (no_calls (Env:=list (string * Z)) []) ++ entries full_pair
    | None => w' = no_calls [] ∧ err = None
    end.
Proof.
  apply (X15_linear_clear_is_new full_pair (no_calls [])).
  exact full_pair_reachable.
Defined.


(** X17 at capacity 2: a, b, a touched, room for c, then d evicts b. *)
Lemma X17_witness :
  ∃ c m l w out,
    run (op_of <$> [APut "a" 1; APut "b" 2; AGet "a"; AGrow 1; APut "c" 3;
                    APut "d" 4])
      (New 2 (Some recorder), no_calls []) = Some ((c, w), out) ∧
    model_run (Some recorder)
      [APut "a" 1; APut "b" 2; AGet "a"; AGrow 1; APut "c" 3; APut "d" 4]
      (2%nat, [], no_calls []) = ((m, l, w), out) ∧
    length (keys c) = m ∧ ranked c l.
Proof.
  apply (X17_linear_get_put_grow_refine_lru_list 2%nat (Some recorder)
           (no_calls [])
           [APut "a" 1; APut "b" 2; AGet "a"; AGrow 1; APut "c" 3;
            APut "d" 4]).
  - by vm_compute.
  - simpl. unfold MaxInt. lia.
Defined.

(** X18 at the full capacity-2 cache. *)
Lemma X18_witness :
  length (entries full_pair) = len full_pair ∧
  (∀ i, (i < len full_pair)%nat → entries full_pair !! i = slot_entry full_pair i) ∧
  All full_pair (λ acc k v, collect (λ _, true) acc (k, v)) [] =
    Some (entries full_pair) ∧
  Keys full_pair (collect (λ _, true)) [] = Some ((entries full_pair).*1) ∧
  (∀ more, ∃ j, stops more (entries full_pair) j ∧
     step (OpAll more) (full_pair, no_calls []) =
       Some ((full_pair, no_calls []), ObsAll (take j (entries full_pair)))) ∧
  (∀ more, ∃ j, stops more (entries full_pair).*1 j ∧
     step (OpKeys more) (full_pair, no_calls []) =
       Some ((full_pair, no_calls []),
             ObsKeys (take j (entries full_pair).*1))).
Proof.
  apply (X18_linear_iterators_enumerate_active_slots full_pair (no_calls [])).
  exact full_pair_reachable.
Defined.
End linear_scenarios.

End linear_facts.

End lru.
